(** * gatsby-source-contentful: normalisation and image derivatives

    A shallow embedding of [src/normalize.js] and [src/extend-node-type.js]
    of the Contentful source plugin, with the properties of its
    specification proved (or refuted) over the embedding.

    - [JsNum]      : the JavaScript numbers the image code computes with.
    - [ExtendNodeType] : [resolveFixed], [resolveFluid], [resolveResize] and
                     the base64 placeholder cache [getBase64Image].
    - [Js]         : JavaScript values, objects as ordered key/value lists,
                     exceptions as an error monad.
    - [Normalize]  : locale fallback, ids, the foreign-reference map, entry
                     and asset node creation (both revisions of the file). *)

From Stdlib Require Import QArith Qround Sorted.
From stdpp Require Import base option list strings gmap pretty.

Local Open Scope Z_scope.
Set Warnings "-register-all".

(** ** JavaScript numbers *)

Module JsNum.

(** A number is a finite value, one of the two infinities, or NaN.  Finite
    values are exact rationals: the rounding error of IEEE doubles and the
    sign of zero are not represented (a zero divisor behaves as [+0]). *)
Inductive num : Type :=
  | Fin (q : Q)
  | PInf
  | NInf
  | NaN.

Definition ofZ (z : Z) : num := Fin (inject_Z z).

Definition sgn (q : Q) : comparison := (q ?= 0)%Q.

(** [a * b] *)
Definition mul (a b : num) : num :=
  match a, b with
  | NaN, _ | _, NaN => NaN
  | Fin x, Fin y => Fin (x * y)
  | Fin x, PInf | PInf, Fin x =>
      match sgn x with Gt => PInf | Lt => NInf | Eq => NaN end
  | Fin x, NInf | NInf, Fin x =>
      match sgn x with Gt => NInf | Lt => PInf | Eq => NaN end
  | PInf, PInf | NInf, NInf => PInf
  | PInf, NInf | NInf, PInf => NInf
  end.

(** [a / b] *)
Definition div (a b : num) : num :=
  match a, b with
  | NaN, _ | _, NaN => NaN
  | Fin x, Fin y =>
      match sgn y with
      | Eq => match sgn x with Gt => PInf | Lt => NInf | Eq => NaN end
      | _ => Fin (x / y)
      end
  | Fin _, (PInf | NInf) => Fin 0
  | PInf, Fin y => match sgn y with Lt => NInf | _ => PInf end
  | NInf, Fin y => match sgn y with Lt => PInf | _ => NInf end
  | (PInf | NInf), (PInf | NInf) => NaN
  end.

(** [Math.round]: the nearest integer, halves rounded up. *)
Definition round (a : num) : num :=
  match a with
  | Fin x => Fin (inject_Z (Qfloor (x + (1 # 2))))
  | _ => a
  end.

(** [a <= b] and [a < b]; every comparison with NaN is false. *)
Definition leb (a b : num) : bool :=
  match a, b with
  | NaN, _ | _, NaN => false
  | NInf, _ | _, PInf => true
  | Fin x, Fin y => Qle_bool x y
  | _, _ => false
  end.

Definition ltb (a b : num) : bool :=
  match a, b with
  | NaN, _ | _, NaN => false
  | NInf, NInf | PInf, PInf => false
  | NInf, _ | _, PInf => true
  | Fin x, Fin y => negb (Qle_bool y x)
  | _, _ => false
  end.

(** SameValueZero, the equality of [Array.prototype.includes]. *)
Definition sameValueZero (a b : num) : bool :=
  match a, b with
  | Fin x, Fin y => Qeq_bool x y
  | PInf, PInf | NInf, NInf | NaN, NaN => true
  | _, _ => false
  end.

(** Truthiness: [0] and [NaN] are falsy. *)
Definition truthy (a : num) : bool :=
  match a with
  | Fin x => negb (Qeq_bool x 0)
  | NaN => false
  | _ => true
  end.

Definition le (a b : num) : Prop := leb a b = true.

Definition isNaN (a : num) : bool :=
  match a with NaN => true | _ => false end.

(** [Math.floor] *)
Definition floor (a : num) : num :=
  match a with
  | Fin x => Fin (inject_Z (Qfloor x))
  | _ => a
  end.

End JsNum.

(** ** extend-node-type.js: image derivatives *)

Module ExtendNodeType.
Import JsNum.

Definition CONTENTFUL_IMAGE_MAX_SIZE : num := ofZ 4000.

Definition mimeTypeExtensions : list (string * string) :=
  [ ("image/jpeg", ".jpg"); ("image/jpg", ".jpg"); ("image/gif", ".gif");
    ("image/png", ".png"); ("image/webp", ".webp") ]%string.

(** [image.file]: the media type and pixel size Contentful reports. *)
Record File : Type := {
  url : string;
  contentType : string;
  fileName : string;
  details_image_width : Z;
  details_image_height : Z
}.

Record Image : Type := { file : option File }.

(** The argument bag of the image resolvers.  [None] is [undefined]. *)
Record Options : Type := {
  width : option num;
  height : option num;
  maxWidth : option num;
  maxHeight : option num;
  quality : option num;
  toFormat : option string;
  jpegProgressive : option bool;
  resizingBehavior : option string;
  cropFocus : option string;
  background : option string;
  sizes : option string
}.

Definition set_width (v : option num) (o : Options) : Options :=
  {| width := v; height := height o; maxWidth := maxWidth o;
     maxHeight := maxHeight o; quality := quality o; toFormat := toFormat o;
     jpegProgressive := jpegProgressive o;
     resizingBehavior := resizingBehavior o; cropFocus := cropFocus o;
     background := background o; sizes := sizes o |}.

Definition set_height (v : option num) (o : Options) : Options :=
  {| width := width o; height := v; maxWidth := maxWidth o;
     maxHeight := maxHeight o; quality := quality o; toFormat := toFormat o;
     jpegProgressive := jpegProgressive o;
     resizingBehavior := resizingBehavior o; cropFocus := cropFocus o;
     background := background o; sizes := sizes o |}.

Definition set_maxWidth (v : option num) (o : Options) : Options :=
  {| width := width o; height := height o; maxWidth := v;
     maxHeight := maxHeight o; quality := quality o; toFormat := toFormat o;
     jpegProgressive := jpegProgressive o;
     resizingBehavior := resizingBehavior o; cropFocus := cropFocus o;
     background := background o; sizes := sizes o |}.

Definition set_resizingBehavior (v : option string) (o : Options) : Options :=
  {| width := width o; height := height o; maxWidth := maxWidth o;
     maxHeight := maxHeight o; quality := quality o; toFormat := toFormat o;
     jpegProgressive := jpegProgressive o;
     resizingBehavior := v; cropFocus := cropFocus o;
     background := background o; sizes := sizes o |}.

Definition set_sizes (v : option string) (o : Options) : Options :=
  {| width := width o; height := height o; maxWidth := maxWidth o;
     maxHeight := maxHeight o; quality := quality o; toFormat := toFormat o;
     jpegProgressive := jpegProgressive o;
     resizingBehavior := resizingBehavior o; cropFocus := cropFocus o;
     background := background o; sizes := v |}.

(** Coercions JavaScript applies to a possibly [undefined] operand. *)
Definition toNumber (o : option num) : num := default NaN o.

Definition truthyNum (o : option num) : bool :=
  match o with Some n => truthy n | None => false end.

Definition truthyStr (o : option string) : bool :=
  match o with Some s => negb (String.eqb s "") | None => false end.

(** [x || undefined] *)
Definition orUndefinedNum (o : option num) : option num :=
  if truthyNum o then o else None.

Definition orUndefinedStr (o : option string) : option string :=
  if truthyStr o then o else None.

(** [const isImage = image => mimeTypeExtensions.has(image?.file?.contentType)] *)
Definition isImage (image : Image) : bool :=
  match file image with
  | Some f => bool_decide (contentType f ∈ mimeTypeExtensions.*1)
  | None => false
  end.

Record BasicImageProps : Type := {
  baseUrl : string;
  props_contentType : string;
  aspectRatio : num;
  props_width : num;
  props_height : num
}.

Definition getBasicImageProps (f : File) (args : Options) : BasicImageProps :=
  let aspectRatio :=
    if truthyNum (width args) && truthyNum (height args)
    then div (toNumber (width args)) (toNumber (height args))
    else div (ofZ (details_image_width f)) (ofZ (details_image_height f)) in
  {| baseUrl := url f;
     props_contentType := contentType f;
     aspectRatio := aspectRatio;
     props_width := ofZ (details_image_width f);
     props_height := ofZ (details_image_height f) |}.

(** The request [createUrl] hands to [qs.stringify]: the target
    [https:${imgUrl}] and the Contentful query arguments, an argument being
    absent when its option is falsy.  The query string itself is the
    library's rendering of this record. *)
Record Url : Type := {
  target : string;
  w : option num;
  h : option num;
  fl : option string;
  q : option num;
  fm : option string;
  fit : option string;
  f : option string;
  bg : option string
}.

Definition createUrl (imgUrl : string) (options : Options) : Url :=
  {| target := "https:" +:+ imgUrl;
     w := orUndefinedNum (width options);
     h := orUndefinedNum (height options);
     fl := if bool_decide (toFormat options = Some "jpg"%string)
              && bool_decide (jpegProgressive options = Some true)
           then Some "progressive"%string else None;
     q := orUndefinedNum (quality options);
     fm := orUndefinedStr (toFormat options);
     fit := orUndefinedStr (resizingBehavior options);
     f := orUndefinedStr (cropFocus options);
     bg := orUndefinedStr (background options) |}.

(** lodash [sortBy] on numbers: a stable ascending sort. *)
Fixpoint insertAscending (x : num) (l : list num) : list num :=
  match l with
  | [] => [x]
  | y :: l' => if leb x y then x :: l else y :: insertAscending x l'
  end.

Definition sortBy (l : list num) : list num := foldr insertAscending [] l.

(** One candidate of a [srcSet]: its width, its URL and its descriptor
    ([1x], [1.5x], ... for fixed images, [<width>w] for fluid ones).  The
    [srcSet] string joins the candidates in list order. *)
Inductive Descriptor : Type :=
  | Resolution (r : option string)
  | WidthDescriptor (n : num).

Record Candidate : Type := {
  size : num;
  candidateUrl : Url;
  descriptor : Descriptor
}.

Record Fixed : Type := {
  fixed_aspectRatio : num;
  fixed_baseUrl : string;
  fixed_width : num;
  fixed_height : num;
  fixed_src : Url;
  fixed_srcSet : list Candidate
}.

Definition resolutionOf (i : nat) : option string :=
  match i with
  | 0%nat => Some "1x" | 1%nat => Some "1.5x" | 2%nat => Some "2x"
  | 3%nat => Some "3x" | _ => None
  end%string.

Definition threeHalves : num := Fin (3 # 2).

(** [resolveFixed(image, options)].  The function assigns to the caller's
    [options] object, so the embedding returns the final [options] next to
    the result ([None] is [null]). *)
Definition resolveFixed (image : Image) (options : Options)
  : option Fixed * Options :=
  match file image with
  | Some fl_ =>
    if negb (isImage image) then (None, options) else
    let props := getBasicImageProps fl_ options in
    let desiredAspectRatio := aspectRatio props in
    (* If no dimension is given, set a default width *)
    let options :=
      match width options, height options with
      | None, None => set_width (Some (ofZ 400)) options
      | _, _ => options
      end in
    (* If only a height is given, calculate the width *)
    let options :=
      match height options, width options with
      | Some hh, None =>
          set_width (Some (round (mul hh desiredAspectRatio))) options
      | _, _ => options
      end in
    (* If we're cropping, calculate the specified aspect ratio. *)
    let desiredAspectRatio :=
      match width options, height options with
      | Some ww, Some hh => div ww hh
      | _, _ => desiredAspectRatio
      end in
    let options :=
      match width options, height options with
      | Some _, Some _ =>
          if negb (truthyStr (resizingBehavior options))
          then set_resizingBehavior (Some "fill"%string) options
          else options
      | _, _ => options
      end in
    let ow := toNumber (width options) in
    let fixedSizes :=
      map round [ow; mul ow threeHalves; mul ow (ofZ 2); mul ow (ofZ 3)] in
    let filteredSizes :=
      filter (λ size,
        let calculatedHeight := round (div size desiredAspectRatio) in
        Is_true (leb size CONTENTFUL_IMAGE_MAX_SIZE
                 && leb calculatedHeight CONTENTFUL_IMAGE_MAX_SIZE
                 && leb size (props_width props))) fixedSizes in
    let sortedSizes := sortBy filteredSizes in
    let srcSet :=
      imap (λ i size,
        let hh := round (div size desiredAspectRatio) in
        {| size := size;
           candidateUrl :=
             createUrl (baseUrl props)
               (set_height (Some hh) (set_width (Some size) options));
           descriptor := Resolution (resolutionOf i) |}) sortedSizes in
    let '(pickedHeight, pickedWidth) :=
      if truthyNum (height options)
      then (toNumber (height options),
            mul (toNumber (height options)) desiredAspectRatio)
      else (div (toNumber (width options)) desiredAspectRatio,
            toNumber (width options)) in
    (Some {| fixed_aspectRatio := desiredAspectRatio;
             fixed_baseUrl := baseUrl props;
             fixed_width := round pickedWidth;
             fixed_height := round pickedHeight;
             fixed_src := createUrl (baseUrl props) options;
             fixed_srcSet := srcSet |}, options)
  | None => (None, options)
  end.

Record Fluid : Type := {
  fluid_aspectRatio : num;
  fluid_baseUrl : string;
  fluid_src : Url;
  fluid_srcSet : list Candidate;
  fluid_sizes : option string
}.

(** [Array.prototype.includes] *)
Definition includes (l : list num) (x : num) : bool :=
  existsb (sameValueZero x) l.

(** The default [sizes] hint
    [(max-width: ${maxWidth}px) 100vw, ${maxWidth}px]; the number is
    rendered by [showNum], the template literal's conversion. *)
Definition defaultSizes (showNum : num → string) (maxWidth : num) : string :=
  "(max-width: " +:+ showNum maxWidth +:+ "px) 100vw, "
    +:+ showNum maxWidth +:+ "px".

(** [resolveFluid(image, options)] *)
Definition resolveFluid (showNum : num → string)
    (image : Image) (options : Options) : option Fluid * Options :=
  match file image with
  | Some fl_ =>
    if negb (isImage image) then (None, options) else
    let props := getBasicImageProps fl_ options in
    let width_ := props_width props in
    let desiredAspectRatio := aspectRatio props in
    (* If no dimension is given, set a default maxWidth *)
    let options :=
      match maxWidth options, maxHeight options with
      | None, None => set_maxWidth (Some (ofZ 800)) options
      | _, _ => options
      end in
    (* If only a maxHeight is given, calculate the maxWidth *)
    let options :=
      match maxHeight options, maxWidth options with
      | Some hh, None =>
          set_maxWidth (Some (round (mul hh desiredAspectRatio))) options
      | _, _ => options
      end in
    (* If we're cropping, calculate the specified aspect ratio. *)
    let desiredAspectRatio :=
      match maxHeight options, maxWidth options with
      | Some hh, Some ww => div ww hh
      | _, _ => desiredAspectRatio
      end in
    (* If the users didn't set a default sizes, we'll make one. *)
    let options :=
      if negb (truthyStr (sizes options))
      then set_sizes
             (Some (defaultSizes showNum (toNumber (maxWidth options))))
             options
      else options in
    let mw := toNumber (maxWidth options) in
    let fluidSizes :=
      map round [div mw (ofZ 4); div mw (ofZ 2); mw; mul mw threeHalves;
                 mul mw (ofZ 2); mul mw (ofZ 3)] in
    let filteredSizes :=
      filter (λ size,
        let calculatedHeight := round (div size desiredAspectRatio) in
        Is_true (leb size CONTENTFUL_IMAGE_MAX_SIZE
                 && leb calculatedHeight CONTENTFUL_IMAGE_MAX_SIZE
                 && leb size width_)) fluidSizes in
    (* Add the original image (if it isn't already in there) *)
    let filteredSizes :=
      if negb (includes filteredSizes width_)
         && ltb width_ CONTENTFUL_IMAGE_MAX_SIZE
         && ltb (round (div width_ desiredAspectRatio))
                CONTENTFUL_IMAGE_MAX_SIZE
      then filteredSizes ++ [width_]
      else filteredSizes in
    let sortedSizes := sortBy filteredSizes in
    let srcSet :=
      map (λ width_,
        let hh := round (div width_ desiredAspectRatio) in
        {| size := width_;
           candidateUrl :=
             createUrl (url fl_)
               (set_height (Some hh) (set_width (Some width_) options));
           descriptor := WidthDescriptor (round width_) |}) sortedSizes in
    (Some {| fluid_aspectRatio := desiredAspectRatio;
             fluid_baseUrl := baseUrl props;
             fluid_src :=
               createUrl (baseUrl props)
                 (set_height (maxHeight options)
                    (set_width (maxWidth options) options));
             fluid_srcSet := srcSet;
             fluid_sizes := sizes options |}, options)
  | None => (None, options)
  end.

Record Resize : Type := {
  resize_src : Url;
  resize_width : num;
  resize_height : num;
  resize_aspectRatio : num;
  resize_baseUrl : string
}.

(** [resolveResize(image, options)] *)
Definition resolveResize (image : Image) (options : Options)
  : option Resize * Options :=
  match file image with
  | Some fl_ =>
    if negb (isImage image) then (None, options) else
    let props := getBasicImageProps fl_ options in
    (* If no dimension is given, set a default width *)
    let options :=
      match width options, height options with
      | None, None => set_width (Some (ofZ 400)) options
      | _, _ => options
      end in
    let options :=
      match width options, height options with
      | Some _, Some _ =>
          if negb (truthyStr (resizingBehavior options))
          then set_resizingBehavior (Some "fill"%string) options
          else options
      | _, _ => options
      end in
    let pickedHeight := height options in
    let pickedWidth := width options in
    let pickedWidth :=
      match pickedWidth with
      | None => mul (toNumber pickedHeight) (aspectRatio props)
      | Some ww => ww
      end in
    let pickedHeight :=
      match pickedHeight with
      | None => div pickedWidth (aspectRatio props)
      | Some hh => hh
      end in
    (Some {| resize_src := createUrl (url fl_) options;
             resize_width := round pickedWidth;
             resize_height := round pickedHeight;
             resize_aspectRatio := aspectRatio props;
             resize_baseUrl := baseUrl props |}, options)
  | None => (None, options)
  end.

(** *** The base64 placeholder cache

    [getBase64Image] keeps two module-level maps keyed by the request URL.
    Promises are named after the fetch they belong to: [LoadImage n] is the
    promise [loadImageAsBase64()] of the [n]-th dispatched fetch, [Then n]
    the promise [promise.then(body => ...)] chained on it.  The state
    records every dispatched fetch with its URL and how it settled. *)

Inductive Settled : Type :=
  | Pending
  | Fulfilled (body : string)
  | Rejected (reason : string).

Inductive Promise : Type :=
  | LoadImage (n : nat)
  | Then (n : nat).

Record Caches : Type := {
  inFlightBase64Cache : gmap string Promise;
  resolvedBase64Cache : gmap string string;
  fetches : list (string * Settled)
}.

Definition noCaches : Caches :=
  {| inFlightBase64Cache := ∅; resolvedBase64Cache := ∅; fetches := [] |}.

(** What [getBase64Image] returns: [null], the body, or a promise. *)
Inductive Returned : Type :=
  | Null
  | Body (body : string)
  | Promised (p : Promise).

Record ImageProps : Type := { imageProps_baseUrl : string }.

Definition placeholderOptions : Options :=
  {| width := Some (ofZ 20); height := None; maxWidth := None;
     maxHeight := None; quality := None; toFormat := Some "jpg"%string;
     jpegProgressive := None; resizingBehavior := None; cropFocus := None;
     background := None; sizes := None |}.

Section Placeholder.

(** The text of a request: [https:${imgUrl}?${qs.stringify(urlArgs)}]. *)
Variable renderUrl : Url → string.

Definition requestUrlOf (baseUrl : string) : string :=
  renderUrl (createUrl baseUrl placeholderOptions).

(** [getBase64Image(imageProps, reporter, cache, CACHE_FOLDER)] *)
Definition getBase64Image (imageProps : option ImageProps) (st : Caches)
  : Returned * Caches :=
  match imageProps with
  | None => (Null, st)
  | Some imageProps =>
    (* baseUrl.indexOf(`images.ctfassets.net`) === -1 *)
    if bool_decide
         (String.index 0 "images.ctfassets.net" (imageProps_baseUrl imageProps)
          = None)
    then (Null, st) else
    let requestUrl := requestUrlOf (imageProps_baseUrl imageProps) in
    (* Prefer to return data sync if we already have it *)
    let alreadyFetched := resolvedBase64Cache st !! requestUrl in
    match orUndefinedStr alreadyFetched with
    | Some alreadyFetched => (Body alreadyFetched, st)
    | None =>
      (* If already in flight for this url return the same promise *)
      match inFlightBase64Cache st !! requestUrl with
      | Some inFlight => (Promised inFlight, st)
      | None =>
        (* const promise = loadImageAsBase64() *)
        let n := length (fetches st) in
        (Promised (Then n),
         {| inFlightBase64Cache :=
              <[requestUrl := LoadImage n]> (inFlightBase64Cache st);
            resolvedBase64Cache := resolvedBase64Cache st;
            fetches := fetches st ++ [(requestUrl, Pending)] |})
      end
    end
  end.

(** The [n]-th fetch completes: with the base64 text of the file read
    ([inl]) or with an error of [fetchContentfulAsset] or [fs.readFile]
    ([inr]).  On success the [then] callback moves the URL from the
    in-flight map to the resolved map; on failure no callback is
    registered, so both maps stay as they are. *)
Definition settle (n : nat) (result : string + string) (st : Caches) : Caches :=
  match fetches st !! n with
  | Some (requestUrl, Pending) =>
    match result with
    | inl base64 =>
      let body := "data:image/jpeg;base64," +:+ base64 in
      {| inFlightBase64Cache := delete requestUrl (inFlightBase64Cache st);
         resolvedBase64Cache := <[requestUrl := body]> (resolvedBase64Cache st);
         fetches := <[n := (requestUrl, Fulfilled body)]> (fetches st) |}
    | inr reason =>
      {| inFlightBase64Cache := inFlightBase64Cache st;
         resolvedBase64Cache := resolvedBase64Cache st;
         fetches := <[n := (requestUrl, Rejected reason)]> (fetches st) |}
    end
  | _ => st
  end.

(** What a waiter on a promise observes. *)
Definition promiseState (p : Promise) (st : Caches) : Settled :=
  match p with
  | LoadImage n | Then n =>
      match fetches st !! n with
      | Some (_, s) => s
      | None => Pending
      end
  end.

(** The states the module can be in: calls and completions in any order. *)
Inductive reachable : Caches → Prop :=
  | reachable_start : reachable noCaches
  | reachable_call st imageProps :
      reachable st → reachable (getBase64Image imageProps st).2
  | reachable_settle st n result :
      reachable st → reachable (settle n result st).

End Placeholder.

(** *** Image sources for [gatsby-plugin-image] *)

Definition validImageFormats : list string := ["jpg"; "png"; "webp"; "gif"].

(** The last argument of [generateImageSource]. *)
Record SourceOptions : Type := {
  source_jpegProgressive : option bool;
  source_quality : option num;
  source_cropFocus : option string;
  source_backgroundColor : option string;
  source_resizingBehavior : option string
}.

(** [s.replace(`#`, `rgb:`)]: the first [#] (character 35) only. *)
Fixpoint replaceHash (s : string) : string :=
  match s with
  | EmptyString => EmptyString
  | String c s' =>
      if Ascii.eqb c (Ascii.ascii_of_nat 35) then "rgb:" +:+ s'
      else String c (replaceHash s')
  end.

Record ImageSource : Type := {
  source_width : num;
  source_height : num;
  source_format : string;
  source_src : Url
}.

(** [generateImageSource(filename, width, height, toFormat, _fit, options)];
    [None] is [undefined]. *)
Definition generateImageSource (filename : string) (width height : num)
    (toFormat : option string) (_fit : option string)
    (options : SourceOptions) : option ImageSource :=
  (* Ensure we stay within Contentfuls Image API limits *)
  let '(width, height) :=
    if ltb CONTENTFUL_IMAGE_MAX_SIZE width
    then (CONTENTFUL_IMAGE_MAX_SIZE,
          floor (mul (div height width) CONTENTFUL_IMAGE_MAX_SIZE))
    else (width, height) in
  let '(width, height) :=
    if ltb CONTENTFUL_IMAGE_MAX_SIZE height
    then (floor (mul (div width height) CONTENTFUL_IMAGE_MAX_SIZE),
          CONTENTFUL_IMAGE_MAX_SIZE)
    else (width, height) in
  match toFormat with
  | Some format =>
    if bool_decide (format ∈ validImageFormats) then
      let src :=
        createUrl filename
          {| width := Some width; height := Some height; maxWidth := None;
             maxHeight := None; quality := source_quality options;
             toFormat := Some format;
             jpegProgressive := source_jpegProgressive options;
             resizingBehavior := source_resizingBehavior options;
             cropFocus := source_cropFocus options;
             background := replaceHash <$> source_backgroundColor options;
             sizes := None |} in
      Some {| source_width := width; source_height := height;
              source_format := format; source_src := src |}
    else None
  | None => None
  end.

(** *** The WebP fields of the [fixed] and [fluid] node types *)

Definition set_toFormat (v : option string) (o : Options) : Options :=
  {| width := width o; height := height o; maxWidth := maxWidth o;
     maxHeight := maxHeight o; quality := quality o; toFormat := v;
     jpegProgressive := jpegProgressive o;
     resizingBehavior := resizingBehavior o; cropFocus := cropFocus o;
     background := background o; sizes := sizes o |}.

(** What the [resolve] of a node type hands to the resolvers of its
    fields: the result, the image and the caller's [options] object, as the
    image resolver left it. *)
Record FixedNode : Type := {
  fixedNode_fixed : Fixed;
  fixedNode_image : Image;
  fixedNode_options : Options
}.

Record FluidNode : Type := {
  fluidNode_fluid : Fluid;
  fluidNode_image : Image;
  fluidNode_options : Options
}.

(** [resolve(image, options, context)] of [fixedNodeType] *)
Definition fixedNodeResolve (image : Image) (options : Options)
  : option FixedNode :=
  match resolveFixed image options with
  | (Some node, options) =>
    Some {| fixedNode_fixed := node; fixedNode_image := image;
            fixedNode_options := options |}
  | (None, _) => None
  end.

(** [image?.file?.contentType === `image/webp` ||
     options.toFormat === `webp`] *)
Definition isWebp (image : Image) (options : Options) : bool :=
  match file image with
  | Some f => String.eqb (contentType f) "image/webp"
  | None => false
  end
  || bool_decide (toFormat options = Some "webp"%string).

(** The resolvers of [srcWebp] and [srcSetWebp] of [fixedNodeType]. *)
Definition fixedSrcWebp (parent : FixedNode) : option Url :=
  let image := fixedNode_image parent in
  let options := fixedNode_options parent in
  if isWebp image options then None
  else
    fixed_src
    <$> (resolveFixed image (set_toFormat (Some "webp"%string) options)).1.

Definition fixedSrcSetWebp (parent : FixedNode) : option (list Candidate) :=
  let image := fixedNode_image parent in
  let options := fixedNode_options parent in
  if isWebp image options then None
  else
    fixed_srcSet
    <$> (resolveFixed image (set_toFormat (Some "webp"%string) options)).1.

Section FluidNodeType.

Variable showNum : num → string.

(** [resolve(image, options, context)] of [fluidNodeType] *)
Definition fluidNodeResolve (image : Image) (options : Options)
  : option FluidNode :=
  match resolveFluid showNum image options with
  | (Some node, options) =>
    Some {| fluidNode_fluid := node; fluidNode_image := image;
            fluidNode_options := options |}
  | (None, _) => None
  end.

(** The resolvers of [srcWebp] and [srcSetWebp] of [fluidNodeType]. *)
Definition fluidSrcWebp (parent : FluidNode) : option Url :=
  let image := fluidNode_image parent in
  let options := fluidNode_options parent in
  if isWebp image options then None
  else
    fluid_src
    <$> (resolveFluid showNum image
           (set_toFormat (Some "webp"%string) options)).1.

Definition fluidSrcSetWebp (parent : FluidNode) : option (list Candidate) :=
  let image := fluidNode_image parent in
  let options := fluidNode_options parent in
  if isWebp image options then None
  else
    fluid_srcSet
    <$> (resolveFluid showNum image
           (set_toFormat (Some "webp"%string) options)).1.

End FluidNodeType.

End ExtendNodeType.

(** ** JavaScript values *)

Module Js.

(** JSON data as the Contentful API delivers it.  An object is the list of
    its own enumerable properties in insertion order, which is the order of
    [Object.keys], of [_.mapValues] and of a spread.  Numbers that are not
    integers play no part in the code below and are left out. *)
Inductive value : Type :=
  | VUndefined
  | VNull
  | VBool (b : bool)
  | VNum (n : Z)
  | VStr (s : string)
  | VArr (elements : list value)
  | VObj (properties : list (string * value)).

Abbreviation obj := (list (string * value)).

(** A thrown exception. *)
Inductive error : Type :=
  | TypeError (message : string)
  | RangeError (message : string).

Inductive result (A : Type) : Type :=
  | Ok (a : A)
  | Throw (e : error).
Arguments Ok {A} a.
Arguments Throw {A} e.

Definition bind {A B} (m : result A) (k : A → result B) : result B :=
  match m with
  | Ok a => k a
  | Throw e => Throw e
  end.

Declare Scope js_scope.
Delimit Scope js_scope with js.
Notation "'let*' x := m 'in' k" := (bind m (λ x, k))
  (at level 10, x pattern, m at level 100, k at level 200) : js_scope.
Local Open Scope js_scope.

(** [foldlM f a l]: a [forEach] whose callback updates [a] and may throw. *)
Fixpoint foldlM {A B} (f : A → B → result A) (a : A) (l : list B) : result A :=
  match l with
  | [] => Ok a
  | x :: l' => let* a' := f a x in foldlM f a' l'
  end.

(** [mapE f l]: [l.map(f)] with a callback that may throw. *)
Fixpoint mapE {A B} (f : A → result B) (l : list A) : result (list B) :=
  match l with
  | [] => Ok []
  | x :: l' => let* y := f x in let* ys := mapE f l' in Ok (y :: ys)
  end.

(** [filterE p l]: [l.filter(p)] with a callback that may throw. *)
Fixpoint filterE {A} (p : A → result bool) (l : list A) : result (list A) :=
  match l with
  | [] => Ok []
  | x :: l' =>
      let* b := p x in
      let* ys := filterE p l' in
      Ok (if b then x :: ys else ys)
  end.

(** Truthiness. *)
Definition truthy (v : value) : bool :=
  match v with
  | VUndefined | VNull => false
  | VBool b => b
  | VNum n => negb (n =? 0)
  | VStr s => negb (String.eqb s "")
  | VArr _ | VObj _ => true
  end.

Definition isUndefined (v : value) : bool :=
  match v with VUndefined => true | _ => false end.

(** [a || b] *)
Definition or (a b : value) : value := if truthy a then a else b.

Definition join (sep : string) (l : list string) : string :=
  match l with
  | [] => ""
  | s :: l' => foldl (λ acc t, acc +:+ sep +:+ t) s l'
  end.

(** The string a template literal or a property key makes of a value. *)
Fixpoint toString (v : value) : string :=
  match v with
  | VUndefined => "undefined"
  | VNull => "null"
  | VBool true => "true"
  | VBool false => "false"
  | VNum n => pretty n
  | VStr s => s
  | VArr l =>
      join ","
        ((fix each (l : list value) : list string :=
            match l with
            | [] => []
            | (VUndefined | VNull) :: l' => ""%string :: each l'
            | x :: l' => toString x :: each l'
            end) l)
  | VObj _ => "[object Object]"
  end.

(** Own properties of an object value. *)
Fixpoint get (k : string) (o : obj) : option value :=
  match o with
  | [] => None
  | (k', v) :: o' => if String.eqb k k' then Some v else get k o'
  end.

(** [o[k]]: [undefined] for a missing property. *)
Definition getV (k : string) (o : obj) : value := default VUndefined (get k o).

(** [o[k] = v]: an existing property keeps its place. *)
Fixpoint set (k : string) (v : value) (o : obj) : obj :=
  match o with
  | [] => [(k, v)]
  | (k', v') :: o' =>
      if String.eqb k k' then (k, v) :: o' else (k', v') :: set k v o'
  end.

(** [delete o[k]] *)
Definition delete (k : string) (o : obj) : obj :=
  filter (λ kv, kv.1 ≠ k) o.

(** [Object.keys(o)] *)
Definition keys (o : obj) : list string := o.*1.

(** [{ ...a, ...b }] *)
Definition spread (a b : obj) : obj :=
  foldl (λ acc kv, set kv.1 kv.2 acc) a b.

(** [v.k] and [v[k]] for a key that is not an array index: a TypeError on
    [undefined] and [null], [undefined] on anything that is not an object. *)
Definition prop (v : value) (k : string) : result value :=
  match v with
  | VUndefined =>
      Throw (TypeError ("Cannot read properties of undefined (reading '"
                        +:+ k +:+ "')"))
  | VNull =>
      Throw (TypeError ("Cannot read properties of null (reading '"
                        +:+ k +:+ "')"))
  | VObj o => Ok (getV k o)
  | _ => Ok VUndefined
  end.

(** [v.k] after a truthiness test of [v], as in [v && v.k]. *)
Definition propOr (v : value) (k : string) : value :=
  match v with
  | VObj o => getV k o
  | _ => VUndefined
  end.

(** [a[0]] *)
Definition head (l : list value) : value := default VUndefined (l !! 0%nat).

Definition isPlainObject (v : value) : bool :=
  match v with VObj _ => true | _ => false end.

Definition isArray (v : value) : bool :=
  match v with VArr _ => true | _ => false end.

(** [a === b] between a value and a string. *)
Definition strictEqStr (v : value) (s : string) : bool :=
  match v with VStr s' => String.eqb s' s | _ => false end.

(** [s.includes(t)] *)
Definition includes (t s : string) : bool :=
  match String.index 0 t s with Some _ => true | None => false end.

(** [String.prototype.toLowerCase] on ASCII letters. *)
Definition lowerAscii (c : Ascii.ascii) : Ascii.ascii :=
  let n := Ascii.nat_of_ascii c in
  if (65 <=? n)%nat && (n <=? 90)%nat then Ascii.ascii_of_nat (n + 32) else c.

Fixpoint toLowerCase (s : string) : string :=
  match s with
  | EmptyString => EmptyString
  | String c s' => String (lowerAscii c) (toLowerCase s')
  end.

(** Insertion-ordered de-duplication, as [[...new Set(l)]]. *)
Fixpoint uniq (seen l : list string) : list string :=
  match l with
  | [] => []
  | x :: l' =>
      if bool_decide (x ∈ seen) then uniq seen l' else x :: uniq (x :: seen) l'
  end.

End Js.

(** ** normalize.js: what both revisions of the file share *)

Module Normalize.
Import Js.
Local Open Scope js_scope.

Record Locale : Type := {
  code : string;
  fallbackCode : value;
  isDefault : bool
}.

(** [getLocalizedField({ field, locale, localesFallback })], [code] being
    [locale.code].  The recursion has no bound of its own: [depth] is the
    number of nested calls allowed, and [None] says that the call did not
    return within it. *)
Fixpoint getLocalizedField (depth : nat) (field : obj) (code : value)
    (localesFallback : obj) : option value :=
  match depth with
  | O => None
  | S depth =>
    if negb (isUndefined (getV (toString code) field)) then
      Some (getV (toString code) field)
    else if negb (isUndefined code)
            && negb (isUndefined (getV (toString code) localesFallback)) then
      getLocalizedField depth field
        (getV (toString code) localesFallback) localesFallback
    else Some VNull
  end.

(** [buildFallbackChain(locales)].  [_.each] stops as soon as its callback
    returns [false], here the value just assigned. *)
Fixpoint buildFallbackChainFrom (localesFallback : obj) (locales : list Locale)
  : obj :=
  match locales with
  | [] => localesFallback
  | locale :: rest =>
    let localesFallback :=
      set (code locale) (fallbackCode locale) localesFallback in
    match fallbackCode locale with
    | VBool false => localesFallback
    | _ => buildFallbackChainFrom localesFallback rest
    end
  end.

Definition buildFallbackChain (locales : list Locale) : obj :=
  buildFallbackChainFrom [] locales.

(** [makeId({ spaceId, id, currentLocale, defaultLocale, type })] *)
Definition makeId (spaceId : string) (id : value)
    (currentLocale defaultLocale : string) (type : value) : result string :=
  match type with
  | VStr type =>
    let normalizedType :=
      if String.prefix "Deleted" type
      then String.substring 7 (String.length type - 7) type
      else type in
    Ok (if String.eqb currentLocale defaultLocale
        then spaceId +:+ "___" +:+ toString id +:+ "___" +:+ normalizedType
        else spaceId +:+ "___" +:+ toString id +:+ "___" +:+ normalizedType
               +:+ "___" +:+ currentLocale)
  | VUndefined | VNull =>
    Throw (TypeError "Cannot read properties of undefined (reading 'startsWith')")
  | _ => Throw (TypeError "type.startsWith is not a function")
  end.

Record Sys : Type := {
  sys_id : string;
  sys_type : string;
  sys_createdAt : string;
  sys_updatedAt : string;
  sys_revision : option Z;
  (** [sys.contentType.sys.id] *)
  sys_contentType : option string
}.

(** An entry or an asset of the sync: every field is a bag of values by
    locale code. *)
Record Item : Type := {
  sys : Sys;
  fields : list (string * obj);
  (** the ids of [metadata.tags] *)
  metadata_tags : option (list string)
}.

Record ContentTypeField : Type := {
  field_id : string;
  field_type : string;
  localized : bool
}.

Record ContentType : Type := {
  name : string;
  contentType_id : string;
  contentType_updatedAt : string;
  displayField : value;
  description : value;
  contentType_fields : list ContentTypeField
}.

(** A reverse edge of the foreign-reference map. *)
Record ForeignReference : Type := {
  ref_name : string;
  ref_id : string;
  ref_spaceId : string;
  ref_type : string
}.

Definition lookupField (k : string) (fs : list (string * obj)) : option obj :=
  snd <$> List.find (λ kv, String.eqb kv.1 k) fs.

(** [v.sys.linkType || v.sys.type] *)
Definition linkTypeOrType (sysv : value) : result value :=
  let* linkType := prop sysv "linkType" in
  if truthy linkType then Ok linkType else prop sysv "type".

(** The key [`${v.sys.id}___${v.sys.linkType || v.sys.type}`] of a link. *)
Definition referenceKey (v : value) : result string :=
  let* sysv := prop v "sys" in
  let* id := prop sysv "id" in
  let* type := linkTypeOrType sysv in
  Ok (toString id +:+ "___" +:+ toString type).

(** [v && v.sys && v.sys.type && v.sys.id] *)
Definition looksLikeLink (v : value) : bool :=
  truthy v && truthy (propOr v "sys")
  && truthy (propOr (propOr v "sys") "type")
  && truthy (propOr (propOr v "sys") "id").

(** [existingNode?.internal?.contentDigest] *)
Definition contentDigestOf (existingNode : value) : value :=
  propOr (propOr existingNode "internal") "contentDigest".

(** [exports.buildEntryList]: one bucket per content type, in the order of
    [contentTypeItems]. *)
Definition buildEntryList (contentTypeItems : list ContentType)
    (entries : list Item) : result (list (list Item)) :=
  let* tagged :=
    mapE (λ entry,
      match sys_contentType (sys entry) with
      | Some ct => Ok (ct, entry)
      | None =>
        Throw (TypeError "Cannot read properties of undefined (reading 'sys')")
      end) entries in
  Ok ((λ contentType,
        snd <$> filter (λ ce, ce.1 = contentType_id contentType) tagged)
      <$> contentTypeItems).

(** [exports.buildResolvableSet]; an existing node contributes its
    [contentful_id] and [sys.type]. *)
Definition buildResolvableSet (entryList : list (list Item))
    (existingNodes : list (string * string)) (assets : list Item)
  : gset string :=
  let keyOf (i : Item) := sys_id (sys i) +:+ "___" +:+ sys_type (sys i) in
  list_to_set ((λ n, n.1 +:+ "___" +:+ n.2) <$> existingNodes)
  ∪ list_to_set (keyOf <$> concat entryList)
  ∪ list_to_set (keyOf <$> assets).

(** [foreignReferenceMap[key].push(edge)], creating the list when missing. *)
Definition pushReference (key : string) (edge : ForeignReference)
    (m : gmap string (list ForeignReference))
  : gmap string (list ForeignReference) :=
  <[key := default [] (m !! key) ++ [edge]]> m.

Section BuildForeignReferenceMap.

Variable resolvable : gset string.
Variable defaultLocale : string.
Variable spaceId : string.
Variable useNameForId : bool.

Definition referenceFrom (contentTypeItemId : string) (entryItem : Item)
  : ForeignReference :=
  {| ref_name := contentTypeItemId +:+ "___NODE";
     ref_id := sys_id (sys entryItem);
     ref_spaceId := spaceId;
     ref_type := sys_type (sys entryItem) |}.

(** The callback run on every element of an array of links. *)
Definition recordLink (contentTypeItemId : string) (entryItem : Item)
    (m : gmap string (list ForeignReference)) (v : value)
  : result (gmap string (list ForeignReference)) :=
  let* key := referenceKey v in
  (* Don't create link to an unresolvable field. *)
  if bool_decide (key ∈ resolvable)
  then Ok (pushReference key (referenceFrom contentTypeItemId entryItem) m)
  else Ok m.

(** The callback of [Object.keys(entryItemFields).forEach]. *)
Definition recordField (contentTypeItemId : string) (entryItem : Item)
    (m : gmap string (list ForeignReference)) (field : string * obj)
  : result (gmap string (list ForeignReference)) :=
  let entryItemFieldValue := getV defaultLocale field.2 in
  match entryItemFieldValue with
  | VArr elements =>
    if looksLikeLink (head elements)
    then foldlM (recordLink contentTypeItemId entryItem) m elements
    else Ok m
  | _ =>
    if truthy (propOr (propOr entryItemFieldValue "sys") "type")
       && truthy (propOr (propOr entryItemFieldValue "sys") "id")
    then recordLink contentTypeItemId entryItem m entryItemFieldValue
    else Ok m
  end.

Definition labelOf (contentTypeItem : ContentType) : string :=
  if useNameForId
  then toLowerCase (name contentTypeItem)
  else toLowerCase (contentType_id contentTypeItem).

(** [exports.buildForeignReferenceMap] *)
Definition buildForeignReferenceMap (contentTypeItems : list ContentType)
    (entryList : list (list Item))
  : result (gmap string (list ForeignReference)) :=
  foldlM (λ m '(i, contentTypeItem),
      let contentTypeItemId := labelOf contentTypeItem in
      match entryList !! i with
      | None =>
        Throw (TypeError "Cannot read properties of undefined (reading 'forEach')")
      | Some entries =>
        foldlM (λ m entryItem,
            foldlM (recordField contentTypeItemId entryItem) m
              (fields entryItem))
          m entries
      end)
    ∅ (imap (λ i c, (i, c)) contentTypeItems).

End BuildForeignReferenceMap.

(** The scan of a rich text document for Contentful links:
    [v && v.sys && v.sys.type === `Link`] collects [v], any other object or
    array is searched in turn. *)
Definition isLinkMarker (v : value) : bool :=
  truthy v && truthy (propOr v "sys")
  && strictEqStr (propOr (propOr v "sys") "type") "Link".

Fixpoint traverse (o : value) : list value :=
  let visit (v : value) (inner : list value) : list value :=
    if isLinkMarker v then [v]
    else if truthy v && (isPlainObject v || isArray v) then inner
    else [] in
  match o with
  | VObj properties =>
    (fix each (l : list (string * value)) : list value :=
       match l with
       | [] => []
       | (_, v) :: l' => visit v (traverse v) ++ each l'
       end) properties
  | VArr elements =>
    (fix each (l : list value) : list value :=
       match l with
       | [] => []
       | v :: l' => visit v (traverse v) ++ each l'
       end) elements
  | _ => []
  end.

(** *** Node creation: the collaborators and what both revisions share *)

(** The arguments of [createNodesForContentType] and [createAssetNodes]
    that are data. *)
Record Args : Type := {
  restrictedNodeFields : list string;
  conflictFieldPrefix : string;
  resolvable : gset string;
  foreignReferenceMap : gmap string (list ForeignReference);
  defaultLocale : string;
  locales : list Locale;
  space_id : string;
  useNameForId : bool;
  (** [pluginConfig.get(`enableTags`)] *)
  enableTags : bool
}.

(** What a call leaves behind: the nodes handed to [createNode], in call
    order, and the exception that ended the call, if any. *)
Record Outcome : Type := {
  created : list obj;
  thrown : option error
}.

(** [locales.forEach(body)], [body] giving the nodes it creates. *)
Fixpoint forEachLocale (body : Locale → result (list obj))
    (locales : list Locale) (created : list obj) : Outcome :=
  match locales with
  | [] => {| created := created; thrown := None |}
  | locale :: rest =>
    match body locale with
    | Ok nodes => forEachLocale body rest (created ++ nodes)
    | Throw e => {| created := created; thrown := Some e |}
    end
  end.

(** Gatsby's [createNodeId], [getNode] and [createContentDigest];
    [json-stringify-safe], [JSON.stringify], lodash's [upperFirst] and
    [camelCase]; the number of nested calls the engine allows. *)
Class Collaborators : Type := {
  createNodeId : string → string;
  getNode : string → value;
  createContentDigest : string → string;
  stringify : value → string;
  JSON_stringify : value → value;
  upperFirst : string → string;
  camelCase : string → string;
  callStackSize : nat
}.

Section Nodes.

Context `{Collaborators}.

Variable args : Args.

Definition makeTypeName (type : string) : string :=
  upperFirst (camelCase ("Contentful " +:+ type)).

(** [makeMakeId({ currentLocale, defaultLocale, createNodeId })] *)
Definition makeMakeId (currentLocale : string)
    (spaceId : string) (id type : value) : result string :=
  let* raw := makeId spaceId id currentLocale (defaultLocale args) type in
  Ok (createNodeId raw).

(** [makeGetLocalizedField({ locale, localesFallback })] *)
Definition makeGetLocalizedField (locale : Locale) (localesFallback : obj)
    (field : obj) : result value :=
  match getLocalizedField callStackSize field (VStr (code locale))
          localesFallback with
  | Some v => Ok v
  | None => Throw (RangeError "Maximum call stack size exceeded")
  end.

Definition contentTypeItemIdOf (contentTypeItem : ContentType) : string :=
  if useNameForId args then name contentTypeItem
  else contentType_id contentTypeItem.

(** The fields of the content type that carry a restricted name. *)
Definition conflictFieldsOf (contentTypeItem : ContentType) : list string :=
  filter (λ fieldName, fieldName ∈ restrictedNodeFields args)
    (field_id <$> contentType_fields contentTypeItem).

(** Get localized fields. *)
Definition localizeFields (contentTypeItem : ContentType) (locale : Locale)
    (localesFallback : obj) (entryItem : Item) : result obj :=
  mapE (λ '(k, v),
    match List.find (λ field, String.eqb (field_id field) k)
            (contentType_fields contentTypeItem) with
    | None =>
      Throw (TypeError "Cannot read properties of undefined (reading 'localized')")
    | Some fieldProps =>
      let* localizedField :=
        if localized fieldProps
        then makeGetLocalizedField locale localesFallback v
        else Ok (getV (defaultLocale args) v) in
      Ok (k, localizedField)
    end) (fields entryItem).

(** Prefix any conflicting fields. *)
Definition prefixConflictFields (conflictFields : list string)
    (entryItemFields : obj) : obj :=
  foldl (λ entryItemFields conflictField,
      delete conflictField
        (set (conflictFieldPrefix args +:+ conflictField)
           (getV conflictField entryItemFields) entryItemFields))
    entryItemFields conflictFields.

(** [mId(space.sys.id, v.sys.id, v.sys.linkType || v.sys.type)] *)
Definition linkNodeId (mId : string → value → value → result string)
    (v : value) : result string :=
  let* sysv := prop v "sys" in
  let* id := prop sysv "id" in
  let* type := linkTypeOrType sysv in
  mId (space_id args) id type.

Definition isResolvable (v : value) : result bool :=
  let* key := referenceKey v in
  Ok (bool_decide (key ∈ resolvable args)).

(** Add linkages to other nodes based on foreign references: the callback
    of [Object.keys(entryItemFields).forEach]. *)
Definition addLinkage (mId : string → value → value → result string)
    (entryItemFields : obj) (entryItemFieldKey : string) : result obj :=
  let entryItemFieldValue := getV entryItemFieldKey entryItemFields in
  if truthy entryItemFieldValue then
    match entryItemFieldValue with
    | VArr elements =>
      if looksLikeLink (head elements) then
        let* resolvableElements := filterE isResolvable elements in
        let* resolvableEntryItemFieldValue :=
          mapE (linkNodeId mId) resolvableElements in
        let entryItemFields :=
          if negb (length resolvableEntryItemFieldValue =? 0)%nat
          then set (entryItemFieldKey +:+ "___NODE")
                 (VArr (VStr <$> resolvableEntryItemFieldValue))
                 entryItemFields
          else entryItemFields in
        Ok (delete entryItemFieldKey entryItemFields)
      else Ok entryItemFields
    | _ =>
      if looksLikeLink entryItemFieldValue then
        let* isResolvable := isResolvable entryItemFieldValue in
        let* entryItemFields :=
          if isResolvable : bool then
            let* id := linkNodeId mId entryItemFieldValue in
            Ok (set (entryItemFieldKey +:+ "___NODE") (VStr id)
                  entryItemFields)
          else Ok entryItemFields in
        Ok (delete entryItemFieldKey entryItemFields)
      else Ok entryItemFields
    end
  else Ok entryItemFields.

Definition addLinkages (mId : string → value → value → result string)
    (entryItemFields : obj) : result obj :=
  foldlM (addLinkage mId) entryItemFields (keys entryItemFields).

(** Add reverse linkages: the callback of [foreignReferences.forEach]. *)
Definition addReverseLinkage (mId : string → value → value → result string)
    (entryItemFields : obj) (foreignReference : ForeignReference)
  : result obj :=
  let existingReference := getV (ref_name foreignReference) entryItemFields in
  if truthy existingReference then
    match existingReference with
    | VArr ids =>
      let* id := mId (ref_spaceId foreignReference)
                   (VStr (ref_id foreignReference))
                   (VStr (ref_type foreignReference)) in
      Ok (set (ref_name foreignReference) (VArr (ids ++ [VStr id]))
            entryItemFields)
    | _ => Ok entryItemFields
    end
  else
    let* id := mId (ref_spaceId foreignReference)
                 (VStr (ref_id foreignReference))
                 (VStr (ref_type foreignReference)) in
    Ok (set (ref_name foreignReference) (VArr [VStr id]) entryItemFields).

Definition addReverseLinkages (mId : string → value → value → result string)
    (entryItem : Item) (entryItemFields : obj) : result obj :=
  match foreignReferenceMap args
          !! (sys_id (sys entryItem) +:+ "___" +:+ sys_type (sys entryItem)) with
  | Some foreignReferences =>
    foldlM (addReverseLinkage mId) entryItemFields foreignReferences
  | None => Ok entryItemFields
  end.

(** [contentTypeItem.fields.find(f => (restricted ? prefix + f.id : f.id)
    === entryItemFieldKey).type] *)
Definition fieldTypeOf (contentTypeItem : ContentType)
    (entryItemFieldKey : string) : result string :=
  match List.find (λ f,
            String.eqb
              (if bool_decide (field_id f ∈ restrictedNodeFields args)
               then conflictFieldPrefix args +:+ field_id f
               else field_id f)
              entryItemFieldKey)
          (contentType_fields contentTypeItem) with
  | Some f => Ok (field_type f)
  | None =>
    Throw (TypeError "Cannot read properties of undefined (reading 'type')")
  end.

(** [prepareTextNode(id, node, key, text)] *)
Definition prepareTextNode (id : string) (node : obj) (key : string)
    (text : value) : obj :=
  let str := match text with VStr s => s | _ => ""%string end in
  [ ("id", VStr id);
    ("parent", getV "id" node);
    ("raw", VStr str);
    ("internal",
     VObj [ ("type", VStr "ContentfulNodeTypeText");
            ("mediaType", VStr "text/markdown");
            ("content", VStr str);
            ("contentDigest", getV "updatedAt" node) ]) ]%string.

(** The tags of an entry, when tag linking is on. *)
Definition linkTags (entryItem : Item) (entryNode : obj) : result obj :=
  if enableTags args then
    match metadata_tags entryItem with
    | Some tags =>
      Ok (set "metadata"
            (VObj [ ("tags___NODE",
                     VArr ((λ tag, VStr (createNodeId
                              ("ContentfulTag__" +:+ space_id args +:+ "__"
                               +:+ tag))) <$> tags)) ])
            entryNode)
    | None =>
      Throw (TypeError "Cannot read properties of undefined (reading 'tags')")
    end
  else Ok entryNode.

(** Create a node for each content type. *)
Definition contentTypeNodeOf (contentTypeItem : ContentType) : obj :=
  [ ("id", VStr (createNodeId (contentTypeItemIdOf contentTypeItem)));
    ("name", VStr (name contentTypeItem));
    ("displayField", displayField contentTypeItem);
    ("description", description contentTypeItem);
    ("internal",
     VObj [ ("type", VStr (makeTypeName "ContentType"));
            ("contentDigest",
             VStr (contentType_updatedAt contentTypeItem)) ]) ]%string.

(** *** The first revision: a companion [sys] node, all child node kinds *)

(** [prepareLocationNode(id, node, key, data)] *)
Definition prepareLocationNode (id : string) (node : obj) (key : string)
    (data : value) : result obj :=
  let* lat := prop data "lat" in
  let* lon := prop data "lon" in
  Ok [ ("id", VStr id);
       ("parent", getV "id" node);
       ("lat", lat);
       ("lon", lon);
       ("internal",
        VObj [ ("type", VStr "ContentfulNodeTypeLocation");
               ("contentDigest", getV "updatedAt" node) ]) ]%string.

(** [prepareJSONNode(id, node, key, content)]: the JSON node, and [node]
    after [node.children = node.children.concat([id])]. *)
Definition prepareJSONNode (id : string) (node : obj) (key : string)
    (content : value) : obj * obj :=
  let str := JSON_stringify content in
  let JSONNode :=
    set "internal"
      (VObj [ ("type", VStr "ContentfulNodeTypeJSON");
              ("mediaType", VStr "application/json");
              ("content", str);
              ("contentDigest", getV "updatedAt" node) ])
      (set "children" (VArr [])
         (set "parent" (getV "id" node)
            (set "id" (VStr id)
               (match content with
                | VObj properties => spread [] properties
                | _ => [("content", content)]
                end))))%string in
  let children :=
    match getV "children" node with
    | VArr ids => VArr (ids ++ [VStr id])
    | other => other
    end in
  (JSONNode, set "children" children node).

(** The loop state of the type-directed pass: the entry's fields, the
    entry node under construction and the child nodes collected so far. *)
Definition Building : Type := obj * obj * list obj.

(** One JSON child of an array-valued [Object] field. *)
Definition materializeElement (entryItem : Item) (entryNodeId : string)
    (entryItemFieldKey : string) (st : Building) (indexed : nat * value)
  : Building :=
  let '(entryItemFields, entryNode, childrenNodes) := st in
  let '(i, o) := indexed in
  let jsonNodeId :=
    createNodeId (entryNodeId +:+ entryItemFieldKey +:+ pretty i
                  +:+ "JSONNode") in
  let existingNode := getNode jsonNodeId in
  let '(entryNode, childrenNodes) :=
    if negb (strictEqStr (contentDigestOf existingNode)
               (sys_updatedAt (sys entryItem)))
    then
      let '(jsonNode, entryNode) :=
        prepareJSONNode jsonNodeId entryNode entryItemFieldKey o in
      (entryNode, childrenNodes ++ [jsonNode])
    else (entryNode, childrenNodes) in
  let pushed :=
    match getV (entryItemFieldKey +:+ "___NODE") entryItemFields with
    | VArr ids => VArr (ids ++ [VStr jsonNodeId])
    | other => other
    end in
  (set (entryItemFieldKey +:+ "___NODE") pushed entryItemFields,
   entryNode, childrenNodes).

(** Replace text fields with text nodes, and the like: the callback of the
    second [Object.keys(entryItemFields).forEach]. *)
Definition materializeField (contentTypeItem : ContentType)
    (mId : string → value → value → result string)
    (entryItem : Item) (entryNodeId : string)
    (st : Building) (entryItemFieldKey : string) : result Building :=
  let '(entryItemFields, entryNode, childrenNodes) := st in
  let updatedAt := sys_updatedAt (sys entryItem) in
  let nodeField := entryItemFieldKey +:+ "___NODE" in
  (* Ignore fields with "___node" as they're already handled *)
  if includes "___" entryItemFieldKey then Ok st else
  let* fieldType := fieldTypeOf contentTypeItem entryItemFieldKey in
  let fieldValue := getV entryItemFieldKey entryItemFields in
  if String.eqb fieldType "Text" then
    let textNodeId :=
      createNodeId (entryNodeId +:+ entryItemFieldKey +:+ "TextNode") in
    let existingNode := getNode textNodeId in
    let childrenNodes :=
      if negb (strictEqStr (contentDigestOf existingNode) updatedAt)
      then childrenNodes
             ++ [prepareTextNode textNodeId entryNode entryItemFieldKey
                   fieldValue]
      else childrenNodes in
    Ok (delete entryItemFieldKey
          (set nodeField (VStr textNodeId) entryItemFields),
        entryNode, childrenNodes)
  else if String.eqb fieldType "RichText" && isPlainObject fieldValue then
    (* Locate all Contentful Links within the rich text data *)
    let rawReferences := traverse fieldValue in
    (* Build up resolvable reference list *)
    let* resolvableReferences := filterE isResolvable rawReferences in
    let* ids := mapE (linkNodeId mId) resolvableReferences in
    let resolvableReferenceIds := uniq [] ids in
    let richTextNodeId :=
      createNodeId (entryNodeId +:+ "." +:+ entryItemFieldKey
                    +:+ ".richText") in
    let raw := stringify fieldValue in
    let richTextNode :=
      [ ("id", VStr richTextNodeId);
        ("raw", VStr raw);
        ("references___NODE", VArr (VStr <$> resolvableReferenceIds));
        ("internal",
         VObj [ ("type", VStr "ContentfulNodeTypeRichText");
                ("contentDigest", VStr (createContentDigest raw)) ]) ]%string in
    Ok (set nodeField (VStr richTextNodeId)
          (delete entryItemFieldKey entryItemFields),
        entryNode, childrenNodes ++ [richTextNode])
  else if String.eqb fieldType "Object" && isPlainObject fieldValue then
    let jsonNodeId :=
      createNodeId (entryNodeId +:+ entryItemFieldKey +:+ "JSONNode") in
    let existingNode := getNode jsonNodeId in
    let '(entryNode, childrenNodes) :=
      if negb (strictEqStr (contentDigestOf existingNode) updatedAt)
      then
        let '(jsonNode, entryNode) :=
          prepareJSONNode jsonNodeId entryNode entryItemFieldKey fieldValue in
        (entryNode, childrenNodes ++ [jsonNode])
      else (entryNode, childrenNodes) in
    Ok (delete entryItemFieldKey
          (set nodeField (VStr jsonNodeId) entryItemFields),
        entryNode, childrenNodes)
  else if String.eqb fieldType "Object" && isArray fieldValue then
    let elements :=
      match fieldValue with VArr elements => elements | _ => [] end in
    let '(entryItemFields, entryNode, childrenNodes) :=
      foldl (materializeElement entryItem entryNodeId entryItemFieldKey)
        (set nodeField (VArr []) entryItemFields, entryNode, childrenNodes)
        (imap (λ i o, (i, o)) elements) in
    Ok (delete entryItemFieldKey entryItemFields, entryNode, childrenNodes)
  else if String.eqb fieldType "Location" then
    let locationNodeId :=
      createNodeId (entryNodeId +:+ entryItemFieldKey +:+ "Location") in
    let existingNode := getNode locationNodeId in
    let* childrenNodes :=
      if negb (strictEqStr (contentDigestOf existingNode) updatedAt)
      then
        let* textNode :=
          prepareLocationNode locationNodeId entryNode entryItemFieldKey
            fieldValue in
        Ok (childrenNodes ++ [textNode])
      else Ok childrenNodes in
    Ok (delete entryItemFieldKey
          (set nodeField (VStr locationNodeId) entryItemFields),
        entryNode, childrenNodes)
  else Ok st.

(** [node.internal.contentDigest = digest] *)
Definition setContentDigest (digest : string) (node : obj) : obj :=
  match getV "internal" node with
  | VObj internal =>
    set "internal" (VObj (set "contentDigest" (VStr digest) internal)) node
  | _ => node
  end.

(** [sys.revision] and [sys.contentType___NODE], set when present. *)
Definition withRevisionAndContentType (contentTypeItem : ContentType)
    (itemSys : Sys) (sysv : obj) : obj :=
  let sysv :=
    match sys_revision itemSys with
    | Some revision =>
      if negb (revision =? 0) then set "revision" (VNum revision) sysv
      else sysv
    | None => sysv
    end in
  match sys_contentType itemSys with
  | Some _ =>
    set "contentType___NODE"
      (VStr (createNodeId (contentTypeItemIdOf contentTypeItem))) sysv
  | None => sysv
  end.

(** The callback of [entries.map]: the entry node, or [None] for the
    [null] of an unchanged entry, and the child nodes it pushes. *)
Definition entryNodeOf (contentTypeItem : ContentType) (locale : Locale)
    (localesFallback : obj) (conflictFields : list string) (entryItem : Item)
  : result (option obj * list obj) :=
  let mId := makeMakeId (code locale) in
  let contentTypeItemId := contentTypeItemIdOf contentTypeItem in
  let* entryNodeId :=
    mId (space_id args) (VStr (sys_id (sys entryItem)))
      (VStr (sys_type (sys entryItem))) in
  let existingNode := getNode entryNodeId in
  if strictEqStr (contentDigestOf existingNode) (sys_updatedAt (sys entryItem))
  then Ok (None, [])
  else
  let* entryItemFields :=
    localizeFields contentTypeItem locale localesFallback entryItem in
  let entryItemFields := prefixConflictFields conflictFields entryItemFields in
  let* entryItemFields := addLinkages mId entryItemFields in
  let* entryItemFields := addReverseLinkages mId entryItem entryItemFields in
  (* Create sys node *)
  let sysId := createNodeId (entryNodeId +:+ ".sys") in
  let sysNode :=
    withRevisionAndContentType contentTypeItem (sys entryItem)
      [ ("id", VStr sysId);
        ("type", VStr (sys_type (sys entryItem)));
        ("internal",
         VObj [ ("type", VStr "ContentfulSys");
                ("contentDigest", VStr (sys_updatedAt (sys entryItem))) ])
      ]%string in
  let childrenNodes := [sysNode] in
  (* Create actual entry node *)
  let entryNode :=
    [ ("id", VStr entryNodeId);
      ("spaceId", VStr (space_id args));
      ("contentful_id", VStr (sys_id (sys entryItem)));
      ("createdAt", VStr (sys_createdAt (sys entryItem)));
      ("updatedAt", VStr (sys_updatedAt (sys entryItem)));
      ("parent", VStr contentTypeItemId);
      ("children", VArr []);
      ("internal", VObj [ ("type", VStr (makeTypeName contentTypeItemId)) ]);
      ("sys___NODE", VStr sysId) ]%string in
  let* built :=
    foldlM (materializeField contentTypeItem mId entryItem entryNodeId)
      (entryItemFields, entryNode, childrenNodes) (keys entryItemFields) in
  let '(entryItemFields, entryNode, childrenNodes) := built in
  let entryNode :=
    set "node_locale" (VStr (code locale)) (spread entryItemFields entryNode) in
  let entryNode := setContentDigest (sys_updatedAt (sys entryItem)) entryNode in
  (* Link tags *)
  let* entryNode := linkTags entryItem entryNode in
  Ok (Some entryNode, childrenNodes).

(** The body of [locales.forEach]: the content type node, then the entry
    nodes, then the child nodes. *)
Definition nodesForLocale (contentTypeItem : ContentType)
    (entries : list Item) (locale : Locale) : result (list obj) :=
  let localesFallback := buildFallbackChain (locales args) in
  let conflictFields := conflictFieldsOf contentTypeItem in
  let* results :=
    mapE (entryNodeOf contentTypeItem locale localesFallback conflictFields)
      entries in
  let entryNodes := omap fst results in
  let childrenNodes := concat (snd <$> results) in
  Ok (contentTypeNodeOf contentTypeItem :: entryNodes ++ childrenNodes).

(** [exports.createNodesForContentType] *)
Definition createNodesForContentType (contentTypeItem : ContentType)
    (entries : list Item) : Outcome :=
  forEachLocale (nodesForLocale contentTypeItem entries) (locales args) [].

(** [exports.createAssetNodes]: the asset node of one locale. *)
Definition assetNodeOf (assetItem : Item) (locale : Locale) : result obj :=
  let localesFallback := buildFallbackChain (locales args) in
  let mId := makeMakeId (code locale) in
  let getField := makeGetLocalizedField locale localesFallback in
  let* id :=
    mId (space_id args) (VStr (sys_id (sys assetItem)))
      (VStr (sys_type (sys assetItem))) in
  let* file :=
    match lookupField "file" (fields assetItem) with
    | Some bag => getField bag
    | None => Ok VNull
    end in
  let* title :=
    match lookupField "title" (fields assetItem) with
    | Some bag => getField bag
    | None => Ok (VStr "")
    end in
  let* description :=
    match lookupField "description" (fields assetItem) with
    | Some bag => getField bag
    | None => Ok (VStr "")
    end in
  let sysv :=
    match sys_revision (sys assetItem) with
    | Some revision =>
      if negb (revision =? 0)%Z
      then [ ("type", VStr (sys_type (sys assetItem)));
             ("revision", VNum revision) ]
      else [ ("type", VStr (sys_type (sys assetItem))) ]
    | None => [ ("type", VStr (sys_type (sys assetItem))) ]
    end%string in
  Ok [ ("contentful_id", VStr (sys_id (sys assetItem)));
       ("spaceId", VStr (space_id args));
       ("id", VStr id);
       ("createdAt", VStr (sys_createdAt (sys assetItem)));
       ("updatedAt", VStr (sys_updatedAt (sys assetItem)));
       ("parent", VNull);
       ("children", VArr []);
       ("file", file);
       ("title", title);
       ("description", description);
       ("node_locale", VStr (code locale));
       ("internal",
        VObj [ ("type", VStr (makeTypeName "Asset"));
               ("contentDigest", VStr (sys_updatedAt (sys assetItem))) ]);
       ("sys", VObj sysv) ]%string.

Definition createAssetNodes (assetItem : Item) : Outcome :=
  forEachLocale
    (λ locale, let* assetNode := assetNodeOf assetItem locale in
               Ok [assetNode])
    (locales args) [].

(** *** The second revision: [sys] inlined, text child nodes only *)

(** The second [Object.keys(entryItemFields).forEach] of the second
    revision. *)
Definition materializeTextField (contentTypeItem : ContentType)
    (entryItem : Item) (entryNodeId : string)
    (st : Building) (entryItemFieldKey : string) : result Building :=
  let '(entryItemFields, entryNode, childrenNodes) := st in
  let updatedAt := sys_updatedAt (sys entryItem) in
  if includes "___" entryItemFieldKey then Ok st else
  let* fieldType := fieldTypeOf contentTypeItem entryItemFieldKey in
  if String.eqb fieldType "Text" then
    let textNodeId :=
      createNodeId (entryNodeId +:+ entryItemFieldKey +:+ "TextNode") in
    let existingNode := getNode textNodeId in
    let childrenNodes :=
      if negb (strictEqStr (contentDigestOf existingNode) updatedAt)
      then childrenNodes
             ++ [prepareTextNode textNodeId entryNode entryItemFieldKey
                   (getV entryItemFieldKey entryItemFields)]
      else childrenNodes in
    Ok (delete entryItemFieldKey
          (set (entryItemFieldKey +:+ "___NODE") (VStr textNodeId)
             entryItemFields),
        entryNode, childrenNodes)
  else Ok st.

Definition entryNodeOf2 (contentTypeItem : ContentType) (locale : Locale)
    (localesFallback : obj) (conflictFields : list string) (entryItem : Item)
  : result (option obj * list obj) :=
  let mId := makeMakeId (code locale) in
  let contentTypeItemId := contentTypeItemIdOf contentTypeItem in
  let* entryNodeId :=
    mId (space_id args) (VStr (sys_id (sys entryItem)))
      (VStr (sys_type (sys entryItem))) in
  let existingNode := getNode entryNodeId in
  if strictEqStr (contentDigestOf existingNode) (sys_updatedAt (sys entryItem))
  then Ok (None, [])
  else
  let* entryItemFields :=
    localizeFields contentTypeItem locale localesFallback entryItem in
  let entryItemFields := prefixConflictFields conflictFields entryItemFields in
  let* entryItemFields := addLinkages mId entryItemFields in
  let* entryItemFields := addReverseLinkages mId entryItem entryItemFields in
  let sysv :=
    withRevisionAndContentType contentTypeItem (sys entryItem)
      [ ("type", VStr (sys_type (sys entryItem))) ]%string in
  (* Create actual entry node *)
  let entryNode :=
    [ ("id", VStr entryNodeId);
      ("spaceId", VStr (space_id args));
      ("contentful_id", VStr (sys_id (sys entryItem)));
      ("createdAt", VStr (sys_createdAt (sys entryItem)));
      ("updatedAt", VStr (sys_updatedAt (sys entryItem)));
      ("parent", VStr contentTypeItemId);
      ("children", VArr []);
      ("internal",
       VObj [ ("type", VStr (makeTypeName contentTypeItemId));
              ("contentDigest", VStr (sys_updatedAt (sys entryItem))) ]);
      ("sys", VObj sysv) ]%string in
  let* built :=
    foldlM (materializeTextField contentTypeItem entryItem entryNodeId)
      (entryItemFields, entryNode, []) (keys entryItemFields) in
  let '(entryItemFields, entryNode, childrenNodes) := built in
  let entryNode :=
    set "node_locale" (VStr (code locale)) (spread entryItemFields entryNode) in
  (* Link tags *)
  let* entryNode := linkTags entryItem entryNode in
  Ok (Some entryNode, childrenNodes).

Definition nodesForLocale2 (contentTypeItem : ContentType)
    (entries : list Item) (locale : Locale) : result (list obj) :=
  let localesFallback := buildFallbackChain (locales args) in
  let conflictFields := conflictFieldsOf contentTypeItem in
  let* results :=
    mapE (entryNodeOf2 contentTypeItem locale localesFallback conflictFields)
      entries in
  let entryNodes := omap fst results in
  let childrenNodes := concat (snd <$> results) in
  Ok (contentTypeNodeOf contentTypeItem :: entryNodes ++ childrenNodes).

(** [exports.createNodesForContentType], second revision. *)
Definition createNodesForContentType2 (contentTypeItem : ContentType)
    (entries : list Item) : Outcome :=
  forEachLocale (nodesForLocale2 contentTypeItem entries) (locales args) [].

(** [exports.createAssetNodes], second revision.  Its last statement is
    [assetNode.internal.createNodePromises.push(createNode(assetNode))]:
    the callee is looked up on [assetNode.internal], and the argument
    [createNode(assetNode)] is evaluated only once the callee is found. *)
Definition assetNodeOf2 (assetItem : Item) (locale : Locale)
  : result (list obj) :=
  let* assetNode := assetNodeOf assetItem locale in
  let* createNodePromises :=
    prop (getV "internal" assetNode) "createNodePromises" in
  let* push := prop createNodePromises "push" in
  (* no property of a node is a function *)
  Throw (TypeError
           ("assetNode.internal.createNodePromises.push is not a function: "
            +:+ toString push)).

Definition createAssetNodes2 (assetItem : Item) : Outcome :=
  forEachLocale (assetNodeOf2 assetItem) (locales args) [].

End Nodes.

End Normalize.

(** ** What the specification asks of the image engine *)

Module ImageSpec.
Import JsNum ExtendNodeType.

(** A candidate width stays within the source image and the API limit. *)
Definition withinLimits (sourceWidth : Z) (size : num) : Prop :=
  le size (ofZ sourceWidth) ∧ le size CONTENTFUL_IMAGE_MAX_SIZE.

(** The widths of a [srcSet], in the order of the string. *)
Definition widthsOf (srcSet : list Candidate) : list num := size <$> srcSet.

Definition srcSetOk (sourceWidth : Z) (srcSet : list Candidate) : Prop :=
  Forall (withinLimits sourceWidth) (widthsOf srcSet)
  ∧ StronglySorted le (widthsOf srcSet).

(** [resizingBehavior] was assigned by the resolver, not by the caller. *)
Definition forced (before after : Options) : Prop :=
  resizingBehavior after ≠ resizingBehavior before.

(** A JPEG of 800 by 600 pixels, and a request without any argument. *)
Definition sampleImage : Image :=
  {| file := Some {| url := "//images.ctfassets.net/space/photo.jpg";
                     contentType := "image/jpeg";
                     fileName := "photo.jpg";
                     details_image_width := 800;
                     details_image_height := 600 |} |}.

Definition sampleFile : File :=
  {| url := "//images.ctfassets.net/space/photo.jpg";
     contentType := "image/jpeg";
     fileName := "photo.jpg";
     details_image_width := 800;
     details_image_height := 600 |}.

Definition noOptions : Options :=
  {| width := None; height := None; maxWidth := None; maxHeight := None;
     quality := None; toFormat := None; jpegProgressive := None;
     resizingBehavior := None; cropFocus := None; background := None;
     sizes := None |}.

(** A candidate asks for its own width and for the height that goes with
    it at the aspect ratio [ratio], and that height is at most the API
    limit. *)
Definition candidateOk (ratio : num) (c : Candidate) : Prop :=
  w (candidateUrl c) = orUndefinedNum (Some (size c))
  ∧ h (candidateUrl c) = orUndefinedNum (Some (round (div (size c) ratio)))
  ∧ le (round (div (size c) ratio)) CONTENTFUL_IMAGE_MAX_SIZE.

(** [u] is the request [v] in WebP: the same target, size, quality, fit,
    focus and background, with the format [webp] and no [progressive]
    flag. *)
Definition webpOf (v u : Url) : Prop :=
  target u = target v ∧ w u = w v ∧ h u = h v ∧ q u = q v
  ∧ fit u = fit v ∧ f u = f v ∧ bg u = bg v
  ∧ fm u = Some "webp"%string ∧ fl u = None.

(** A [srcSet] in WebP: candidate by candidate the same width and
    descriptor, and the request in WebP. *)
Definition webpSrcSetOf (srcSet webpSrcSet : list Candidate) : Prop :=
  Forall2 (λ c' c,
      size c' = size c ∧ descriptor c' = descriptor c
      ∧ webpOf (candidateUrl c) (candidateUrl c'))
    webpSrcSet srcSet.

(** A candidate of the same size and descriptor as [c] whose request is
    that of [c] for the format [format]. *)
Definition reformatted (imgUrl : string) (format : option string)
    (c' c : Candidate) : Prop :=
  size c' = size c ∧ descriptor c' = descriptor c
  ∧ ∃ o, candidateUrl c = createUrl imgUrl o
         ∧ candidateUrl c' = createUrl imgUrl (set_toFormat format o).

End ImageSpec.

(** ** What the specification asks of the placeholder cache *)

Module CacheSpec.
Import ExtendNodeType.

(** The resolved map holds truthy bodies only, and a fetch that is still
    pending is the one registered in flight for its URL, which has no
    resolved body yet. *)
Definition consistent (st : Caches) : Prop :=
  (∀ url body, resolvedBase64Cache st !! url = Some body → body ≠ ""%string)
  ∧ (∀ n url, fetches st !! n = Some (url, Pending) →
        inFlightBase64Cache st !! url = Some (LoadImage n)
        ∧ resolvedBase64Cache st !! url = None).

(** "The URL is evicted from in-flight state so a subsequent call
    retries": after fetch [n] failed, the URL is in neither map and the
    next call for it dispatches a fetch. *)
Definition evictedAndRetried (renderUrl : Url → string) (st : Caches)
    (imageProps : ImageProps) (n : nat) (reason : string) : Prop :=
  let requestUrl := requestUrlOf renderUrl (imageProps_baseUrl imageProps) in
  let failed := settle n (inr reason) st in
  inFlightBase64Cache failed !! requestUrl = None
  ∧ resolvedBase64Cache failed !! requestUrl = None
  ∧ length (fetches (getBase64Image renderUrl (Some imageProps) failed).2)
    = S (length (fetches failed)).

(** A rendering of the placeholder request, and a sample asset URL. *)
Definition sampleRender (u : Url) : string := target u +:+ "?w=20&fm=jpg".

Definition sampleProps : ImageProps :=
  {| imageProps_baseUrl := "//images.ctfassets.net/space/photo.jpg" |}.

Definition sampleRequestUrl : string :=
  "https://images.ctfassets.net/space/photo.jpg?w=20&fm=jpg".

(** The module after one request for the sample. *)
Definition afterFirstCall : Caches :=
  (getBase64Image sampleRender (Some sampleProps) noCaches).2.

(** Every fetch is accounted for: the body of one that was fulfilled is in
    the resolved map, any other is the promise in flight for its URL; the
    resolved map holds truthy bodies only, and no URL was fetched twice. *)
Definition accounted (st : Caches) : Prop :=
  (∀ url body, resolvedBase64Cache st !! url = Some body → body ≠ ""%string)
  ∧ (∀ n url s, fetches st !! n = Some (url, s) →
        match s with
        | Fulfilled body => resolvedBase64Cache st !! url = Some body
        | _ => inFlightBase64Cache st !! url = Some (LoadImage n)
        end)
  ∧ NoDup (fetches st).*1.

(** [url] is the placeholder request of an asset on the image API. *)
Definition placeholderRequest (renderUrl : Url → string) (url : string)
  : Prop :=
  ∃ baseUrl,
    String.index 0 "images.ctfassets.net" baseUrl ≠ None
    ∧ url = requestUrlOf renderUrl baseUrl.

End CacheSpec.

(** ** What the specification asks of the normalizer *)

Module NormalizeSpec.
Import Js Normalize.

(** *** Locale fallback *)

(** The property key a locale code is looked up under, and the key the
    fallback table sends it to. *)
Definition nextKey (localesFallback : obj) (k : string) : option string :=
  match getV k localesFallback with
  | VUndefined => None
  | fallback => Some (toString fallback)
  end.

(** No locale is its own fallback, directly or through other locales. *)
Definition acyclic (localesFallback : obj) : Prop :=
  ∀ k, ¬ tc (λ k k', nextKey localesFallback k = Some k') k k.




(** German falls back on English, English on nothing. *)
Definition sampleLocales : list Locale :=
  [ {| code := "en"; fallbackCode := VNull; isDefault := true |};
    {| code := "de"; fallbackCode := VStr "en"; isDefault := false |} ].

(** *** Sample data: a blog in English and German *)

(** An empty store, node ids that are the raw ids, call depth 100. *)
Definition sampleCollaborators : Collaborators :=
  {| createNodeId := λ raw, raw;
     getNode := λ _, VUndefined;
     createContentDigest := λ raw, "digest of " +:+ raw;
     stringify := λ _, "{}"%string;
     JSON_stringify := λ _, VStr "{}";
     upperFirst := λ s, s;
     camelCase := λ s, s;
     callStackSize := 100 |}.

(** A store in which every node carries the digest [2021-03-01]. *)
Definition syncedCollaborators : Collaborators :=
  {| createNodeId := λ raw, raw;
     getNode := λ _,
       VObj [("internal", VObj [("contentDigest", VStr "2021-03-01")])];
     createContentDigest := λ raw, "digest of " +:+ raw;
     stringify := λ _, "{}"%string;
     JSON_stringify := λ _, VStr "{}";
     upperFirst := λ s, s;
     camelCase := λ s, s;
     callStackSize := 100 |}.

Definition linkTo (linkType id : string) : value :=
  VObj [("sys", VObj [("type", VStr "Link"); ("linkType", VStr linkType);
                      ("id", VStr id)])].

Definition postType : ContentType :=
  {| name := "Post"; contentType_id := "post";
     contentType_updatedAt := "2021-01-01";
     displayField := VStr "title"; description := VNull;
     contentType_fields :=
       [ {| field_id := "title"; field_type := "Symbol"; localized := true |};
         {| field_id := "spaceId"; field_type := "Symbol";
            localized := false |};
         {| field_id := "author"; field_type := "Link"; localized := false |};
         {| field_id := "related"; field_type := "Array";
            localized := false |} ] |}.

Definition authorType : ContentType :=
  {| name := "Author"; contentType_id := "author";
     contentType_updatedAt := "2021-01-02";
     displayField := VStr "name"; description := VNull;
     contentType_fields :=
       [ {| field_id := "name"; field_type := "Symbol"; localized := false |} ]
  |}.

Definition entrySys (id contentType : string) : Sys :=
  {| sys_id := id; sys_type := "Entry"; sys_createdAt := "2021-02-01";
     sys_updatedAt := "2021-03-01"; sys_revision := Some 1%Z;
     sys_contentType := Some contentType |}.

(** Two posts by the same author; the first also links to a post that is
    not part of the sync. *)
Definition post1 : Item :=
  {| sys := entrySys "post1" "post";
     fields :=
       [ ("title", [("en", VStr "Hello")]);
         ("spaceId", [("en", VStr "not the space")]);
         ("author", [("en", linkTo "Entry" "author1")]);
         ("related", [("en", VArr [linkTo "Entry" "post2";
                                   linkTo "Entry" "gone"])]) ];
     metadata_tags := Some [] |}.

Definition post2 : Item :=
  {| sys := entrySys "post2" "post";
     fields :=
       [ ("title", [("en", VStr "World")]);
         ("author", [("en", linkTo "Entry" "author1")]) ];
     metadata_tags := Some [] |}.

Definition author1 : Item :=
  {| sys := entrySys "author1" "author";
     fields := [ ("name", [("en", VStr "Ada")]) ];
     metadata_tags := Some [] |}.

Definition photo : Item :=
  {| sys := {| sys_id := "photo"; sys_type := "Asset";
               sys_createdAt := "2021-02-01"; sys_updatedAt := "2021-03-01";
               sys_revision := Some 2%Z; sys_contentType := None |};
     fields :=
       [ ("title", [("en", VStr "A photo")]);
         ("file", [("en", VObj [("url", VStr "//images.ctfassets.net/p.jpg")])]) ];
     metadata_tags := None |}.

Definition sampleEntryList : list (list Item) := [[post1; post2]; [author1]].

Definition sampleResolvable : gset string :=
  buildResolvableSet sampleEntryList [] [photo].

Definition sampleArgs : Args :=
  {| restrictedNodeFields := ["id"; "children"; "parent"; "fields"; "internal"];
     conflictFieldPrefix := "contentful";
     resolvable := sampleResolvable;
     foreignReferenceMap :=
       match buildForeignReferenceMap sampleResolvable "en" "space" true
               [postType; authorType] sampleEntryList with
       | Ok m => m
       | Throw _ => ∅
       end;
     defaultLocale := "en";
     locales := sampleLocales;
     space_id := "space";
     useNameForId := true;
     enableTags := false |}.

(** *** Raw links *)

(** A raw link value: a link, or an array whose first element is one. *)
Definition isRawLink (v : value) : bool :=
  match v with
  | VArr elements => looksLikeLink (head elements)
  | _ => looksLikeLink v
  end.


(** *** Core attributes of an entry node *)

(** The attributes [createNodesForContentType] itself gives an entry
    node: [children] lists ids of child nodes created with it, [internal]
    is the type and digest, and the [sys] linkage is stored under
    [sysKey]. *)
Record CoreAttributes : Type := {
  core_id : string;
  core_spaceId : string;
  core_contentful_id : string;
  core_createdAt : string;
  core_updatedAt : string;
  core_parent : string;
  core_internal_type : string;
  core_sysKey : string;
  core_sys : value
}.

Definition hasCoreAttributes (core : CoreAttributes)
    (node : obj) (childrenNodes : list obj) : Prop :=
  get "id" node = Some (VStr (core_id core))
  ∧ get "spaceId" node = Some (VStr (core_spaceId core))
  ∧ get "contentful_id" node = Some (VStr (core_contentful_id core))
  ∧ get "createdAt" node = Some (VStr (core_createdAt core))
  ∧ get "updatedAt" node = Some (VStr (core_updatedAt core))
  ∧ get "parent" node = Some (VStr (core_parent core))
  ∧ (∃ ids, get "children" node = Some (VArr ids)
       ∧ ∀ id, id ∈ ids →
           ∃ child, child ∈ childrenNodes ∧ get "id" child = Some id)
  ∧ get "internal" node
    = Some (VObj [ ("type", VStr (core_internal_type core));
                   ("contentDigest", VStr (core_updatedAt core)) ])
  ∧ get (core_sysKey core) node = Some (core_sys core).

(** The node under construction keeps the core attributes it started
    with, except that [children] grows by ids of child nodes. *)
Definition keepsCore (core : obj) (node : obj) (childrenNodes : list obj)
  : Prop :=
  keys node = keys core
  ∧ (∀ k, k ≠ "children"%string → get k node = get k core)
  ∧ ∃ ids, get "children" node = Some (VArr ids)
      ∧ isRawLink (VArr ids) = false
      ∧ ∀ id, id ∈ ids →
          ∃ child, child ∈ childrenNodes ∧ get "id" child = Some id.

(** A post whose fields carry the names of core attributes. *)
Definition shadowingType : ContentType :=
  {| name := "Post"; contentType_id := "post";
     contentType_updatedAt := "2021-01-01";
     displayField := VStr "title"; description := VNull;
     contentType_fields :=
       [ {| field_id := "spaceId"; field_type := "Symbol";
            localized := false |};
         {| field_id := "updatedAt"; field_type := "Symbol";
            localized := false |};
         {| field_id := "sys"; field_type := "Symbol"; localized := false |}
       ] |}.

Definition shadowingPost : Item :=
  {| sys := entrySys "post3" "post";
     fields :=
       [ ("spaceId", [("en", VStr "not the space")]);
         ("updatedAt", [("en", VStr "1999-12-31")]);
         ("sys", [("en", VStr "not the sys")]) ];
     metadata_tags := Some [] |}.

Definition english : Locale :=
  {| code := "en"; fallbackCode := VNull; isDefault := true |}.

(** *** Forward references *)

Section ForwardReferences.

Context `{Collaborators}.
Variable args : Args.
Variable mId : string → value → value → result string.




End ForwardReferences.

(** *** Reverse references *)

Section ReverseReferences.

Variable resolvable : gset string.
Variable defaultLocale : string.
Variable spaceId : string.
Variable useNameForId : bool.





End ReverseReferences.







(** The localized fields of a post with a resolvable author, one
    resolvable and one dangling related post, and dangling links only
    under [orphans]. *)
Definition sampleFields : obj :=
  [ ("title", VStr "Hello");
    ("author", linkTo "Entry" "author1");
    ("related", VArr [linkTo "Entry" "post2"; linkTo "Entry" "gone"]);
    ("orphans", VArr [linkTo "Entry" "gone"]) ].

Definition sampleMId : string → value → value → result string :=
  @makeMakeId sampleCollaborators sampleArgs "en".



(** *** Sample data: an article with a rich text body *)

Definition articleType : ContentType :=
  {| name := "Article"; contentType_id := "article";
     contentType_updatedAt := "2021-01-03";
     displayField := VStr "body"; description := VNull;
     contentType_fields :=
       [ {| field_id := "body"; field_type := "RichText"; localized := false |};
         {| field_id := "teaser"; field_type := "Text"; localized := false |};
         {| field_id := "place"; field_type := "Location";
            localized := false |};
         {| field_id := "meta"; field_type := "Object"; localized := false |} ]
  |}.

Definition embedded (id : string) : value :=
  VObj [ ("nodeType", VStr "embedded-entry-block");
         ("data",
          VObj [ ("target",
                  VObj [ ("sys",
                          VObj [ ("id", VStr id); ("type", VStr "Link");
                                 ("linkType", VStr "Entry") ]) ]) ]) ].

(** A document that embeds the second post twice and an entry that is not
    part of the sync. *)
Definition sampleDocument : obj :=
  [ ("nodeType", VStr "document");
    ("content", VArr [embedded "post2"; embedded "gone"; embedded "post2"]) ].

Definition article1 : Item :=
  {| sys := entrySys "article1" "article";
     fields :=
       [ ("body", [("en", VObj sampleDocument)]);
         ("teaser", [("en", VStr "Read this")]);
         ("place", [("en", VObj [("lat", VNum 52); ("lon", VNum 13)])]);
         ("meta", [("en", VObj [("id", VStr "mine"); ("pages", VNum 3)])]) ];
     metadata_tags := Some [] |}.

(** The digest of a child node is that of its entry; that of a rich text
    node is the digest of its raw text. *)
Definition childDigest `{Collaborators} (updatedAt : string) (child : obj)
  : Prop :=
  contentDigestOf (VObj child) = VStr updatedAt
  ∨ ∃ raw, get "raw" child = Some (VStr raw)
           ∧ propOr (propOr (VObj child) "internal") "type"
             = VStr "ContentfulNodeTypeRichText"
           ∧ contentDigestOf (VObj child) = VStr (createContentDigest raw).

(** [child] is the text node of a [Text] field of the entry node
    [entryNodeId]. *)
Definition textNodeOf `{Collaborators} (args : Args)
    (contentTypeItem : ContentType) (entryNodeId updatedAt : string)
    (child : obj) : Prop :=
  get "parent" child = Some (VStr entryNodeId)
  ∧ propOr (propOr (VObj child) "internal") "type"
    = VStr "ContentfulNodeTypeText"
  ∧ contentDigestOf (VObj child) = VStr updatedAt
  ∧ ∃ key,
      fieldTypeOf args contentTypeItem key = Ok "Text"%string
      ∧ get "id" child
        = Some (VStr (createNodeId (entryNodeId +:+ key +:+ "TextNode"))).

(** The asset node of a locale: its locale, ids and digest, and the
    defaults of the fields the asset does not have. *)
Definition assetNodeFor `{Collaborators} (args : Args) (assetItem : Item)
    (locale : Locale) (node : obj) : Prop :=
  get "node_locale" node = Some (VStr (code locale))
  ∧ get "contentful_id" node = Some (VStr (sys_id (sys assetItem)))
  ∧ (∃ id, makeMakeId args (code locale) (space_id args)
             (VStr (sys_id (sys assetItem))) (VStr (sys_type (sys assetItem)))
           = Ok id
           ∧ get "id" node = Some (VStr id))
  ∧ contentDigestOf (VObj node) = VStr (sys_updatedAt (sys assetItem))
  ∧ (lookupField "file" (fields assetItem) = None →
     get "file" node = Some VNull)
  ∧ (lookupField "title" (fields assetItem) = None →
     get "title" node = Some (VStr ""))
  ∧ (lookupField "description" (fields assetItem) = None →
     get "description" node = Some (VStr "")).

End NormalizeSpec.
(** * Properties *)

(** ** Image derivatives *)

Module ImageFacts.
Import JsNum ExtendNodeType ImageSpec.

(** *** The order on numbers *)

Lemma leb_refl_Fin q : leb (Fin q) (Fin q) = true.
Proof. simpl. apply Qle_bool_iff, Qle_refl. Qed.

Lemma leb_not_NaN_l a b : leb a b = true → isNaN a = false.
Proof. by destruct a. Qed.

Lemma leb_total a b :
  isNaN a = false → isNaN b = false → leb a b = false → leb b a = true.
Proof.
  destruct a as [x| | |], b as [y| | |]; simpl; try done.
  intros _ _ H. apply Qle_bool_iff.
  destruct (Qlt_le_dec y x) as [Hlt|Hle].
  - by apply Qlt_le_weak.
  - apply Qle_bool_iff in Hle. congruence.
Qed.

Lemma leb_trans a b c : leb a b = true → leb b c = true → leb a c = true.
Proof.
  destruct a as [x| | |], b as [y| | |], c as [z| | |]; simpl; try done.
  rewrite !Qle_bool_iff. apply Qle_trans.
Qed.

Lemma ltb_leb a b : ltb a b = true → leb a b = true.
Proof.
  destruct a as [x| | |], b as [y| | |]; simpl; try done.
  intros H. apply Qle_bool_iff.
  destruct (Qlt_le_dec x y) as [Hlt|Hle].
  - by apply Qlt_le_weak.
  - apply Qle_bool_iff in Hle. rewrite Hle in H. done.
Qed.

(** *** [sortBy] sorts, and keeps what holds of every element *)

Lemma insertAscending_Forall (P : num → Prop) x l :
  P x → Forall P l → Forall P (insertAscending x l).
Proof.
  intros Hx. induction 1 as [|y l Hy Hl IH]; simpl.
  - by constructor.
  - destruct (leb x y); repeat constructor; auto.
Qed.

Lemma sortBy_Forall (P : num → Prop) l : Forall P l → Forall P (sortBy l).
Proof.
  induction 1 as [|x l Hx Hl IH]; simpl; [constructor|].
  by apply insertAscending_Forall.
Qed.

Lemma insertAscending_sorted x l :
  isNaN x = false → Forall (λ y, isNaN y = false) l →
  StronglySorted le l → StronglySorted le (insertAscending x l).
Proof.
  intros Hx Hl Hs. induction Hs as [|y l Hs IH Hy]; simpl.
  - repeat constructor.
  - inversion_clear Hl as [|? ? Hny Hnl].
    destruct (leb x y) eqn:Hxy.
    + constructor; [by constructor|].
      constructor; [done|].
      eapply Forall_impl; [exact Hy|].
      intros z Hz. by eapply leb_trans.
    + constructor; [by apply IH|].
      apply insertAscending_Forall; [|done].
      by apply leb_total.
Qed.

Lemma sortBy_sorted l :
  Forall (λ y, isNaN y = false) l → StronglySorted le (sortBy l).
Proof.
  induction 1 as [|x l Hx Hl IH]; simpl; [constructor|].
  apply insertAscending_sorted; [done| |done].
  by apply sortBy_Forall.
Qed.

Lemma withinLimits_not_NaN sourceWidth l :
  Forall (withinLimits sourceWidth) l → Forall (λ y, isNaN y = false) l.
Proof.
  intros H. eapply Forall_impl; [exact H|].
  intros y [Hy _]. by eapply leb_not_NaN_l.
Qed.

Lemma filtered_withinLimits sourceWidth (ratio : num) l :
  Forall (withinLimits sourceWidth)
    (filter (λ size,
       Is_true (leb size CONTENTFUL_IMAGE_MAX_SIZE
                && leb (round (div size ratio)) CONTENTFUL_IMAGE_MAX_SIZE
                && leb size (ofZ sourceWidth))) l).
Proof.
  apply list.Forall_forall. intros y Hy.
  apply list_elem_of_filter in Hy as [Hy _].
  apply Is_true_true in Hy.
  apply andb_true_iff in Hy as [Hy H3].
  apply andb_true_iff in Hy as [H1 _].
  by split.
Qed.

Lemma fmap_size_imap (u : nat → num → Url) (d : nat → num → Descriptor) l :
  size <$> imap (λ i s, {| size := s; candidateUrl := u i s;
                           descriptor := d i s |}) l = l.
Proof.
  revert u d. induction l as [|x l IH]; intros u d; [done|].
  simpl. f_equal. apply (IH (λ i, u (S i)) (λ i, d (S i))).
Qed.

Lemma fmap_size_map (u : num → Url) (d : num → Descriptor) l :
  size <$> map (λ s, {| size := s; candidateUrl := u s;
                        descriptor := d s |}) l = l.
Proof. induction l as [|x l IH]; [done|]. simpl. by f_equal. Qed.

Lemma sorted_sizes_ok sourceWidth l :
  Forall (withinLimits sourceWidth) l →
  Forall (withinLimits sourceWidth) (sortBy l) ∧ StronglySorted le (sortBy l).
Proof.
  intros H. split; [by apply sortBy_Forall|].
  by eapply sortBy_sorted, withinLimits_not_NaN.
Qed.

Lemma resolveFixed_srcSet image options fl_ :
  file image = Some fl_ → isImage image = true →
  ∃ fixed, (resolveFixed image options).1 = Some fixed
           ∧ srcSetOk (details_image_width fl_) (fixed_srcSet fixed).
Proof.
  intros Hfile Himage. unfold resolveFixed. rewrite Hfile, Himage.
  cbv zeta. cbn [negb].
  match goal with
  | |- context [if truthyNum ?x then _ else _] => destruct (truthyNum x)
  end; (eexists; split; [reflexivity|]);
  unfold srcSetOk, widthsOf; cbn [fixed_srcSet];
  rewrite fmap_size_imap; apply sorted_sizes_ok, filtered_withinLimits.
Qed.

Lemma resolveFluid_srcSet showNum image options fl_ :
  file image = Some fl_ → isImage image = true →
  ∃ fluid, (resolveFluid showNum image options).1 = Some fluid
           ∧ srcSetOk (details_image_width fl_) (fluid_srcSet fluid).
Proof.
  intros Hfile Himage. unfold resolveFluid. rewrite Hfile, Himage.
  cbv zeta. cbn [negb].
  eexists; split; [reflexivity|].
  unfold srcSetOk, widthsOf; cbn [fluid_srcSet].
  rewrite fmap_size_map. apply sorted_sizes_ok.
  match goal with
  | |- context [if ?c then _ else _] => destruct c eqn:Hc
  end; [|apply filtered_withinLimits].
  apply Forall_app. split; [apply filtered_withinLimits|].
  apply andb_true_iff in Hc as [Hc _].
  apply andb_true_iff in Hc as [_ Hc].
  repeat constructor.
  - apply leb_refl_Fin.
  - by apply ltb_leb.
Qed.

(** C7. For a raster asset, [resolveFixed] and [resolveFluid] return a
    result, every candidate width of its [srcSet] is at most the width of
    the source image and at most 4000, and the candidates come in ascending
    order of width. *)
Theorem srcSet_widths_bounded_and_ascending
    (showNum : num → string) image options fl_ :
  file image = Some fl_ → isImage image = true →
  ∃ fixed fluid,
    (resolveFixed image options).1 = Some fixed
    ∧ (resolveFluid showNum image options).1 = Some fluid
    ∧ srcSetOk (details_image_width fl_) (fixed_srcSet fixed)
    ∧ srcSetOk (details_image_width fl_) (fluid_srcSet fluid).
Proof.
  intros Hfile Himage.
  destruct (resolveFixed_srcSet image options fl_ Hfile Himage)
    as (fixed & Hfixed & Hok1).
  destruct (resolveFluid_srcSet showNum image options fl_ Hfile Himage)
    as (fluid & Hfluid & Hok2).
  by exists fixed, fluid.
Qed.

Lemma srcSet_widths_bounded_and_ascending_witness :
  file sampleImage = Some sampleFile ∧ isImage sampleImage = true
  ∧ ∃ fixed fluid,
      (resolveFixed sampleImage (set_width (Some (ofZ 300)) noOptions)).1
        = Some fixed
      ∧ (resolveFluid (λ _, "300"%string) sampleImage
           (set_width (Some (ofZ 300)) noOptions)).1 = Some fluid
      ∧ srcSetOk 800 (fixed_srcSet fixed)
      ∧ srcSetOk 800 (fluid_srcSet fluid).
Proof.
  split; [reflexivity|]. split; [reflexivity|].
  apply (srcSet_widths_bounded_and_ascending (λ _, "300"%string) sampleImage
           (set_width (Some (ofZ 300)) noOptions) sampleFile);
    reflexivity.
Defined.

(** *** Where [resizingBehavior] is defaulted *)

(** Case analysis on the test that picks the reported height and width. *)
Ltac picked_cases :=
  repeat match goal with
         | |- context [if ?c then (_, _) else _] => destruct c
         end.

(** [resolveResize] assigns [resizingBehavior] only to a request that
    names both a width and a height. *)
Lemma resolveResize_forced_only_when_both image options :
  forced options (resolveResize image options).2 →
  is_Some (width options) ∧ is_Some (height options).
Proof.
  unfold forced, resolveResize.
  destruct (file image) as [fl_|]; [|done].
  destruct (negb (isImage image)); [done|].
  cbv zeta. cbn [snd].
  destruct (width options) as [ww|] eqn:Hw, (height options) as [hh|] eqn:Hh;
    cbn; rewrite ?Hw, ?Hh; cbn; done.
Qed.

(** [resolveFluid] never assigns [resizingBehavior]. *)
Lemma resolveFluid_never_forced showNum image options :
  ¬ forced options (resolveFluid showNum image options).2.
Proof.
  unfold forced, resolveFluid. intros H. apply H. clear H.
  destruct (file image) as [fl_|]; [|done].
  destruct (negb (isImage image)); [done|].
  cbv zeta. cbn [snd].
  destruct (maxWidth options) as [ww|] eqn:Hw,
           (maxHeight options) as [hh|] eqn:Hh;
    cbn; rewrite ?Hw, ?Hh; cbn;
    by destruct (truthyStr (sizes options)).
Qed.

(** [resolveFixed] leaves [resizingBehavior] alone when no height is
    requested ... *)
Lemma resolveFixed_not_forced_without_height image options :
  height options = None → ¬ forced options (resolveFixed image options).2.
Proof.
  unfold forced, resolveFixed. intros Hh H. apply H. clear H.
  destruct (file image) as [fl_|]; [|done].
  destruct (negb (isImage image)); [done|].
  destruct options as [ww hh ? ? ? ? ? rb ? ? ?]. simpl in Hh. subst hh.
  destruct ww as [ww|]; cbn; by picked_cases.
Qed.

(** ... and assigns it as soon as one is, with or without a width: the
    width computed from the height counts as requested. *)
Lemma resolveFixed_forced_with_height image options hh :
  isImage image = true → height options = Some hh →
  truthyStr (resizingBehavior options) = false →
  resizingBehavior (resolveFixed image options).2 = Some "fill"%string.
Proof.
  unfold resolveFixed. intros Himage Hh Hrb.
  destruct (file image) as [fl_|] eqn:Hfile;
    [|unfold isImage in Himage; by rewrite Hfile in Himage].
  rewrite Himage.
  destruct options as [ww hh' ? ? ? ? ? rb ? ? ?]. simpl in Hh, Hrb. subst hh'.
  destruct ww as [ww|]; cbn; rewrite Hrb; cbn; by picked_cases.
Qed.

(** C1. [resolveFixed] on a request that names a height only: the width
    is derived from the height (133 for a height of 100 on the 800 by 600
    sample), and [resizingBehavior], which the caller left unset, comes out
    as [fill]. *)
Theorem resolveFixed_height_only_forces_fill :
  let options := set_height (Some (ofZ 100)) noOptions in
  let after := (resolveFixed sampleImage options).2 in
  width options = None
  ∧ resizingBehavior options = None
  ∧ width after = Some (ofZ 133)
  ∧ resizingBehavior after = Some "fill"%string
  ∧ forced options after.
Proof. repeat split; try reflexivity. by vm_compute. Qed.

End ImageFacts.

(** ** The placeholder cache *)

Module CacheFacts.
Import ExtendNodeType CacheSpec.

Section Cache.

Variable renderUrl : Url → string.

Lemma orUndefinedStr_None o :
  orUndefinedStr o = None → o = None ∨ o = Some ""%string.
Proof.
  unfold orUndefinedStr, truthyStr. destruct o as [s|]; [|by left].
  destruct (String.eqb_spec s ""); [subst; by right|done].
Qed.

Lemma orUndefinedStr_Some o s :
  o = Some s → s ≠ ""%string → orUndefinedStr o = Some s.
Proof.
  intros -> Hs. unfold orUndefinedStr, truthyStr.
  by destruct (String.eqb_spec s "").
Qed.

(** A call either changes nothing or dispatches one fetch for a URL that
    is neither resolved nor in flight. *)
Lemma getBase64Image_cases imageProps st :
  (getBase64Image renderUrl imageProps st).2 = st
  ∨ ∃ ip, imageProps = Some ip
      ∧ orUndefinedStr
          (resolvedBase64Cache st
             !! requestUrlOf renderUrl (imageProps_baseUrl ip)) = None
      ∧ inFlightBase64Cache st
          !! requestUrlOf renderUrl (imageProps_baseUrl ip) = None
      ∧ getBase64Image renderUrl imageProps st
        = (Promised (Then (length (fetches st))),
           {| inFlightBase64Cache :=
                <[requestUrlOf renderUrl (imageProps_baseUrl ip)
                  := LoadImage (length (fetches st))]>
                  (inFlightBase64Cache st);
              resolvedBase64Cache := resolvedBase64Cache st;
              fetches :=
                fetches st
                ++ [(requestUrlOf renderUrl (imageProps_baseUrl ip),
                     Pending)] |}).
Proof.
  unfold getBase64Image. destruct imageProps as [ip|]; [|by left].
  case_bool_decide; [by left|]. cbv zeta.
  destruct (orUndefinedStr _) eqn:Hres; [by left|].
  destruct (inFlightBase64Cache st !! _) eqn:Hfl; [by left|].
  right. by exists ip.
Qed.

Lemma getBase64Image_consistent imageProps st :
  consistent st → consistent (getBase64Image renderUrl imageProps st).2.
Proof.
  intros [Hres Hpend].
  destruct (getBase64Image_cases imageProps st)
    as [->|(ip & -> & Hnone & Hfl & ->)]; [done|].
  set (requestUrl := requestUrlOf renderUrl (imageProps_baseUrl ip)) in *.
  split; cbn; [done|].
  intros n url Hn. apply lookup_app_Some in Hn as [Hn|[Hlen Hn]].
  - destruct (Hpend n url Hn) as [Hin Hno]. split; [|done].
    destruct (decide (requestUrl = url)) as [<-|Hne]; [congruence|].
    by rewrite lookup_insert_ne.
  - destruct (n - length (fetches st))%nat as [|k] eqn:Hk; [|done].
    simplify_eq/=. assert (n = length (fetches st)) as -> by lia.
    split; [by rewrite lookup_insert_eq|].
    destruct (orUndefinedStr_None _ Hnone) as [H|H]; [done|].
    by apply Hres in H.
Qed.

Lemma settle_consistent n result st :
  consistent st → consistent (settle n result st).
Proof.
  intros [Hres Hpend]. unfold settle.
  destruct (fetches st !! n) as [[requestUrl [| |]]|] eqn:Hn; try done.
  destruct (Hpend n requestUrl Hn) as [Hin Hno].
  assert (Hother : ∀ n' url' s,
    <[n := (requestUrl, s)]> (fetches st) !! n' = Some (url', Pending) →
    s ≠ Pending →
    n' ≠ n ∧ url' ≠ requestUrl ∧ fetches st !! n' = Some (url', Pending)).
  { intros n' url' s Hn' Hs.
    destruct (decide (n' = n)) as [->|Hne].
    - rewrite list_lookup_insert_eq in Hn'; [congruence|].
      by eapply lookup_lt_Some.
    - rewrite list_lookup_insert_ne in Hn' by done.
      split; [done|]. split; [|done].
      intros ->. destruct (Hpend n' requestUrl Hn') as [Hin' _].
      congruence. }
  destruct result as [base64|reason]; split; cbn.
  - intros url body. destruct (decide (requestUrl = url)) as [<-|Hne].
    + rewrite lookup_insert_eq. by intros [= <-].
    + rewrite lookup_insert_ne by done. apply Hres.
  - intros n' url' Hn'.
    destruct (Hother n' url' _ Hn') as (Hne & Hurl & Hold); [done|].
    destruct (Hpend n' url' Hold) as [Hin' Hno'].
    by rewrite lookup_delete_ne, lookup_insert_ne.
  - done.
  - intros n' url' Hn'.
    destruct (Hother n' url' _ Hn') as (Hne & Hurl & Hold); [done|].
    by apply Hpend.
Qed.

Lemma reachable_consistent st : reachable renderUrl st → consistent st.
Proof.
  induction 1 as [|st imageProps _ IH|st n result _ IH].
  - split; cbn.
    + intros url body H. by rewrite lookup_empty in H.
    + intros n url H. by rewrite lookup_nil in H.
  - by apply getBase64Image_consistent.
  - by apply settle_consistent.
Qed.

Lemma getBase64Image_in_flight imageProps st p :
  consistent st →
  String.index 0 "images.ctfassets.net" (imageProps_baseUrl imageProps) ≠ None →
  resolvedBase64Cache st
    !! requestUrlOf renderUrl (imageProps_baseUrl imageProps) = None →
  inFlightBase64Cache st
    !! requestUrlOf renderUrl (imageProps_baseUrl imageProps) = Some p →
  getBase64Image renderUrl (Some imageProps) st = (Promised p, st).
Proof.
  intros _ Hcdn Hres Hfl. unfold getBase64Image.
  rewrite bool_decide_eq_false_2 by done. cbv zeta.
  by rewrite Hres, Hfl.
Qed.

End Cache.

(** C8. On a URL of the image API, [getBase64Image] returns the resolved
    body at once when there is one; otherwise the promise registered in
    flight, without a fetch; otherwise it dispatches one fetch and
    registers it, so that a second request made before the fetch completes
    gets the registered promise and dispatches nothing. *)
Theorem getBase64Image_coalesces (renderUrl : Url → string) st imageProps :
  reachable renderUrl st →
  String.index 0 "images.ctfassets.net" (imageProps_baseUrl imageProps) ≠ None →
  let requestUrl := requestUrlOf renderUrl (imageProps_baseUrl imageProps) in
  let n := length (fetches st) in
  match resolvedBase64Cache st !! requestUrl,
        inFlightBase64Cache st !! requestUrl with
  | Some body, _ =>
    getBase64Image renderUrl (Some imageProps) st = (Body body, st)
  | None, Some inFlight =>
    getBase64Image renderUrl (Some imageProps) st = (Promised inFlight, st)
  | None, None =>
    ∃ st', getBase64Image renderUrl (Some imageProps) st
           = (Promised (Then n), st')
      ∧ fetches st' = fetches st ++ [(requestUrl, Pending)]
      ∧ inFlightBase64Cache st' !! requestUrl = Some (LoadImage n)
      ∧ resolvedBase64Cache st' = resolvedBase64Cache st
      ∧ getBase64Image renderUrl (Some imageProps) st'
        = (Promised (LoadImage n), st')
  end.
Proof.
  intros Hreach Hcdn requestUrl n.
  pose proof (reachable_consistent _ _ Hreach) as Hcons.
  destruct (resolvedBase64Cache st !! requestUrl) as [body|] eqn:Hres.
  - unfold getBase64Image. rewrite bool_decide_eq_false_2 by done. cbv zeta.
    fold requestUrl. rewrite Hres.
    erewrite orUndefinedStr_Some; [done..|]. by eapply Hcons.
  - destruct (inFlightBase64Cache st !! requestUrl) as [p|] eqn:Hfl.
    + by apply getBase64Image_in_flight.
    + eexists. split; [|split; [|split; [|split]]].
      * unfold getBase64Image. rewrite bool_decide_eq_false_2 by done.
        cbv zeta. fold requestUrl. by rewrite Hres, Hfl.
      * done.
      * cbn. by rewrite lookup_insert_eq.
      * done.
      * apply getBase64Image_in_flight; [|done|done|].
        -- apply reachable_consistent with (renderUrl := renderUrl).
           apply (reachable_call renderUrl st (Some imageProps)) in Hreach.
           revert Hreach. unfold getBase64Image.
           rewrite bool_decide_eq_false_2 by done. cbv zeta.
           fold requestUrl. by rewrite Hres, Hfl.
        -- cbn. by rewrite lookup_insert_eq.
Qed.

Lemma getBase64Image_coalesces_witness :
  ∃ st', getBase64Image sampleRender (Some sampleProps) noCaches
         = (Promised (Then 0), st')
    ∧ fetches st' = [(sampleRequestUrl, Pending)]
    ∧ inFlightBase64Cache st' !! sampleRequestUrl = Some (LoadImage 0)
    ∧ resolvedBase64Cache st' = ∅
    ∧ getBase64Image sampleRender (Some sampleProps) st'
      = (Promised (LoadImage 0), st').
Proof.
  exact (getBase64Image_coalesces sampleRender noCaches sampleProps
           (reachable_start sampleRender) ltac:(by vm_compute)).
Defined.

(** C2 as the specification words it fails on the sample: after the
    fetch was rejected the URL is still in the in-flight map. *)
Lemma failed_fetch_is_not_evicted :
  ¬ evictedAndRetried sampleRender afterFirstCall sampleProps 0 "ETIMEDOUT".
Proof. intros [H _]. vm_compute in H. discriminate. Qed.

(** C2, amended. When the fetch of a placeholder fails, every waiter (the
    first caller on the chained promise, later callers on the registered
    one) sees the rejection; the URL stays in the in-flight map and does
    not enter the resolved map; the next call for the URL returns the
    rejected promise and dispatches no fetch. *)
Theorem failed_fetch_stays_in_flight
    (renderUrl : Url → string) st imageProps n reason :
  reachable renderUrl st →
  String.index 0 "images.ctfassets.net" (imageProps_baseUrl imageProps) ≠ None →
  fetches st !! n
    = Some (requestUrlOf renderUrl (imageProps_baseUrl imageProps), Pending) →
  let requestUrl := requestUrlOf renderUrl (imageProps_baseUrl imageProps) in
  let failed := settle n (inr reason) st in
  promiseState (Then n) failed = Rejected reason
  ∧ promiseState (LoadImage n) failed = Rejected reason
  ∧ inFlightBase64Cache failed !! requestUrl = Some (LoadImage n)
  ∧ resolvedBase64Cache failed !! requestUrl = None
  ∧ getBase64Image renderUrl (Some imageProps) failed
    = (Promised (LoadImage n), failed).
Proof.
  intros Hreach Hcdn Hn requestUrl failed.
  pose proof (reachable_consistent _ _ Hreach) as Hcons.
  destruct (proj2 Hcons n requestUrl Hn) as [Hfl Hres].
  assert (Hfailed : failed
    = {| inFlightBase64Cache := inFlightBase64Cache st;
         resolvedBase64Cache := resolvedBase64Cache st;
         fetches := <[n := (requestUrl, Rejected reason)]> (fetches st) |}).
  { unfold failed, settle. by rewrite Hn. }
  assert (Hstate : fetches failed !! n = Some (requestUrl, Rejected reason)).
  { rewrite Hfailed. cbn. apply list_lookup_insert_eq.
    by eapply lookup_lt_Some. }
  split; [|split; [|split; [|split]]].
  - unfold promiseState. by rewrite Hstate.
  - unfold promiseState. by rewrite Hstate.
  - by rewrite Hfailed.
  - by rewrite Hfailed.
  - apply getBase64Image_in_flight; [|done|by rewrite Hfailed..].
    by apply settle_consistent.
Qed.

Lemma failed_fetch_stays_in_flight_witness :
  let failed := settle 0 (inr "ETIMEDOUT"%string) afterFirstCall in
  promiseState (Then 0) failed = Rejected "ETIMEDOUT"
  ∧ promiseState (LoadImage 0) failed = Rejected "ETIMEDOUT"
  ∧ inFlightBase64Cache failed !! sampleRequestUrl = Some (LoadImage 0)
  ∧ resolvedBase64Cache failed !! sampleRequestUrl = None
  ∧ getBase64Image sampleRender (Some sampleProps) failed
    = (Promised (LoadImage 0), failed).
Proof.
  exact (failed_fetch_stays_in_flight sampleRender afterFirstCall sampleProps
           0 "ETIMEDOUT"
           (reachable_call sampleRender noCaches (Some sampleProps)
              (reachable_start sampleRender))
           ltac:(by vm_compute) ltac:(by vm_compute)).
Defined.

End CacheFacts.

(** ** Objects as ordered property lists *)

Module ObjFacts.
Import Js.

Lemma get_set_eq k v o : get k (set k v o) = Some v.
Proof.
  induction o as [|[k' v'] o IH]; simpl.
  - by rewrite String.eqb_refl.
  - destruct (String.eqb_spec k k') as [->|Hne]; simpl.
    + by rewrite String.eqb_refl.
    + by destruct (String.eqb_spec k k').
Qed.

Lemma get_set_ne k k' v o : k ≠ k' → get k' (set k v o) = get k' o.
Proof.
  intros Hne. induction o as [|[k0 v0] o IH]; simpl.
  - by destruct (String.eqb_spec k' k) as [->|].
  - destruct (String.eqb_spec k k0) as [->|Hne0]; simpl.
    + by destruct (String.eqb_spec k' k0) as [->|].
    + by rewrite IH.
Qed.

Lemma get_delete_eq k o : get k (delete k o) = None.
Proof.
  unfold delete. induction o as [|[k' v'] o IH]; [done|].
  rewrite filter_cons. case_decide as Hk; simpl in *; [|done].
  by destruct (String.eqb_spec k k') as [->|].
Qed.

Lemma get_delete_ne k k' o : k ≠ k' → get k' (delete k o) = get k' o.
Proof.
  intros Hne. unfold delete. induction o as [|[k0 v0] o IH]; [done|].
  rewrite filter_cons. case_decide as Hk; simpl in *.
  - by rewrite IH.
  - subst k0. by destruct (String.eqb_spec k' k) as [->|].
Qed.

Lemma getV_Some k o v : get k o = Some v → getV k o = v.
Proof. unfold getV. by intros ->. Qed.

Lemma getV_set_eq k v o : getV k (set k v o) = v.
Proof. unfold getV. by rewrite get_set_eq. Qed.


Lemma getV_delete_eq k o : getV k (delete k o) = VUndefined.
Proof. unfold getV. by rewrite get_delete_eq. Qed.

Lemma getV_delete_ne k k' o : k ≠ k' → getV k' (delete k o) = getV k' o.
Proof. intros. unfold getV. by rewrite get_delete_ne. Qed.

Lemma get_Some_keys k v o : get k o = Some v → k ∈ keys o.
Proof.
  unfold keys. induction o as [|[k' v'] o IH]; [done|]. simpl.
  destruct (String.eqb_spec k k') as [->|Hne]; intros H.
  - apply list_elem_of_here.
  - by apply list_elem_of_further, IH.
Qed.

Lemma get_None_keys k o : get k o = None ↔ k ∉ keys o.
Proof.
  unfold keys. induction o as [|[k' v'] o IH]; simpl.
  - split; [intros _; apply not_elem_of_nil|done].
  - rewrite not_elem_of_cons.
    destruct (String.eqb_spec k k') as [->|Hne].
    + split; [done|]. by intros [? _].
    + rewrite IH. split; [by intros ?|by intros [_ ?]].
Qed.

(** A spread lets the properties of its second operand win. *)
Lemma get_spread k a b :
  NoDup (keys b) →
  get k (spread a b) = if bool_decide (k ∈ keys b) then get k b else get k a.
Proof.
  unfold spread, keys. revert a.
  induction b as [|[k' v'] b IH]; intros a Hnd; simpl; [done|].
  apply NoDup_cons in Hnd as [Hk' Hnd]. rewrite IH by done.
  destruct (String.eqb_spec k k') as [->|Hne].
  - rewrite (bool_decide_eq_false_2 _ Hk').
    rewrite bool_decide_eq_true_2 by apply list_elem_of_here.
    apply get_set_eq.
  - case_bool_decide as H1; case_bool_decide as H2; try done.
    + exfalso. apply H2. by apply list_elem_of_further.
    + apply elem_of_cons in H2 as [?|?]; done.
    + by apply get_set_ne.
Qed.

End ObjFacts.

(** ** Locale fallback *)

Module LocaleFacts.
Import Js Normalize NormalizeSpec ObjFacts.
Local Open Scope nat_scope.



Lemma nextKey_defined localesFallback k :
  isUndefined (getV k localesFallback) = false →
  nextKey localesFallback k = Some (toString (getV k localesFallback))
  ∧ k ∈ keys localesFallback.
Proof.
  intros H. split.
  - unfold nextKey. by destruct (getV k localesFallback).
  - unfold getV in H. destruct (get k localesFallback) eqn:Hget; [|done].
    by eapply get_Some_keys.
Qed.

(** Along an acyclic table the recursion visits every key at most once. *)
Lemma getLocalizedField_acyclic_aux field localesFallback :
  acyclic localesFallback →
  ∀ n seen code depth,
    NoDup seen → seen ⊆ keys localesFallback →
    (∀ k, k ∈ seen →
       tc (λ k k', nextKey localesFallback k = Some k') k (toString code)) →
    length localesFallback ≤ n + length seen → n < depth →
    ∃ v, getLocalizedField depth field code localesFallback = Some v.
Proof.
  intros Hacyclic. induction n as [|n IH];
    intros seen code depth Hnd Hsub Hpath Hlen Hdepth;
    (destruct depth as [|depth]; [lia|]); simpl;
    (destruct (isUndefined (getV (toString code) field)); simpl; [|eauto]);
    (destruct (isUndefined code); simpl; [eauto|]);
    (destruct (isUndefined (getV (toString code) localesFallback)) eqn:Hfb;
       simpl; [eauto|]);
    destruct (nextKey_defined _ _ Hfb) as [Hnext Hkey];
    assert (Hfresh : toString code ∉ seen)
      by (intros Hin; by apply (Hacyclic (toString code)), Hpath);
    assert (Hnd' : NoDup (toString code :: seen)) by (by constructor);
    assert (Hsub' : toString code :: seen ⊆ keys localesFallback)
      by (intros k [->|Hk]%elem_of_cons; auto).
  - exfalso.
    pose proof (submseteq_length _ _ (NoDup_submseteq _ _ Hnd' Hsub')) as Hle.
    unfold keys in Hle. rewrite length_fmap in Hle. simpl in Hle. lia.
  - apply (IH (toString code :: seen)); [done|done| |simpl; lia|lia].
    intros k [->|Hk]%elem_of_cons.
    + by apply tc_once.
    + eapply tc_r; [by apply Hpath|done].
Qed.

(** A table whose keys can be ranked so that every fallback ranks lower
    has no cycle. *)
Lemma ranked_acyclic localesFallback (rank : string → nat) :
  (∀ k k', nextKey localesFallback k = Some k' → rank k' < rank k) →
  acyclic localesFallback.
Proof.
  intros Hrank k Hcycle.
  assert (H : ∀ a b,
    tc (λ k k', nextKey localesFallback k = Some k') a b → rank b < rank a).
  { induction 1 as [a b Hab|a b c Hab _ IH].
    - by apply Hrank.
    - apply Hrank in Hab. lia. }
  apply H in Hcycle. lia.
Qed.

Lemma sampleLocales_acyclic : acyclic (buildFallbackChain sampleLocales).
Proof.
  apply (ranked_acyclic _
           (λ k, if String.eqb k "de" then 2 else if String.eqb k "en" then 1
                 else 0)).
  intros k k'. unfold nextKey, getV. cbn.
  destruct (String.eqb_spec k "en") as [->|Hen]; cbn.
  - intros [= <-]. cbn. lia.
  - destruct (String.eqb_spec k "de") as [->|Hde]; cbn; [|done].
    intros [= <-]. cbn. lia.
Qed.




End LocaleFacts.

(** ** The exception monad *)

Module ResultFacts.
Import Js.
Local Open Scope js_scope.

Lemma bind_Ok {A B} (m : result A) (k : A → result B) b :
  bind m k = Ok b → ∃ a, m = Ok a ∧ k a = Ok b.
Proof. destruct m as [a|e]; [by exists a|done]. Qed.

(** Split every [let*] of a hypothesis [H : ... = Ok _]. *)
Ltac bind_inv H :=
  repeat match type of H with
         | bind _ _ = Ok _ =>
           let x := fresh "x" in
           let Hx := fresh "Hx" in
           apply bind_Ok in H as (x & Hx & H)
         end.

(** What holds before a [forEach] and is kept by its callback holds
    after it. *)
Lemma foldlM_invariant {A B} (P : A → Prop) (f : A → B → result A) l :
  (∀ a x a', P a → f a x = Ok a' → P a') →
  ∀ a a', P a → foldlM f a l = Ok a' → P a'.
Proof.
  intros Hstep. induction l as [|x l IH]; intros a a' Ha; simpl.
  - by intros [= <-].
  - intros H. apply bind_Ok in H as (a1 & H1 & H).
    eapply IH; [|exact H]. by eapply Hstep.
Qed.



Lemma mapE_Ok_all {A B} (f : A → result B) (b : B) l :
  (∀ x, x ∈ l → f x = Ok b) → mapE f l = Ok ((λ _, b) <$> l).
Proof.
  induction l as [|x l IH]; intros Hall; simpl; [done|].
  rewrite Hall by apply list_elem_of_here. simpl.
  rewrite IH; [done|]. intros y Hy. by apply Hall, list_elem_of_further.
Qed.

Lemma mapE_Ok {A B} (f : A → result B) l l' :
  mapE f l = Ok l' → Forall2 (λ x y, f x = Ok y) l l'.
Proof.
  revert l'. induction l as [|x l IH]; intros l'; simpl.
  - intros [= <-]. constructor.
  - intros H. apply bind_Ok in H as (y & Hy & H).
    apply bind_Ok in H as (ys & Hys & [= <-]).
    constructor; [done|]. by apply IH.
Qed.

Lemma filterE_Ok {A} (p : A → result bool) l l' :
  filterE p l = Ok l' → ∀ x, x ∈ l' → x ∈ l ∧ p x = Ok true.
Proof.
  revert l'. induction l as [|x l IH]; intros l'; simpl.
  - intros [= <-] y Hy. by apply elem_of_nil in Hy.
  - intros H. apply bind_Ok in H as (b & Hb & H).
    apply bind_Ok in H as (ys & Hys & [= <-]).
    intros y Hy. destruct b.
    + apply elem_of_cons in Hy as [->|Hy].
      * split; [apply list_elem_of_here|done].
      * destruct (IH _ Hys y Hy). split; [by apply list_elem_of_further|done].
    + destruct (IH _ Hys y Hy). split; [by apply list_elem_of_further|done].
Qed.

End ResultFacts.

(** ** Raw links *)

Module LinkFacts.
Import Js Normalize NormalizeSpec ObjFacts.


Lemma looksLikeLink_VStr s : looksLikeLink (VStr s) = false.
Proof. unfold looksLikeLink. simpl. by rewrite !andb_false_r. Qed.


Lemma isRawLink_snoc l s :
  isRawLink (VArr l) = false → isRawLink (VArr (l ++ [VStr s])) = false.
Proof. destruct l; [intros _; apply looksLikeLink_VStr|done]. Qed.

Lemma isRawLink_ids ids : isRawLink (VArr (VStr <$> ids)) = false.
Proof. destruct ids; [done|apply looksLikeLink_VStr]. Qed.






End LinkFacts.

(** ** Node creation *)

Module NodeFacts.
Import Js Normalize NormalizeSpec ObjFacts ResultFacts LinkFacts.
Local Open Scope js_scope.

Section Nodes.

Context `{Collaborators}.
Variable args : Args.

(** The id of an entry or asset is always computed: its type is a
    string. *)
Lemma makeMakeId_Ok currentLocale spaceId id type :
  ∃ nodeId,
    makeMakeId args currentLocale spaceId (VStr id) (VStr type) = Ok nodeId.
Proof. unfold makeMakeId, makeId. simpl. eauto. Qed.

Lemma strictEqStr_refl s : strictEqStr (VStr s) s = true.
Proof. simpl. apply String.eqb_refl. Qed.

Lemma forEachLocale_Ok (body : Locale → result (list obj)) ls created0 :
  ∀ nodes, (∀ locale, locale ∈ ls → body locale = Ok nodes) →
  forEachLocale body ls created0
  = {| created := created0 ++ concat ((λ _, nodes) <$> ls); thrown := None |}.
Proof.
  intros nodes. revert created0.
  induction ls as [|locale ls IH]; intros created0 Hall; simpl.
  - by rewrite app_nil_r.
  - rewrite Hall by apply list_elem_of_here.
    rewrite IH; [by rewrite app_assoc|].
    intros l Hl. by apply Hall, list_elem_of_further.
Qed.

Lemma concat_singletons {A} (x : A) {B} (l : list B) :
  concat ((λ _, [x]) <$> l) = (λ _, x) <$> l.
Proof. induction l as [|y l IH]; [done|]. cbn. f_equal. exact IH. Qed.

Lemma skipped_entries {A} (l : list A) :
  omap fst ((λ _, (None : option obj, [] : list obj)) <$> l) = []
  ∧ concat (snd <$> ((λ _, (None : option obj, [] : list obj)) <$> l)) = [].
Proof. induction l as [|x l [IH1 IH2]]; [done|]. split; [exact IH1|exact IH2]. Qed.

(** An entry whose stored digest equals its [updatedAt] is skipped. *)
Lemma entryNodeOf_unchanged contentTypeItem locale localesFallback
    conflictFields entryItem :
  (∀ id,
     makeMakeId args (code locale) (space_id args)
       (VStr (sys_id (sys entryItem))) (VStr (sys_type (sys entryItem)))
     = Ok id →
     contentDigestOf (getNode id) = VStr (sys_updatedAt (sys entryItem))) →
  entryNodeOf args contentTypeItem locale localesFallback conflictFields
    entryItem = Ok (None, []).
Proof.
  intros Hdigest. unfold entryNodeOf.
  destruct (makeMakeId_Ok (code locale) (space_id args)
              (sys_id (sys entryItem)) (sys_type (sys entryItem)))
    as [id Hid].
  rewrite Hid. simpl. by rewrite (Hdigest id Hid), strictEqStr_refl.
Qed.

(** C4. When the store holds, for every entry and locale, a node whose
    digest is the entry's [updatedAt], [createNodesForContentType] creates
    no entry node and no child node: it creates the content type node,
    once per locale, with the content type's [updatedAt] as digest. *)
Theorem unchanged_entries_create_only_content_type_nodes
    contentTypeItem entries :
  (∀ locale entryItem id,
     locale ∈ locales args → entryItem ∈ entries →
     makeMakeId args (code locale) (space_id args)
       (VStr (sys_id (sys entryItem))) (VStr (sys_type (sys entryItem)))
     = Ok id →
     contentDigestOf (getNode id) = VStr (sys_updatedAt (sys entryItem))) →
  createNodesForContentType args contentTypeItem entries
  = {| created :=
         (λ _, contentTypeNodeOf args contentTypeItem) <$> locales args;
       thrown := None |}
  ∧ contentDigestOf (VObj (contentTypeNodeOf args contentTypeItem))
    = VStr (contentType_updatedAt contentTypeItem).
Proof.
  intros Hdigest. split; [|done].
  unfold createNodesForContentType.
  rewrite (forEachLocale_Ok _ _ [] [contentTypeNodeOf args contentTypeItem]).
  - by rewrite concat_singletons.
  - intros locale Hlocale. unfold nodesForLocale.
    rewrite (mapE_Ok_all _ (None, [])).
    + simpl. by destruct (skipped_entries entries) as [-> ->].
    + intros entryItem HentryItem. apply entryNodeOf_unchanged.
      intros id. by apply Hdigest.
Qed.

(** *** Assembling the entry node *)

Lemma keys_set_present k v v' o :
  get k o = Some v' → keys (set k v o) = keys o.
Proof.
  unfold keys. induction o as [|[k0 v0] o IH]; [done|]. simpl.
  destruct (String.eqb_spec k k0) as [->|Hne]; [done|].
  intros Hget. cbn. f_equal. by apply IH.
Qed.

Lemma keepsCore_more core node childrenNodes more :
  keepsCore core node childrenNodes →
  keepsCore core node (childrenNodes ++ more).
Proof.
  intros (Hkeys & Hsame & ids & Hchildren & Hraw & Hids).
  split; [done|]. split; [done|]. exists ids. split; [done|].
  split; [done|].
  intros id Hid. destruct (Hids id Hid) as (child & Hchild & Hget).
  exists child. split; [|done]. apply elem_of_app. by left.
Qed.

Lemma prepareJSONNode_keepsCore core node childrenNodes id key content :
  keepsCore core node childrenNodes →
  keepsCore core (prepareJSONNode id node key content).2
    (childrenNodes ++ [(prepareJSONNode id node key content).1]).
Proof.
  intros (Hkeys & Hsame & ids & Hchildren & Hraw & Hids).
  unfold prepareJSONNode. cbn [fst snd].
  rewrite (getV_Some _ _ _ Hchildren).
  split; [by erewrite keys_set_present|].
  split.
  { intros k Hk. rewrite get_set_ne by (by intros <-). by apply Hsame. }
  exists (ids ++ [VStr id]). split; [apply get_set_eq|].
  split; [by apply isRawLink_snoc|].
  intros v [Hv|Hv]%elem_of_app.
  - destruct (Hids v Hv) as (child & Hchild & Hget).
    exists child. split; [|done]. apply elem_of_app. by left.
  - apply list_elem_of_singleton in Hv as ->.
    eexists. split; [apply elem_of_app; right; apply list_elem_of_here|].
    rewrite !get_set_ne by done. apply get_set_eq.
Qed.

Lemma materializeElement_keepsCore core entryItem entryNodeId key st indexed :
  keepsCore core st.1.2 st.2 →
  keepsCore core
    (materializeElement entryItem entryNodeId key st indexed).1.2
    (materializeElement entryItem entryNodeId key st indexed).2.
Proof.
  destruct st as [[entryItemFields entryNode] childrenNodes].
  destruct indexed as [i o]. cbn [fst snd]. intros Hcore.
  unfold materializeElement.
  destruct (negb _).
  - pose proof (prepareJSONNode_keepsCore core entryNode childrenNodes
                  (createNodeId (entryNodeId +:+ key +:+ pretty i
                                 +:+ "JSONNode")) key o Hcore) as Hjson.
    by destruct (prepareJSONNode _ entryNode key o).
  - done.
Qed.

Lemma materializeElements_keepsCore core entryItem entryNodeId key l st :
  keepsCore core st.1.2 st.2 →
  keepsCore core
    (foldl (materializeElement entryItem entryNodeId key) st l).1.2
    (foldl (materializeElement entryItem entryNodeId key) st l).2.
Proof.
  revert st. induction l as [|x l IH]; intros st Hcore; [done|].
  simpl. by apply IH, materializeElement_keepsCore.
Qed.

Lemma materializeField_keepsCore core contentTypeItem mId entryItem
    entryNodeId st key st' :
  keepsCore core st.1.2 st.2 →
  materializeField args contentTypeItem mId entryItem entryNodeId st key
  = Ok st' →
  keepsCore core st'.1.2 st'.2.
Proof.
  destruct st as [[entryItemFields entryNode] childrenNodes].
  cbn [fst snd]. intros Hcore. unfold materializeField.
  destruct (includes "___" key); [by intros [= <-]|].
  intros Hst. apply bind_Ok in Hst as (fieldType & _ & Hst).
  destruct (String.eqb fieldType "Text").
  { injection Hst as <-. cbn [fst snd].
    destruct (negb _); [by apply keepsCore_more|done]. }
  destruct (String.eqb fieldType "RichText" && _).
  { bind_inv Hst. injection Hst as <-. cbn [fst snd].
    by apply keepsCore_more. }
  destruct (String.eqb fieldType "Object" && isPlainObject _).
  { destruct (negb _).
    - pose proof (prepareJSONNode_keepsCore core entryNode childrenNodes
                    (createNodeId (entryNodeId +:+ key +:+ "JSONNode")) key
                    (getV key entryItemFields) Hcore) as Hjson.
      destruct (prepareJSONNode _ entryNode key _).
      by injection Hst as <-.
    - by injection Hst as <-. }
  destruct (String.eqb fieldType "Object" && isArray _).
  { match type of Hst with
    | context [foldl ?f ?st0 ?l] =>
      pose proof (materializeElements_keepsCore core entryItem entryNodeId
                    key l st0 Hcore) as Helements;
      destruct (foldl f st0 l) as [[fields' node'] children']
    end.
    by injection Hst as <-. }
  destruct (String.eqb fieldType "Location").
  { apply bind_Ok in Hst as (children' & Hchildren & Hst).
    injection Hst as <-. cbn [fst snd].
    destruct (negb _).
    - apply bind_Ok in Hchildren as (locationNode & _ & [= <-]).
      by apply keepsCore_more.
    - by injection Hchildren as <-. }
  by injection Hst as <-.
Qed.

(** The text pass of the second revision leaves the node alone. *)
Lemma materializeTextField_node contentTypeItem entryItem entryNodeId
    st key st' :
  materializeTextField args contentTypeItem entryItem entryNodeId st key
  = Ok st' →
  st'.1.2 = st.1.2.
Proof.
  destruct st as [[entryItemFields entryNode] childrenNodes].
  unfold materializeTextField.
  destruct (includes "___" key); [by intros [= <-]|].
  intros Hst. apply bind_Ok in Hst as (fieldType & _ & Hst).
  destruct (String.eqb fieldType "Text"); by injection Hst as <-.
Qed.

(** The spread [{ ...entryItemFields, ...entryNode, node_locale }] reads
    every property of [entryNode] from [entryNode]. *)
Lemma assembled_get entryItemFields entryNode locale k v :
  NoDup (keys entryNode) → k ≠ "node_locale"%string →
  get k entryNode = Some v →
  get k (set "node_locale" locale (spread entryItemFields entryNode))
  = Some v.
Proof.
  intros Hnd Hk Hget. rewrite get_set_ne by done.
  rewrite get_spread by done.
  rewrite bool_decide_eq_true_2; [done|]. by eapply get_Some_keys.
Qed.

Lemma linkTags_get entryItem entryNode node k :
  linkTags args entryItem entryNode = Ok node → k ≠ "metadata"%string →
  get k node = get k entryNode.
Proof.
  unfold linkTags. destruct (enableTags args); [|by intros [= <-]].
  destruct (metadata_tags entryItem); [|done].
  intros [= <-] Hk. by apply get_set_ne.
Qed.

Lemma setContentDigest_get digest node k :
  k ≠ "internal"%string → get k (setContentDigest digest node) = get k node.
Proof.
  intros Hk. unfold setContentDigest.
  destruct (getV "internal" node); try done.
  apply get_set_ne. by intros <-.
Qed.

Lemma setContentDigest_internal digest node internal :
  get "internal" node = Some (VObj internal) →
  get "internal" (setContentDigest digest node)
  = Some (VObj (set "contentDigest" (VStr digest) internal)).
Proof.
  intros Hget. unfold setContentDigest.
  rewrite (getV_Some _ _ _ Hget). apply get_set_eq.
Qed.

Lemma nine_keys_NoDup (k9 : string) (v1 v2 v3 v4 v5 v6 v7 v8 v9 : value) :
  k9 ∈ ["sys"; "sys___NODE"]%string →
  NoDup (keys [ ("id", v1); ("spaceId", v2); ("contentful_id", v3);
                ("createdAt", v4); ("updatedAt", v5); ("parent", v6);
                ("children", v7); ("internal", v8); (k9, v9) ]%string).
Proof.
  intros Hk9. cbn.
  assert (k9 = "sys" ∨ k9 = "sys___NODE")%string as [->| ->]
    by (apply elem_of_cons in Hk9 as [?|Hk9]; [by left|];
        apply elem_of_cons in Hk9 as [?|Hk9]; [by right|];
        by apply elem_of_nil in Hk9);
    apply (bool_decide_unpack _); by vm_compute.
Qed.

(** Read a core attribute off the assembled node. *)
Ltac core_attribute Htags Hnd Hsame :=
  erewrite (linkTags_get _ _ _ _ Htags) by done;
  rewrite ?setContentDigest_get by done;
  apply assembled_get; [exact Hnd|done|];
  rewrite Hsame by done; reflexivity.

(** The entry node of the first revision carries its core attributes,
    whatever the fields of the entry are called. *)
Lemma entryNodeOf_core contentTypeItem locale localesFallback conflictFields
    entryItem node childrenNodes :
  entryNodeOf args contentTypeItem locale localesFallback conflictFields
    entryItem = Ok (Some node, childrenNodes) →
  ∃ entryNodeId,
    makeMakeId args (code locale) (space_id args)
      (VStr (sys_id (sys entryItem))) (VStr (sys_type (sys entryItem)))
    = Ok entryNodeId
    ∧ hasCoreAttributes
        {| core_id := entryNodeId;
           core_spaceId := space_id args;
           core_contentful_id := sys_id (sys entryItem);
           core_createdAt := sys_createdAt (sys entryItem);
           core_updatedAt := sys_updatedAt (sys entryItem);
           core_parent := contentTypeItemIdOf args contentTypeItem;
           core_internal_type :=
             makeTypeName (contentTypeItemIdOf args contentTypeItem);
           core_sysKey := "sys___NODE";
           core_sys := VStr (createNodeId (entryNodeId +:+ ".sys")) |}
        node childrenNodes.
Proof.
  unfold entryNodeOf. intros Hnode.
  apply bind_Ok in Hnode as (entryNodeId & Hid & Hnode).
  exists entryNodeId. split; [done|].
  destruct (strictEqStr _ _); [done|].
  apply bind_Ok in Hnode as (fields1 & _ & Hnode).
  apply bind_Ok in Hnode as (fields2 & _ & Hnode).
  apply bind_Ok in Hnode as (fields3 & _ & Hnode).
  apply bind_Ok in Hnode as ([[fields4 entryNode] children4] & Hbuilt & Hnode).
  apply bind_Ok in Hnode as (tagged & Htags & [= <- <-]).
  match type of Hbuilt with
  | foldlM ?f (?fields0, ?core, ?start) ?l = _ =>
    assert (Hkept : keepsCore core entryNode children4);
      [apply (foldlM_invariant (λ st, keepsCore core st.1.2 st.2) f l
                (λ a x a', materializeField_keepsCore core _ _ _ _ a x a')
                (fields0, core, start) (fields4, entryNode, children4));
         [|exact Hbuilt];
       split; [done|]; split; [done|]; exists []; split; [done|];
       split; [done|];
       intros child Hchild; by apply elem_of_nil in Hchild|]
  end.
  destruct Hkept as (Hkeys & Hsame & ids & Hchildren & Hraw & Hids).
  assert (Hnd : NoDup (keys entryNode)).
  { rewrite Hkeys. apply nine_keys_NoDup; set_solver. }
  repeat split; try by core_attribute Htags Hnd Hsame.
  - exists ids. split; [|done].
    erewrite (linkTags_get _ _ _ _ Htags) by done.
    rewrite setContentDigest_get by done.
    by apply assembled_get.
  - erewrite (linkTags_get _ _ _ _ Htags) by done.
    erewrite setContentDigest_internal;
      [|apply assembled_get; [exact Hnd|done|];
        rewrite Hsame by done; reflexivity].
    reflexivity.
Qed.

(** So does the entry node of the second revision; there [sys] is a
    property of the node itself. *)
Lemma entryNodeOf2_core contentTypeItem locale localesFallback conflictFields
    entryItem node childrenNodes :
  entryNodeOf2 args contentTypeItem locale localesFallback conflictFields
    entryItem = Ok (Some node, childrenNodes) →
  ∃ entryNodeId,
    makeMakeId args (code locale) (space_id args)
      (VStr (sys_id (sys entryItem))) (VStr (sys_type (sys entryItem)))
    = Ok entryNodeId
    ∧ hasCoreAttributes
        {| core_id := entryNodeId;
           core_spaceId := space_id args;
           core_contentful_id := sys_id (sys entryItem);
           core_createdAt := sys_createdAt (sys entryItem);
           core_updatedAt := sys_updatedAt (sys entryItem);
           core_parent := contentTypeItemIdOf args contentTypeItem;
           core_internal_type :=
             makeTypeName (contentTypeItemIdOf args contentTypeItem);
           core_sysKey := "sys";
           core_sys :=
             VObj (withRevisionAndContentType args contentTypeItem
                     (sys entryItem)
                     [("type", VStr (sys_type (sys entryItem)))]) |}
        node childrenNodes.
Proof.
  unfold entryNodeOf2. intros Hnode.
  apply bind_Ok in Hnode as (entryNodeId & Hid & Hnode).
  exists entryNodeId. split; [done|].
  destruct (strictEqStr _ _); [done|].
  apply bind_Ok in Hnode as (fields1 & _ & Hnode).
  apply bind_Ok in Hnode as (fields2 & _ & Hnode).
  apply bind_Ok in Hnode as (fields3 & _ & Hnode).
  apply bind_Ok in Hnode as ([[fields4 entryNode] children4] & Hbuilt & Hnode).
  apply bind_Ok in Hnode as (tagged & Htags & [= <- <-]).
  match type of Hbuilt with
  | foldlM ?f (?fields0, ?core, ?start) ?l = _ =>
    assert (Hkept : entryNode = core);
      [apply (foldlM_invariant (λ st, st.1.2 = core) f l
                (λ a x a' Ha Hstep,
                   eq_trans (materializeTextField_node _ _ _ a x a' Hstep) Ha)
                (fields0, core, start) (fields4, entryNode, children4));
         [done|exact Hbuilt]|]
  end.
  subst entryNode.
  assert (Hsame : ∀ k : string, k ≠ "children"%string → True) by done.
  repeat split;
    try (erewrite (linkTags_get _ _ _ _ Htags) by done;
         apply assembled_get; [apply nine_keys_NoDup; set_solver|done|reflexivity]).
  exists []. split.
  - erewrite (linkTags_get _ _ _ _ Htags) by done.
    apply assembled_get; [apply nine_keys_NoDup; set_solver|done|reflexivity].
  - intros child Hchild. by apply elem_of_nil in Hchild.
Qed.

(** C10. An entry node carries the core attributes [id], [spaceId],
    [contentful_id], [createdAt], [updatedAt], [parent], [children],
    [internal] and the [sys] linkage that [createNodesForContentType]
    computes, in both revisions and whatever the entry's fields are
    called: the spread of the fields comes first, the core attributes
    second. *)
Theorem core_attributes_win contentTypeItem locale localesFallback
    conflictFields entryItem :
  (∀ node childrenNodes,
     entryNodeOf args contentTypeItem locale localesFallback conflictFields
       entryItem = Ok (Some node, childrenNodes) →
     ∃ entryNodeId,
       makeMakeId args (code locale) (space_id args)
         (VStr (sys_id (sys entryItem))) (VStr (sys_type (sys entryItem)))
       = Ok entryNodeId
       ∧ hasCoreAttributes
           {| core_id := entryNodeId;
              core_spaceId := space_id args;
              core_contentful_id := sys_id (sys entryItem);
              core_createdAt := sys_createdAt (sys entryItem);
              core_updatedAt := sys_updatedAt (sys entryItem);
              core_parent := contentTypeItemIdOf args contentTypeItem;
              core_internal_type :=
                makeTypeName (contentTypeItemIdOf args contentTypeItem);
              core_sysKey := "sys___NODE";
              core_sys := VStr (createNodeId (entryNodeId +:+ ".sys")) |}
           node childrenNodes)
  ∧ (∀ node childrenNodes,
       entryNodeOf2 args contentTypeItem locale localesFallback conflictFields
         entryItem = Ok (Some node, childrenNodes) →
       ∃ entryNodeId,
         makeMakeId args (code locale) (space_id args)
           (VStr (sys_id (sys entryItem))) (VStr (sys_type (sys entryItem)))
         = Ok entryNodeId
         ∧ hasCoreAttributes
             {| core_id := entryNodeId;
                core_spaceId := space_id args;
                core_contentful_id := sys_id (sys entryItem);
                core_createdAt := sys_createdAt (sys entryItem);
                core_updatedAt := sys_updatedAt (sys entryItem);
                core_parent := contentTypeItemIdOf args contentTypeItem;
                core_internal_type :=
                  makeTypeName (contentTypeItemIdOf args contentTypeItem);
                core_sysKey := "sys";
                core_sys :=
                  VObj (withRevisionAndContentType args contentTypeItem
                          (sys entryItem)
                          [("type", VStr (sys_type (sys entryItem)))]) |}
             node childrenNodes).
Proof.
  split; intros node childrenNodes Hnode.
  - by eapply entryNodeOf_core.
  - by eapply entryNodeOf2_core.
Qed.

(** *** Asset nodes *)

Lemma forEachLocale_created (body : Locale → result (list obj)) ls created0 :
  thrown (forEachLocale body ls created0) = None →
  ∃ nodes, Forall2 (λ locale ns, body locale = Ok ns) ls nodes
           ∧ created (forEachLocale body ls created0)
             = created0 ++ concat nodes.
Proof.
  revert created0. induction ls as [|locale ls IH]; intros created0; simpl.
  - intros _. exists []. split; [constructor|by rewrite app_nil_r].
  - destruct (body locale) as [ns|e] eqn:Hbody; [|done].
    intros Hthrown. destruct (IH _ Hthrown) as (nodes & Hall & Hcreated).
    exists (ns :: nodes). split; [by constructor|].
    by rewrite Hcreated, <- app_assoc.
Qed.

(** A [forEach] whose body always throws creates nothing. *)
Lemma forEachLocale_throws (body : Locale → result (list obj)) ls created0 :
  (∀ locale, ∃ e, body locale = Throw e) →
  created (forEachLocale body ls created0) = created0
  ∧ (ls ≠ [] → is_Some (thrown (forEachLocale body ls created0))).
Proof.
  intros Hthrows. destruct ls as [|locale ls]; simpl; [done|].
  destruct (Hthrows locale) as [e ->]. simpl. split; [done|]. eauto.
Qed.

(** The first revision: the asset node of a locale. *)
Lemma assetNodeOf_node assetItem locale node :
  assetNodeOf args assetItem locale = Ok node →
  let getField :=
    makeGetLocalizedField locale (buildFallbackChain (locales args)) in
  (∃ file, get "file" node = Some file
     ∧ match lookupField "file" (fields assetItem) with
       | Some bag => getField bag
       | None => Ok VNull
       end = Ok file)
  ∧ (∃ title, get "title" node = Some title
       ∧ match lookupField "title" (fields assetItem) with
         | Some bag => getField bag
         | None => Ok (VStr "")
         end = Ok title)
  ∧ (∃ description, get "description" node = Some description
       ∧ match lookupField "description" (fields assetItem) with
         | Some bag => getField bag
         | None => Ok (VStr "")
         end = Ok description)
  ∧ contentDigestOf (VObj node) = VStr (sys_updatedAt (sys assetItem))
  ∧ get "children" node = Some (VArr [])
  ∧ get "node_locale" node = Some (VStr (code locale)).
Proof.
  unfold assetNodeOf. intros Hnode.
  apply bind_Ok in Hnode as (id & _ & Hnode).
  apply bind_Ok in Hnode as (file & Hfile & Hnode).
  apply bind_Ok in Hnode as (title & Htitle & Hnode).
  apply bind_Ok in Hnode as (description & Hdescription & [= <-]).
  repeat split; eauto.
Qed.

(** The first revision creates one asset node per locale, and nothing
    else. *)
Lemma createAssetNodes_one_per_locale assetItem :
  thrown (createAssetNodes args assetItem) = None →
  Forall2 (λ locale node, assetNodeOf args assetItem locale = Ok node)
    (locales args) (created (createAssetNodes args assetItem)).
Proof.
  unfold createAssetNodes. intros Hthrown.
  destruct (forEachLocale_created _ _ _ Hthrown) as (nodes & Hall & ->).
  simpl. clear Hthrown. induction Hall as [|locale ns ls nodes Hns _ IH].
  - constructor.
  - apply bind_Ok in Hns as (node & Hnode & [= <-]). simpl.
    by constructor.
Qed.

(** The second revision never gets to call [createNode]. *)
Lemma assetNodeOf2_throws assetItem locale :
  ∃ e, assetNodeOf2 args assetItem locale = Throw e.
Proof.
  unfold assetNodeOf2, assetNodeOf.
  destruct (makeMakeId_Ok (code locale) (space_id args)
              (sys_id (sys assetItem)) (sys_type (sys assetItem)))
    as [id ->].
  simpl.
  repeat match goal with
         | |- context [bind ?m _] =>
           match m with
           | Ok _ => fail 1
           | Throw _ => fail 1
           | _ => destruct m as [?|?]; simpl; eauto
           end
         end.
Qed.

Lemma createAssetNodes2_creates_nothing assetItem :
  created (createAssetNodes2 args assetItem) = []
  ∧ (locales args ≠ [] → is_Some (thrown (createAssetNodes2 args assetItem))).
Proof. apply forEachLocale_throws, assetNodeOf2_throws. Qed.

End Nodes.

Lemma unchanged_entries_create_only_content_type_nodes_witness :
  @createNodesForContentType syncedCollaborators sampleArgs postType
    [post1; post2]
  = {| created :=
         (λ _, @contentTypeNodeOf syncedCollaborators sampleArgs postType)
           <$> sampleLocales;
       thrown := None |}
  ∧ contentDigestOf
      (VObj (@contentTypeNodeOf syncedCollaborators sampleArgs postType))
    = VStr "2021-01-01".
Proof.
  apply (@unchanged_entries_create_only_content_type_nodes
           syncedCollaborators sampleArgs postType [post1; post2]).
  intros locale entryItem id _ HentryItem _.
  apply elem_of_cons in HentryItem as [->|HentryItem]; [reflexivity|].
  apply elem_of_cons in HentryItem as [->|HentryItem]; [reflexivity|].
  by apply elem_of_nil in HentryItem.
Defined.

Lemma core_attributes_win_witness :
  (∃ node childrenNodes,
     @entryNodeOf sampleCollaborators sampleArgs shadowingType english
       (buildFallbackChain sampleLocales) [] shadowingPost
     = Ok (Some node, childrenNodes)
     ∧ get "spaceId" node = Some (VStr "space")
     ∧ get "updatedAt" node = Some (VStr "2021-03-01"))
  ∧ (∃ node childrenNodes,
       @entryNodeOf2 sampleCollaborators sampleArgs shadowingType english
         (buildFallbackChain sampleLocales) [] shadowingPost
       = Ok (Some node, childrenNodes)
       ∧ get "spaceId" node = Some (VStr "space")
       ∧ get "updatedAt" node = Some (VStr "2021-03-01")
       ∧ get "sys" node
         = Some (VObj [ ("type", VStr "Entry"); ("revision", VNum 1);
                        ("contentType___NODE", VStr "Post") ])).
Proof.
  destruct (@core_attributes_win sampleCollaborators sampleArgs shadowingType
              english (buildFallbackChain sampleLocales) [] shadowingPost)
    as [Hfirst Hsecond].
  split.
  - eexists _, _. split; [reflexivity|].
    destruct (Hfirst _ _ eq_refl) as (entryNodeId & _ & Hcore).
    split; apply Hcore.
  - eexists _, _. split; [reflexivity|].
    destruct (Hsecond _ _ eq_refl) as (entryNodeId & _ & Hcore).
    repeat split; apply Hcore.
Defined.

(** C9. On the photo of the sample, with its two locales, the first
    revision of [createAssetNodes] creates two asset nodes; the second
    revision creates none and ends in a TypeError on
    [assetNode.internal.createNodePromises]. *)
Theorem createAssetNodes2_throws :
  length (created (@createAssetNodes sampleCollaborators sampleArgs photo)) = 2%nat
  ∧ thrown (@createAssetNodes sampleCollaborators sampleArgs photo) = None
  ∧ @createAssetNodes2 sampleCollaborators sampleArgs photo
    = {| created := [];
         thrown :=
           Some (TypeError
                   "Cannot read properties of undefined (reading 'push')") |}.
Proof. by vm_compute. Qed.

End NodeFacts.

(** ** Forward and reverse references *)

Module ReferenceFacts.
Import Js Normalize NormalizeSpec ObjFacts ResultFacts LinkFacts.
Local Open Scope js_scope.

Section Forward.

Context `{Collaborators}.
Variable args : Args.
Variable mId : string → value → value → result string.









End Forward.

Section EntryNode.

Context `{Collaborators}.
Variable args : Args.










(** *** Fields the type-directed pass leaves alone *)






End EntryNode.

(** *** The foreign-reference map *)




Section Map.

Variable resolvable : gset string.
Variable defaultLocale : string.
Variable spaceId : string.
Variable useNameForId : bool.





End Map.

(** *** The reverse merge *)


Section Reverse.

Context `{Collaborators}.
Variable args : Args.








End Reverse.



End ReferenceFacts.

(** ** Image sources *)

Module SourceFacts.
Import JsNum ExtendNodeType.

Lemma ltb_false_leb x y : ltb (Fin y) (Fin x) = false → leb (Fin x) (Fin y) = true.
Proof. simpl. by intros ->%negb_false_iff. Qed.

Lemma ltb_Fin x y : ltb (Fin x) (Fin y) = true → (x < y)%Q.
Proof.
  simpl. intros H%negb_true_iff. apply Qnot_le_lt. intros Hle.
  apply Qle_bool_iff in Hle. congruence.
Qed.

Lemma leb_Fin x y : leb (Fin x) (Fin y) = true → (x <= y)%Q.
Proof. simpl. apply Qle_bool_iff. Qed.

(** A side scaled down by the overshoot of the other side is within the
    limit. *)
Lemma scaled_within_limit x y :
  (x <= 4000)%Q → (4000 < y)%Q →
  ∃ z, floor (mul (div (Fin x) (Fin y)) CONTENTFUL_IMAGE_MAX_SIZE) = Fin z
       ∧ leb (Fin z) CONTENTFUL_IMAGE_MAX_SIZE = true.
Proof.
  intros Hx Hy.
  assert (Hpos : (0 < y)%Q) by (eapply Qlt_trans; [|exact Hy]; reflexivity).
  unfold div, sgn. rewrite (proj1 (Qgt_alt y 0) Hpos).
  eexists. split; [reflexivity|]. apply Qle_bool_iff.
  eapply Qle_trans; [apply Qfloor_le|].
  apply Qle_trans with (1 * inject_Z 4000)%Q;
    [|rewrite Qmult_1_l; apply Qle_refl].
  apply Qmult_le_compat_r; [|done].
  apply Qle_shift_div_r; [done|].
  rewrite Qmult_1_l. eapply Qle_trans; [exact Hx|]. by apply Qlt_le_weak.
Qed.

Lemma scaled_Fin x y :
  (4000 < y)%Q →
  ∃ z, floor (mul (div (Fin x) (Fin y)) CONTENTFUL_IMAGE_MAX_SIZE) = Fin z.
Proof.
  intros Hy.
  assert (Hpos : (0 < y)%Q) by (eapply Qlt_trans; [|exact Hy]; reflexivity).
  unfold div, sgn. rewrite (proj1 (Qgt_alt y 0) Hpos). by eexists.
Qed.

(** X1. [generateImageSource] on a finite width and height.  It returns a
    source exactly for the formats jpg, png, webp and gif, in the format
    asked for.  The width and the height of the source are both at most
    4000, they are the width and height asked for when those are at most
    4000, and the URL asks for them. *)
Theorem generateImageSource_within_limits filename width_ height_ toFormat
    fit_ options :
  match generateImageSource filename (Fin width_) (Fin height_) toFormat fit_
          options with
  | Some source =>
    toFormat = Some (source_format source)
    ∧ source_format source ∈ validImageFormats
    ∧ le (source_width source) CONTENTFUL_IMAGE_MAX_SIZE
    ∧ le (source_height source) CONTENTFUL_IMAGE_MAX_SIZE
    ∧ (le (Fin width_) CONTENTFUL_IMAGE_MAX_SIZE →
       le (Fin height_) CONTENTFUL_IMAGE_MAX_SIZE →
       source_width source = Fin width_ ∧ source_height source = Fin height_)
    ∧ w (source_src source) = orUndefinedNum (Some (source_width source))
    ∧ h (source_src source) = orUndefinedNum (Some (source_height source))
    ∧ fm (source_src source) = Some (source_format source)
  | None => ∀ format, toFormat = Some format → format ∉ validImageFormats
  end.
Proof.
  unfold generateImageSource.
  assert (Hformat : ∀ width height,
    le width CONTENTFUL_IMAGE_MAX_SIZE → le height CONTENTFUL_IMAGE_MAX_SIZE →
    (le (Fin width_) CONTENTFUL_IMAGE_MAX_SIZE →
     le (Fin height_) CONTENTFUL_IMAGE_MAX_SIZE →
     width = Fin width_ ∧ height = Fin height_) →
    match
      match toFormat with
      | Some format =>
        if bool_decide (format ∈ validImageFormats) then
          Some {| source_width := width; source_height := height;
                  source_format := format;
                  source_src :=
                    createUrl filename
                      {| width := Some width; height := Some height;
                         maxWidth := None; maxHeight := None;
                         quality := source_quality options;
                         toFormat := Some format;
                         jpegProgressive := source_jpegProgressive options;
                         resizingBehavior := source_resizingBehavior options;
                         cropFocus := source_cropFocus options;
                         background :=
                           replaceHash <$> source_backgroundColor options;
                         sizes := None |} |}
        else None
      | None => None
      end
    with
    | Some source =>
      toFormat = Some (source_format source)
      ∧ source_format source ∈ validImageFormats
      ∧ le (source_width source) CONTENTFUL_IMAGE_MAX_SIZE
      ∧ le (source_height source) CONTENTFUL_IMAGE_MAX_SIZE
      ∧ (le (Fin width_) CONTENTFUL_IMAGE_MAX_SIZE →
         le (Fin height_) CONTENTFUL_IMAGE_MAX_SIZE →
         source_width source = Fin width_
         ∧ source_height source = Fin height_)
      ∧ w (source_src source) = orUndefinedNum (Some (source_width source))
      ∧ h (source_src source) = orUndefinedNum (Some (source_height source))
      ∧ fm (source_src source) = Some (source_format source)
    | None => ∀ format, toFormat = Some format → format ∉ validImageFormats
    end).
  { intros width height Hwidth Hheight Hsame.
    destruct toFormat as [format|]; [|done].
    case_bool_decide as Hvalid; [|by intros ? [= <-]].
    cbn. split; [done|]. split; [done|]. split; [done|]. split; [done|].
    split; [done|]. split; [done|]. split; [done|].
    unfold validImageFormats in Hvalid.
    repeat (apply elem_of_cons in Hvalid as [->|Hvalid]; [done|]).
    by apply elem_of_nil in Hvalid. }
  destruct (ltb CONTENTFUL_IMAGE_MAX_SIZE (Fin width_)) eqn:Hwide.
  - destruct (scaled_Fin height_ width_ (ltb_Fin _ _ Hwide)) as [z ->].
    destruct (ltb CONTENTFUL_IMAGE_MAX_SIZE (Fin z)) eqn:Htall.
    + destruct (scaled_within_limit (inject_Z 4000) z) as (z' & Hz & Hz');
        [apply Qle_refl|by apply ltb_Fin|].
      change (Fin (inject_Z 4000)) with CONTENTFUL_IMAGE_MAX_SIZE in Hz.
      rewrite Hz. apply Hformat; [done|apply ImageFacts.leb_refl_Fin|].
      intros Hle. apply leb_Fin in Hle. apply ltb_Fin in Hwide.
      by apply Qle_not_lt in Hle.
    + apply Hformat;
        [apply ImageFacts.leb_refl_Fin|by apply ltb_false_leb|].
      intros Hle. apply leb_Fin in Hle. apply ltb_Fin in Hwide.
      by apply Qle_not_lt in Hle.
  - destruct (ltb CONTENTFUL_IMAGE_MAX_SIZE (Fin height_)) eqn:Htall.
    + destruct (scaled_within_limit width_ height_) as (z' & -> & Hz');
        [by apply leb_Fin, ltb_false_leb|by apply ltb_Fin|].
      apply Hformat; [done|apply ImageFacts.leb_refl_Fin|].
      intros _ Hle. apply leb_Fin in Hle. apply ltb_Fin in Htall.
      by apply Qle_not_lt in Hle.
    + apply Hformat; [by apply ltb_false_leb..|done].
Qed.

End SourceFacts.

(** ** The candidates of a [srcSet] *)

Module SrcSetFacts.
Import JsNum ExtendNodeType ImageSpec.

Lemma insertAscending_length x l :
  length (insertAscending x l) = S (length l).
Proof.
  induction l as [|y l IH]; [done|]. simpl.
  destruct (leb x y); simpl; by rewrite ?IH.
Qed.

Lemma sortBy_length l : length (sortBy l) = length l.
Proof.
  induction l as [|x l IH]; [done|]. simpl.
  by rewrite insertAscending_length, IH.
Qed.

Lemma elem_of_insertAscending x y l :
  y ∈ insertAscending x l ↔ y = x ∨ y ∈ l.
Proof.
  induction l as [|z l IH]; simpl.
  - by rewrite list_elem_of_singleton, elem_of_nil; intuition.
  - destruct (leb x z).
    + by rewrite !elem_of_cons.
    + rewrite !elem_of_cons, IH. intuition.
Qed.

Lemma elem_of_sortBy y l : y ∈ sortBy l ↔ y ∈ l.
Proof.
  induction l as [|x l IH]; [done|]. simpl.
  by rewrite elem_of_insertAscending, elem_of_cons, IH.
Qed.

(** What the filter of the candidate sizes lets through. *)
Lemma filtered_height ratio sourceWidth (l : list num) size :
  size ∈ filter (λ size,
            Is_true (leb size CONTENTFUL_IMAGE_MAX_SIZE
                     && leb (round (div size ratio)) CONTENTFUL_IMAGE_MAX_SIZE
                     && leb size sourceWidth)) l →
  le (round (div size ratio)) CONTENTFUL_IMAGE_MAX_SIZE.
Proof.
  intros [Hsize _]%list_elem_of_filter.
  apply Is_true_true in Hsize.
  apply andb_true_iff in Hsize as [Hsize _].
  by apply andb_true_iff in Hsize as [_ Hsize].
Qed.

(** X2. For a raster asset, [resolveFixed] and [resolveFluid] return a
    result, and every candidate of its [srcSet] asks the image API for its
    own width and for the height that goes with that width at the aspect
    ratio of the result; that height is at most 4000. *)
Theorem srcSet_heights_bounded (showNum : num → string) image options fl_ :
  file image = Some fl_ → isImage image = true →
  ∃ fixed fluid,
    (resolveFixed image options).1 = Some fixed
    ∧ (resolveFluid showNum image options).1 = Some fluid
    ∧ Forall (candidateOk (fixed_aspectRatio fixed)) (fixed_srcSet fixed)
    ∧ Forall (candidateOk (fluid_aspectRatio fluid)) (fluid_srcSet fluid).
Proof.
  intros Hfile Himage.
  assert (Hfixed : ∃ fixed,
    (resolveFixed image options).1 = Some fixed
    ∧ Forall (candidateOk (fixed_aspectRatio fixed)) (fixed_srcSet fixed)).
  { unfold resolveFixed. rewrite Hfile, Himage. cbv zeta. cbn [negb].
    match goal with
    | |- context [if truthyNum ?x then _ else _] => destruct (truthyNum x)
    end; (eexists; split; [reflexivity|]).
    all: cbn [fixed_srcSet fixed_aspectRatio].
    all: apply list.Forall_forall; intros c Hc.
    all: apply elem_of_lookup_imap_1 in Hc as (i & size & -> & Hsize).
    all: apply list_elem_of_lookup_2 in Hsize.
    all: apply (proj1 (elem_of_sortBy _ _)) in Hsize.
    all: split; [done|]; split; [done|]; cbn [ExtendNodeType.size].
    all: by eapply filtered_height. }
  assert (Hfluid : ∃ fluid,
    (resolveFluid showNum image options).1 = Some fluid
    ∧ Forall (candidateOk (fluid_aspectRatio fluid)) (fluid_srcSet fluid)).
  { unfold resolveFluid. rewrite Hfile, Himage. cbv zeta. cbn [negb].
    eexists; split; [reflexivity|].
    cbn [fluid_srcSet fluid_aspectRatio].
    apply list.Forall_forall. intros c Hc.
    apply list_elem_of_fmap in Hc as (size & -> & Hsize).
    apply (proj1 (elem_of_sortBy _ _)) in Hsize.
    split; [done|]. split; [done|]. cbn [ExtendNodeType.size].
    revert Hsize.
    match goal with
    | |- context [if ?c then _ else _] => destruct c eqn:Hc
    end; [|by apply filtered_height].
    intros [Hsize| ->%list_elem_of_singleton]%elem_of_app;
      [by eapply filtered_height|].
    apply andb_true_iff in Hc as [_ Hc]. by apply ImageFacts.ltb_leb. }
  destruct Hfixed as (fixed & ? & ?), Hfluid as (fluid & ? & ?).
  by exists fixed, fluid.
Qed.

Lemma srcSet_heights_bounded_witness :
  file sampleImage = Some sampleFile ∧ isImage sampleImage = true
  ∧ ∃ fixed fluid,
      (resolveFixed sampleImage (set_width (Some (ofZ 300)) noOptions)).1
        = Some fixed
      ∧ (resolveFluid (λ _, "300"%string) sampleImage
           (set_width (Some (ofZ 300)) noOptions)).1 = Some fluid
      ∧ Forall (candidateOk (fixed_aspectRatio fixed)) (fixed_srcSet fixed)
      ∧ Forall (candidateOk (fluid_aspectRatio fluid)) (fluid_srcSet fluid).
Proof.
  split; [reflexivity|]. split; [reflexivity|].
  apply (srcSet_heights_bounded (λ _, "300"%string) sampleImage
           (set_width (Some (ofZ 300)) noOptions) sampleFile);
    reflexivity.
Defined.

(** X3. The [srcSet] of [resolveFixed] has at most four candidates, and
    the candidate at position [i] carries the [i]-th of the resolutions
    1x, 1.5x, 2x and 3x: no candidate is left without a resolution. *)
Theorem fixed_srcSet_resolutions image options fixed :
  (resolveFixed image options).1 = Some fixed →
  (length (fixed_srcSet fixed) ≤ 4)%nat
  ∧ ∀ i c, fixed_srcSet fixed !! i = Some c →
      ∃ resolution,
        resolutionOf i = Some resolution
        ∧ descriptor c = Resolution (Some resolution).
Proof.
  unfold resolveFixed.
  destruct (file image) as [fl_|]; [|done].
  destruct (negb (isImage image)); [done|]. cbv zeta.
  match goal with
  | |- context [imap ?f (sortBy (filter ?P ?l))] =>
    assert (Hlength : (length (imap f (sortBy (filter P l))) ≤ 4)%nat)
      by (rewrite length_imap, sortBy_length;
          etrans; [apply length_filter|done]);
    assert (Hdescriptor : ∀ i c,
      imap f (sortBy (filter P l)) !! i = Some c →
      descriptor c = Resolution (resolutionOf i))
      by (intros i c Hc; rewrite list_lookup_imap in Hc;
          destruct (sortBy (filter P l) !! i); by simplify_eq/=)
  end.
  match goal with
  | |- context [if truthyNum ?x then _ else _] => destruct (truthyNum x)
  end; intros [= <-]; cbn [fixed_srcSet].
  all: split; [done|]; intros i c Hc.
  all: rewrite (Hdescriptor i c Hc).
  all: apply lookup_lt_Some in Hc.
  all: assert (i < 4)%nat as Hi
    by (eapply Nat.lt_le_trans; [exact Hc|exact Hlength]).
  all: destruct i as [|[|[|[|i]]]]; [by eexists..|lia].
Qed.

Lemma fixed_srcSet_resolutions_witness :
  ∃ fixed,
    (resolveFixed sampleImage (set_width (Some (ofZ 300)) noOptions)).1
    = Some fixed
    ∧ (length (fixed_srcSet fixed) ≤ 4)%nat
    ∧ ∀ i c, fixed_srcSet fixed !! i = Some c →
        ∃ resolution,
          resolutionOf i = Some resolution
          ∧ descriptor c = Resolution (Some resolution).
Proof.
  eexists. split; [reflexivity|].
  exact (fixed_srcSet_resolutions sampleImage
           (set_width (Some (ofZ 300)) noOptions) _ eq_refl).
Defined.

(** X4. [resolveFluid] offers the source image itself: when the width of
    the source is below 4000 and so is the height that goes with it at
    the aspect ratio of the result, the [srcSet] has a candidate of the
    width of the source. *)
Theorem fluid_srcSet_has_original showNum image options fl_ fluid :
  file image = Some fl_ →
  (resolveFluid showNum image options).1 = Some fluid →
  ltb (ofZ (details_image_width fl_)) CONTENTFUL_IMAGE_MAX_SIZE = true →
  ltb (round (div (ofZ (details_image_width fl_)) (fluid_aspectRatio fluid)))
      CONTENTFUL_IMAGE_MAX_SIZE = true →
  ∃ c, c ∈ fluid_srcSet fluid
       ∧ sameValueZero (ofZ (details_image_width fl_)) (size c) = true.
Proof.
  intros Hfile. unfold resolveFluid. rewrite Hfile.
  destruct (negb (isImage image)); [done|]. cbv zeta.
  change (props_width (getBasicImageProps fl_ options))
    with (ofZ (details_image_width fl_)).
  intros Heq. cbn [fst] in Heq. apply (inj Some) in Heq. subst fluid.
  unfold fluid_srcSet, fluid_aspectRatio.
  intros Hwidth Hheight. rewrite Hwidth, Hheight.
  match goal with
  | |- context [includes ?l ?x] => destruct (includes l x) eqn:Hincludes
  end; cbn [negb andb].
  - apply existsb_exists in Hincludes as (x & Hx & Hsame).
    eexists. split.
    + apply list_elem_of_fmap_2, elem_of_sortBy, list_elem_of_In, Hx.
    + exact Hsame.
  - eexists. split.
    + apply list_elem_of_fmap_2, elem_of_sortBy, elem_of_app. right.
      apply list_elem_of_here.
    + apply Qeq_bool_iff. reflexivity.
Qed.

Lemma fluid_srcSet_has_original_witness :
  ∃ fluid c,
    (resolveFluid (λ _, "800"%string) sampleImage noOptions).1 = Some fluid
    ∧ c ∈ fluid_srcSet fluid
    ∧ sameValueZero (ofZ 800) (size c) = true.
Proof.
  eexists.
  destruct (fluid_srcSet_has_original (λ _, "800"%string) sampleImage
              noOptions sampleFile _ eq_refl eq_refl eq_refl eq_refl)
    as (c & Hc & Hsame).
  exists c. split; [reflexivity|]. by split.
Defined.

End SrcSetFacts.

(** ** The WebP fields *)

Module WebpFacts.
Import JsNum ExtendNodeType ImageSpec.

Lemma Forall2_imap {A B C} (R : B → C → Prop) (f : nat → A → B)
    (g : nat → A → C) l :
  (∀ i x, R (f i x) (g i x)) → Forall2 R (imap f l) (imap g l).
Proof.
  revert f g. induction l as [|x l IH]; intros f g Hfg; simpl.
  - constructor.
  - constructor; [apply Hfg|]. apply IH. intros i y. apply Hfg.
Qed.

Lemma Forall2_map {A B C} (R : B → C → Prop) (f : A → B) (g : A → C) l :
  (∀ x, R (f x) (g x)) → Forall2 R (map f l) (map g l).
Proof. intros Hfg. induction l; simpl; by constructor. Qed.

Lemma webpOf_createUrl imgUrl options :
  webpOf (createUrl imgUrl options)
    (createUrl imgUrl (set_toFormat (Some "webp"%string) options)).
Proof. by repeat split. Qed.

Lemma reformatted_webp imgUrl srcSet' srcSet :
  Forall2 (reformatted imgUrl (Some "webp"%string)) srcSet' srcSet →
  webpSrcSetOf srcSet srcSet'.
Proof.
  intros Hall. eapply Forall2_impl; [exact Hall|].
  intros c' c (Hsize & Hdescriptor & o & -> & ->).
  split; [done|]. split; [done|]. apply webpOf_createUrl.
Qed.

(** [resolveFixed] on the options it left, in whatever format, gives the
    result it gave, in that format, and leaves the options as they are. *)
Lemma resolveFixed_again image options fixed options' format :
  resolveFixed image options = (Some fixed, options') →
  ∃ fixed',
    resolveFixed image (set_toFormat format options')
    = (Some fixed', set_toFormat format options')
    ∧ fixed_src fixed = createUrl (fixed_baseUrl fixed) options'
    ∧ fixed_src fixed'
      = createUrl (fixed_baseUrl fixed) (set_toFormat format options')
    ∧ Forall2 (reformatted (fixed_baseUrl fixed) format)
        (fixed_srcSet fixed') (fixed_srcSet fixed).
Proof.
  intros Heq. unfold resolveFixed in *.
  destruct (file image) as [fl_|]; [|done].
  destruct (negb (isImage image)); [done|].
  destruct options as [ww hh mw mh qq tf jp rb cf bgd sz].
  destruct ww as [ww|], hh as [hh|]; destruct (truthyStr rb) eqn:Hrb;
    cbn -[filter sortBy] in Heq; rewrite ?Hrb in Heq;
    cbn -[filter sortBy] in Heq.
  all: try (destruct (truthy hh) eqn:Hh; cbn -[filter sortBy] in Heq).
  all: apply (inj2 pair) in Heq as [Hfixed <-];
    apply (inj Some) in Hfixed; subst fixed.
  all: cbn -[filter sortBy]; rewrite ?Hrb; cbn -[filter sortBy];
    rewrite ?Hh; cbn -[filter sortBy].
  all: eexists; split; [reflexivity|].
  all: split; [reflexivity|]; split; [reflexivity|].
  all: cbn [fixed_srcSet fixed_baseUrl].
  all: apply Forall2_imap; intros i x.
  all: split; [reflexivity|]; split; [reflexivity|].
  all: eexists; split; reflexivity.
Qed.

(** X5. The WebP fields of a [fixed] node.  They are [null] for a WebP
    asset and for a request in WebP.  Otherwise [srcWebp] is the request
    of [src] and [srcSetWebp] the candidates of [srcSet], width by width
    and descriptor by descriptor, all in WebP: the same target, size,
    quality, fit, focus and background, the format [webp] and no
    [progressive] flag. *)
Theorem fixed_webp_mirrors_source image options parent :
  fixedNodeResolve image options = Some parent →
  if isWebp image (fixedNode_options parent)
  then fixedSrcWebp parent = None ∧ fixedSrcSetWebp parent = None
  else ∃ src srcSet,
    fixedSrcWebp parent = Some src
    ∧ fixedSrcSetWebp parent = Some srcSet
    ∧ webpOf (fixed_src (fixedNode_fixed parent)) src
    ∧ webpSrcSetOf (fixed_srcSet (fixedNode_fixed parent)) srcSet.
Proof.
  unfold fixedNodeResolve.
  destruct (resolveFixed image options) as [[fixed|] options'] eqn:Hfixed;
    [|done].
  intros [= <-]. unfold fixedSrcWebp, fixedSrcSetWebp.
  cbn [fixedNode_fixed fixedNode_image fixedNode_options].
  destruct (isWebp image options'); [done|].
  destruct (resolveFixed_again _ _ _ _ (Some "webp"%string) Hfixed)
    as (fixed' & -> & Hsrc & Hsrc' & Hset).
  exists (fixed_src fixed'), (fixed_srcSet fixed').
  split; [done|]. split; [done|]. split.
  - rewrite Hsrc, Hsrc'. apply webpOf_createUrl.
  - by eapply reformatted_webp.
Qed.

Lemma fixed_webp_mirrors_source_witness :
  ∃ parent src srcSet,
    fixedNodeResolve sampleImage (set_width (Some (ofZ 300)) noOptions)
    = Some parent
    ∧ fixedSrcWebp parent = Some src
    ∧ fixedSrcSetWebp parent = Some srcSet
    ∧ webpOf (fixed_src (fixedNode_fixed parent)) src
    ∧ webpSrcSetOf (fixed_srcSet (fixedNode_fixed parent)) srcSet.
Proof.
  eexists. 
  destruct (fixed_webp_mirrors_source sampleImage
              (set_width (Some (ofZ 300)) noOptions) _ eq_refl)
    as (src & srcSet & H).
  exists src, srcSet. split; [reflexivity|exact H].
Defined.

Lemma defaultSizes_truthy showNum n :
  truthyStr (Some (defaultSizes showNum n)) = true.
Proof. reflexivity. Qed.

(** [resolveFluid] on the options it left, in whatever format, gives the
    result it gave, in that format, and leaves the options as they are. *)
Lemma resolveFluid_again showNum image options fluid options' format :
  resolveFluid showNum image options = (Some fluid, options') →
  ∃ fluid' imgUrl,
    resolveFluid showNum image (set_toFormat format options')
    = (Some fluid', set_toFormat format options')
    ∧ fluid_src fluid
      = createUrl (fluid_baseUrl fluid)
          (set_height (maxHeight options')
             (set_width (maxWidth options') options'))
    ∧ fluid_src fluid'
      = createUrl (fluid_baseUrl fluid)
          (set_toFormat format
             (set_height (maxHeight options')
                (set_width (maxWidth options') options')))
    ∧ fluid_sizes fluid' = fluid_sizes fluid
    ∧ Forall2 (reformatted imgUrl format)
        (fluid_srcSet fluid') (fluid_srcSet fluid).
Proof.
  intros Heq. unfold resolveFluid in *.
  destruct (file image) as [fl_|]; [|done].
  destruct (negb (isImage image)); [done|].
  destruct options as [ww hh mw mh qq tf jp rb cf bgd sz].
  destruct mw as [mw|], mh as [mh|]; destruct (truthyStr sz) eqn:Hsz;
    cbn -[filter sortBy defaultSizes] in Heq; rewrite ?Hsz in Heq;
    cbn -[filter sortBy defaultSizes] in Heq.
  all: apply (inj2 pair) in Heq as [Hfluid <-];
    apply (inj Some) in Hfluid; subst fluid.
  all: cbn -[filter sortBy defaultSizes];
    rewrite ?Hsz, ?defaultSizes_truthy; cbn -[filter sortBy defaultSizes].
  all: eexists _, (url fl_); split; [reflexivity|].
  all: split; [reflexivity|]; split; [reflexivity|]; split; [reflexivity|].
  all: cbn [fluid_srcSet].
  all: apply Forall2_map; intros x.
  all: split; [reflexivity|]; split; [reflexivity|].
  all: eexists; split; reflexivity.
Qed.

(** X6. The WebP fields of a [fluid] node.  They are [null] for a WebP
    asset and for a request in WebP.  Otherwise [srcWebp] is the request
    of [src] and [srcSetWebp] the candidates of [srcSet], width by width
    and descriptor by descriptor, all in WebP: the same target, size,
    quality, fit, focus and background, the format [webp] and no
    [progressive] flag. *)
Theorem fluid_webp_mirrors_source showNum image options parent :
  fluidNodeResolve showNum image options = Some parent →
  if isWebp image (fluidNode_options parent)
  then fluidSrcWebp showNum parent = None
       ∧ fluidSrcSetWebp showNum parent = None
  else ∃ src srcSet,
    fluidSrcWebp showNum parent = Some src
    ∧ fluidSrcSetWebp showNum parent = Some srcSet
    ∧ webpOf (fluid_src (fluidNode_fluid parent)) src
    ∧ webpSrcSetOf (fluid_srcSet (fluidNode_fluid parent)) srcSet.
Proof.
  unfold fluidNodeResolve.
  destruct (resolveFluid showNum image options) as [[fluid|] options']
    eqn:Hfluid; [|done].
  intros [= <-]. unfold fluidSrcWebp, fluidSrcSetWebp.
  cbn [fluidNode_fluid fluidNode_image fluidNode_options].
  destruct (isWebp image options'); [done|].
  destruct (resolveFluid_again _ _ _ _ _ (Some "webp"%string) Hfluid)
    as (fluid' & imgUrl & -> & Hsrc & Hsrc' & _ & Hset).
  exists (fluid_src fluid'), (fluid_srcSet fluid').
  split; [done|]. split; [done|]. split.
  - rewrite Hsrc, Hsrc'. apply webpOf_createUrl.
  - by eapply reformatted_webp.
Qed.

Lemma fluid_webp_mirrors_source_witness :
  ∃ parent src srcSet,
    fluidNodeResolve (λ _, "800"%string) sampleImage noOptions = Some parent
    ∧ fluidSrcWebp (λ _, "800"%string) parent = Some src
    ∧ fluidSrcSetWebp (λ _, "800"%string) parent = Some srcSet
    ∧ webpOf (fluid_src (fluidNode_fluid parent)) src
    ∧ webpSrcSetOf (fluid_srcSet (fluidNode_fluid parent)) srcSet.
Proof.
  eexists.
  destruct (fluid_webp_mirrors_source (λ _, "800"%string) sampleImage
              noOptions _ eq_refl)
    as (src & srcSet & H).
  exists src, srcSet. split; [reflexivity|exact H].
Defined.

End WebpFacts.

(** ** The fetches of the placeholder cache *)

Module FetchFacts.
Import ExtendNodeType CacheSpec.

Section Fetches.

Variable renderUrl : Url → string.

Lemma getBase64Image_accounted imageProps st :
  accounted st → accounted (getBase64Image renderUrl imageProps st).2.
Proof.
  intros (Hres & Hfetch & Hnodup).
  destruct (CacheFacts.getBase64Image_cases renderUrl imageProps st)
    as [->|(ip & -> & Hnone & Hfl & ->)]; [done|].
  set (requestUrl := requestUrlOf renderUrl (imageProps_baseUrl ip)) in *.
  assert (Hfresh : requestUrl ∉ (fetches st).*1).
  { intros ([url s] & Hurl & Hin)%list_elem_of_fmap. simpl in Hurl. subst url.
    apply list_elem_of_lookup in Hin as [n Hn].
    specialize (Hfetch n requestUrl s Hn).
    destruct s as [|body|reason]; try congruence.
    rewrite Hfetch in Hnone.
    rewrite (CacheFacts.orUndefinedStr_Some _ body) in Hnone; [done..|].
    by eapply Hres. }
  split; [done|]. cbn. split.
  - intros n url s Hn. apply lookup_app_Some in Hn as [Hn|[Hlen Hn]].
    + assert (url ≠ requestUrl).
      { intros ->. apply Hfresh.
        apply (list_elem_of_fmap_2' fst _ (requestUrl, s)); [|done].
        by eapply list_elem_of_lookup_2. }
      specialize (Hfetch n url s Hn).
      destruct s; [|done|]; by rewrite lookup_insert_ne.
    + destruct (n - length (fetches st))%nat as [|k] eqn:Hk; [|done].
      simplify_eq/=. assert (n = length (fetches st)) as -> by lia.
      by rewrite lookup_insert_eq.
  - rewrite fmap_app. apply NoDup_app. split; [done|]. split.
    + intros url Hurl [->|[]%elem_of_nil]%elem_of_cons. done.
    + apply NoDup_singleton.
Qed.

Lemma settle_accounted n result st :
  accounted st → accounted (settle n result st).
Proof.
  intros (Hres & Hfetch & Hnodup). unfold settle.
  destruct (fetches st !! n) as [[requestUrl [| |]]|] eqn:Hn; try done.
  assert (Hlt : (n < length (fetches st))%nat) by by eapply lookup_lt_Some.
  assert (Hother : ∀ n' url' s' s,
    <[n := (requestUrl, s)]> (fetches st) !! n' = Some (url', s') →
    n' = n ∧ url' = requestUrl ∧ s' = s
    ∨ n' ≠ n ∧ url' ≠ requestUrl ∧ fetches st !! n' = Some (url', s')).
  { intros n' url' s' s Hn'.
    destruct (decide (n' = n)) as [->|Hne].
    - rewrite list_lookup_insert_eq in Hn' by done. left. by simplify_eq.
    - rewrite list_lookup_insert_ne in Hn' by done. right.
      split; [done|]. split; [|done]. intros ->. apply Hne.
      eapply (NoDup_lookup _ n' n requestUrl Hnodup);
        rewrite list_lookup_fmap; [by rewrite Hn'|by rewrite Hn]. }
  assert (Hurls : ∀ s,
    (<[n := (requestUrl, s)]> (fetches st)).*1 = (fetches st).*1).
  { intros s. rewrite list_fmap_insert. apply list_insert_id.
    by rewrite list_lookup_fmap, Hn. }
  destruct result as [base64|reason]; (split; [|split]); cbn.
  - intros url body. destruct (decide (requestUrl = url)) as [<-|Hne].
    + rewrite lookup_insert_eq. by intros [= <-].
    + rewrite lookup_insert_ne by done. apply Hres.
  - intros n' url' s' Hn'.
    destruct (Hother _ _ _ _ Hn') as [(-> & -> & ->)|(Hne & Hurl & Hold)].
    + by rewrite lookup_insert_eq.
    + specialize (Hfetch n' url' s' Hold).
      destruct s'; by rewrite ?lookup_insert_ne, ?lookup_delete_ne.
  - by rewrite Hurls.
  - done.
  - intros n' url' s' Hn'.
    destruct (Hother _ _ _ _ Hn') as [(-> & -> & ->)|(Hne & Hurl & Hold)].
    + by apply (Hfetch n requestUrl Pending).
    + by apply Hfetch.
  - by rewrite Hurls.
Qed.

Lemma reachable_accounted st : reachable renderUrl st → accounted st.
Proof.
  induction 1 as [|st imageProps _ IH|st n result _ IH].
  - split; [|split]; cbn.
    + intros url body H. by rewrite lookup_empty in H.
    + intros n url s H. by rewrite lookup_nil in H.
    + constructor.
  - by apply getBase64Image_accounted.
  - by apply settle_accounted.
Qed.

Lemma reachable_placeholders st :
  reachable renderUrl st →
  ∀ n url s, fetches st !! n = Some (url, s) → placeholderRequest renderUrl url.
Proof.
  induction 1 as [|st imageProps _ IH|st n result _ IH]; intros n' url s.
  - cbn. by rewrite lookup_nil.
  - unfold getBase64Image. destruct imageProps as [ip|]; [|apply IH].
    case_bool_decide as Hcdn; [apply IH|]. cbv zeta.
    destruct (orUndefinedStr _); [apply IH|].
    destruct (inFlightBase64Cache st !! _); [apply IH|]. cbn.
    intros [Hn|[_ Hn]]%lookup_app_Some; [by eapply IH|].
    destruct (n' - length (fetches st))%nat; [|done]. simplify_eq/=.
    by exists (imageProps_baseUrl ip).
  - unfold settle.
    destruct (fetches st !! n) as [[requestUrl [| |]]|] eqn:Hn;
      try apply IH.
    assert (∀ s', <[n := (requestUrl, s')]> (fetches st) !! n'
                  = Some (url, s) → placeholderRequest renderUrl url).
    { intros s' Hn'. destruct (decide (n' = n)) as [->|Hne].
      - rewrite list_lookup_insert_eq in Hn' by by eapply lookup_lt_Some.
        simplify_eq. by eapply IH.
      - rewrite list_lookup_insert_ne in Hn' by done. by eapply IH. }
    destruct result; cbn; eauto.
Qed.

End Fetches.

(** X7. Whatever calls were made and however their fetches settled, no
    URL was fetched twice: a fetch that is pending or failed stays in
    flight for its URL, and one that succeeded left a body that later
    calls return at once. *)
Theorem no_url_is_fetched_twice (renderUrl : Url → string) st :
  reachable renderUrl st → NoDup (fetches st).*1.
Proof. intros Hreach. by apply (reachable_accounted renderUrl). Qed.

Lemma no_url_is_fetched_twice_witness :
  NoDup (fetches
           (getBase64Image sampleRender (Some sampleProps)
              (settle 0 (inr "ETIMEDOUT"%string) afterFirstCall)).2).*1.
Proof.
  apply (no_url_is_fetched_twice sampleRender).
  apply reachable_call, reachable_settle, reachable_call, reachable_start.
Defined.

(** X8. Whatever calls were made and however their fetches settled, every
    fetch was for the placeholder request (width 20, format jpg) of an
    asset whose URL holds [images.ctfassets.net]. *)
Theorem only_placeholders_are_fetched (renderUrl : Url → string) st n url s :
  reachable renderUrl st →
  fetches st !! n = Some (url, s) →
  placeholderRequest renderUrl url.
Proof. intros Hreach. by apply reachable_placeholders. Qed.

Lemma only_placeholders_are_fetched_witness :
  placeholderRequest sampleRender sampleRequestUrl.
Proof.
  apply (only_placeholders_are_fetched sampleRender afterFirstCall 0
           sampleRequestUrl Pending).
  - apply reachable_call, reachable_start.
  - reflexivity.
Defined.

(** X9. When the fetch of a placeholder succeeds, the waiters on its
    promise get the data URI of the file; the URL leaves the in-flight map
    and the data URI enters the resolved map; the next call for the URL
    returns the data URI itself, not a promise, and changes nothing. *)
Theorem fetched_placeholder_is_served_at_once
    (renderUrl : Url → string) st imageProps n base64 :
  String.index 0 "images.ctfassets.net" (imageProps_baseUrl imageProps) ≠ None →
  fetches st !! n
    = Some (requestUrlOf renderUrl (imageProps_baseUrl imageProps), Pending) →
  let requestUrl := requestUrlOf renderUrl (imageProps_baseUrl imageProps) in
  let body := ("data:image/jpeg;base64," +:+ base64)%string in
  let fetched := settle n (inl base64) st in
  promiseState (Then n) fetched = Fulfilled body
  ∧ promiseState (LoadImage n) fetched = Fulfilled body
  ∧ inFlightBase64Cache fetched !! requestUrl = None
  ∧ resolvedBase64Cache fetched !! requestUrl = Some body
  ∧ getBase64Image renderUrl (Some imageProps) fetched = (Body body, fetched).
Proof.
  intros Hcdn Hn requestUrl body fetched.
  assert (Hfetched : fetched
    = {| inFlightBase64Cache := delete requestUrl (inFlightBase64Cache st);
         resolvedBase64Cache := <[requestUrl := body]> (resolvedBase64Cache st);
         fetches := <[n := (requestUrl, Fulfilled body)]> (fetches st) |}).
  { unfold fetched, settle. by rewrite Hn. }
  assert (Hstate : fetches fetched !! n = Some (requestUrl, Fulfilled body)).
  { rewrite Hfetched. cbn. apply list_lookup_insert_eq.
    by eapply lookup_lt_Some. }
  assert (Hres : resolvedBase64Cache fetched !! requestUrl = Some body).
  { rewrite Hfetched. cbn. apply lookup_insert_eq. }
  split; [|split; [|split; [|split]]].
  - unfold promiseState. by rewrite Hstate.
  - unfold promiseState. by rewrite Hstate.
  - rewrite Hfetched. cbn. apply lookup_delete_eq.
  - done.
  - unfold getBase64Image. rewrite bool_decide_eq_false_2 by done. cbv zeta.
    fold requestUrl. rewrite Hres.
    by rewrite (CacheFacts.orUndefinedStr_Some _ body).
Qed.

Lemma fetched_placeholder_is_served_at_once_witness :
  let fetched := settle 0 (inl "AAAA"%string) afterFirstCall in
  promiseState (Then 0) fetched = Fulfilled "data:image/jpeg;base64,AAAA"
  ∧ promiseState (LoadImage 0) fetched
    = Fulfilled "data:image/jpeg;base64,AAAA"
  ∧ inFlightBase64Cache fetched !! sampleRequestUrl = None
  ∧ resolvedBase64Cache fetched !! sampleRequestUrl
    = Some "data:image/jpeg;base64,AAAA"%string
  ∧ getBase64Image sampleRender (Some sampleProps) fetched
    = (Body "data:image/jpeg;base64,AAAA", fetched).
Proof.
  exact (fetched_placeholder_is_served_at_once sampleRender afterFirstCall
           sampleProps 0 "AAAA" ltac:(by vm_compute) ltac:(by vm_compute)).
Defined.

End FetchFacts.

(** ** Node ids *)

Module IdFacts.
Import Js Normalize.

Lemma substring_all s : String.substring 0 (String.length s) s = s.
Proof. induction s as [|c s IH]; [done|]. simpl. by rewrite IH. Qed.

Lemma length_app a b :
  String.length (a +:+ b) = (String.length a + String.length b)%nat.
Proof.
  induction a as [|c a IH]; [done|].
  change (String c a +:+ b) with (String c (a +:+ b)). simpl. by rewrite IH.
Qed.

Lemma app_longer a b : b ≠ ""%string → a ≠ a +:+ b.
Proof.
  intros Hb Heq. apply (f_equal String.length) in Heq.
  rewrite length_app in Heq. destruct b; [done|]. simpl in Heq. lia.
Qed.

(** X10. The id of a deletion is the id of what it deletes: a type that
    starts with [Deleted] counts as the rest of it. *)
Theorem makeId_of_deletion spaceId id currentLocale defaultLocale type :
  String.prefix "Deleted" type = false →
  makeId spaceId id currentLocale defaultLocale (VStr ("Deleted" +:+ type))
  = makeId spaceId id currentLocale defaultLocale (VStr type).
Proof.
  intros Hplain. unfold makeId. rewrite Hplain.
  change (String.prefix "Deleted" ("Deleted" +:+ type))
    with (String.prefix "" type).
  replace (String.prefix "" type) with true by by destruct type.
  change (String.substring 7 (String.length ("Deleted" +:+ type) - 7)
            ("Deleted" +:+ type))
    with (String.substring 0 (String.length type - 0) type).
  by rewrite Nat.sub_0_r, substring_all.
Qed.

Lemma makeId_of_deletion_witness :
  makeId "space" (VStr "post1") "de" "en" (VStr "DeletedEntry")
  = makeId "space" (VStr "post1") "de" "en" (VStr "Entry").
Proof.
  exact (makeId_of_deletion "space" (VStr "post1") "de" "en" "Entry" eq_refl).
Defined.

(** X11. One entity has a different id in every locale: none but the
    default locale's is without the locale code at its end. *)
Theorem makeId_distinct_locales spaceId id defaultLocale type
    locale1 locale2 id1 id2 :
  makeId spaceId id locale1 defaultLocale type = Ok id1 →
  makeId spaceId id locale2 defaultLocale type = Ok id2 →
  locale1 ≠ locale2 → id1 ≠ id2.
Proof.
  unfold makeId. destruct type as [| | | |type| |]; try done.
  set (normalizedType := if String.prefix "Deleted" type then _ else _).
  intros [= <-] [= <-] Hne.
  destruct (String.eqb_spec locale1 defaultLocale) as [->|H1],
           (String.eqb_spec locale2 defaultLocale) as [->|H2];
    try done; intros Heq;
    repeat apply (inj (String.app _)) in Heq.
  - by apply app_longer in Heq.
  - symmetry in Heq. by apply app_longer in Heq.
  - done.
Qed.

Lemma makeId_distinct_locales_witness :
  ("space___post1___Entry" : string) ≠ "space___post1___Entry___de"%string.
Proof.
  exact (makeId_distinct_locales "space" (VStr "post1") "en" (VStr "Entry")
           "en" "de" _ _ eq_refl eq_refl ltac:(done)).
Defined.

End IdFacts.

(** ** The fallback table *)

Module FallbackFacts.
Import Js Normalize NormalizeSpec ObjFacts.

Lemma keys_set_fresh k v o : get k o = None → keys (set k v o) = keys o ++ [k].
Proof.
  unfold keys. induction o as [|[k0 v0] o IH]; [done|]. simpl.
  destruct (String.eqb_spec k k0) as [->|Hne]; [done|].
  intros Hget. cbn. f_equal. by apply IH.
Qed.

(** While no callback returns [false], [_.each] goes on. *)
Lemma buildFallbackChainFrom_cons localesFallback locale locales :
  fallbackCode locale ≠ VBool false →
  buildFallbackChainFrom localesFallback (locale :: locales)
  = buildFallbackChainFrom
      (set (code locale) (fallbackCode locale) localesFallback) locales.
Proof. simpl. by destruct (fallbackCode locale) as [| |[]| | | |]. Qed.

Lemma buildFallbackChainFrom_other localesFallback locales k :
  (∀ locale, locale ∈ locales → fallbackCode locale ≠ VBool false) →
  k ∉ code <$> locales →
  get k (buildFallbackChainFrom localesFallback locales)
  = get k localesFallback.
Proof.
  revert localesFallback.
  induction locales as [|locale locales IH]; intros localesFallback Hgo Hk;
    [done|].
  rewrite buildFallbackChainFrom_cons by apply Hgo, list_elem_of_here.
  rewrite IH.
  - apply get_set_ne. intros Heq. apply Hk. rewrite fmap_cons, Heq.
    apply list_elem_of_here.
  - intros l Hl. by apply Hgo, list_elem_of_further.
  - intros Hin. apply Hk. rewrite fmap_cons. by apply list_elem_of_further.
Qed.

Lemma buildFallbackChainFrom_lookup localesFallback locales locale :
  NoDup (code <$> locales) →
  (∀ locale, locale ∈ locales → fallbackCode locale ≠ VBool false) →
  locale ∈ locales →
  get (code locale) (buildFallbackChainFrom localesFallback locales)
  = Some (fallbackCode locale).
Proof.
  revert localesFallback.
  induction locales as [|first locales IH];
    intros localesFallback Hnodup Hgo Hin; [by apply elem_of_nil in Hin|].
  rewrite fmap_cons in Hnodup. apply NoDup_cons in Hnodup as [Hfirst Hnodup].
  rewrite buildFallbackChainFrom_cons by apply Hgo, list_elem_of_here.
  apply elem_of_cons in Hin as [->|Hin].
  - rewrite buildFallbackChainFrom_other; [apply get_set_eq| |done].
    intros l Hl. by apply Hgo, list_elem_of_further.
  - apply IH; [done| |done].
    intros l Hl. by apply Hgo, list_elem_of_further.
Qed.

Lemma buildFallbackChainFrom_keys localesFallback locales :
  NoDup (code <$> locales) →
  (∀ locale, locale ∈ locales → fallbackCode locale ≠ VBool false) →
  (∀ locale, locale ∈ locales → get (code locale) localesFallback = None) →
  keys (buildFallbackChainFrom localesFallback locales)
  = keys localesFallback ++ (code <$> locales).
Proof.
  revert localesFallback.
  induction locales as [|first locales IH];
    intros localesFallback Hnodup Hgo Hfresh; [by rewrite app_nil_r|].
  rewrite fmap_cons in Hnodup. apply NoDup_cons in Hnodup as [Hfirst Hnodup].
  rewrite buildFallbackChainFrom_cons by apply Hgo, list_elem_of_here.
  rewrite IH.
  - rewrite keys_set_fresh by apply Hfresh, list_elem_of_here.
    by rewrite <- app_assoc.
  - done.
  - intros l Hl. by apply Hgo, list_elem_of_further.
  - intros l Hl. rewrite get_set_ne.
    + by apply Hfresh, list_elem_of_further.
    + intros Heq. apply Hfirst. rewrite Heq. by apply list_elem_of_fmap_2.
Qed.

(** X12. For locales of distinct codes, none with the fallback code
    [false], the table of [buildFallbackChain] has the codes of the
    locales as its keys, in their order, and sends the code of every
    locale to its fallback code. *)
Theorem buildFallbackChain_lookup locales :
  NoDup (code <$> locales) →
  (∀ locale, locale ∈ locales → fallbackCode locale ≠ VBool false) →
  keys (buildFallbackChain locales) = code <$> locales
  ∧ ∀ locale, locale ∈ locales →
      get (code locale) (buildFallbackChain locales)
      = Some (fallbackCode locale).
Proof.
  intros Hnodup Hgo. unfold buildFallbackChain. split.
  - by rewrite buildFallbackChainFrom_keys.
  - intros locale Hin. by apply buildFallbackChainFrom_lookup.
Qed.

Lemma buildFallbackChain_lookup_witness :
  keys (buildFallbackChain sampleLocales) = ["en"; "de"]
  ∧ ∀ locale, locale ∈ sampleLocales →
      get (code locale) (buildFallbackChain sampleLocales)
      = Some (fallbackCode locale).
Proof.
  apply (buildFallbackChain_lookup sampleLocales).
  - by apply (bool_decide_unpack _).
  - intros locale Hin.
    repeat (apply elem_of_cons in Hin as [->|Hin]; [done|]).
    by apply elem_of_nil in Hin.
Defined.

(** X13. What [getLocalizedField] returns is never [undefined]: it is a
    value of the field, or [null]. *)
Theorem getLocalizedField_defined depth field code localesFallback v :
  getLocalizedField depth field code localesFallback = Some v →
  v ≠ VUndefined.
Proof.
  revert code. induction depth as [|depth IH]; intros code; [done|]. simpl.
  destruct (getV (toString code) field) eqn:Hfield; simpl;
    try (by intros [= <-]).
  destruct (negb (isUndefined code)
            && negb (isUndefined (getV (toString code) localesFallback)));
    [apply IH|by intros [= <-]].
Qed.

Lemma getLocalizedField_defined_witness :
  VStr "Hello" ≠ VUndefined.
Proof.
  exact (getLocalizedField_defined 3 [("en", VStr "Hello")] (VStr "de")
           (buildFallbackChain sampleLocales) (VStr "Hello") eq_refl).
Defined.

End FallbackFacts.

(** ** The entry list *)

Module EntryListFacts.
Import Js Normalize ResultFacts.
Local Open Scope js_scope.

Lemma mapE_Throw {A B} (f : A → result B) l e :
  mapE f l = Throw e → ∃ x, x ∈ l ∧ f x = Throw e.
Proof.
  induction l as [|x l IH]; [done|]. simpl.
  destruct (f x) as [y|e'] eqn:Hx; simpl.
  - destruct (mapE f l) as [ys|e'] eqn:Hl; [done|]. simpl. intros [= ->].
    destruct IH as (x' & Hin & Hx'); [done|].
    exists x'. split; [by apply list_elem_of_further|done].
  - intros [= ->]. exists x. split; [apply list_elem_of_here|done].
Qed.

(** Buckets by key hold, between them, what has one of the keys. *)
Lemma filter_key_cons {A K} `{EqDecision K} (key : A → K) k ks (l : list A) :
  k ∉ ks →
  filter (λ x, key x ∈ k :: ks) l
  ≡ₚ filter (λ x, key x = k) l ++ filter (λ x, key x ∈ ks) l.
Proof.
  intros Hk. induction l as [|x l IH]; [done|].
  rewrite !filter_cons.
  destruct (decide (key x = k)) as [Hx|Hx].
  - rewrite decide_True by (rewrite Hx; apply list_elem_of_here).
    rewrite decide_False by (by rewrite Hx). simpl. by constructor.
  - destruct (decide (key x ∈ ks)) as [Hin|Hin].
    + rewrite decide_True by by apply list_elem_of_further.
      rewrite IH. apply Permutation_middle.
    + rewrite decide_False; [done|].
      by intros [?|?]%elem_of_cons.
Qed.

Lemma concat_buckets {A K} `{EqDecision K} (key : A → K) ks (l : list A) :
  NoDup ks →
  concat ((λ k, filter (λ x, key x = k) l) <$> ks)
  ≡ₚ filter (λ x, key x ∈ ks) l.
Proof.
  induction 1 as [|k ks Hk Hnodup IH]; simpl.
  - induction l as [|x l IHl]; [done|].
    rewrite filter_cons, decide_False; [done|]. apply not_elem_of_nil.
  - by rewrite IH, filter_key_cons.
Qed.

(** X14. [buildEntryList] throws when an entry names no content type.
    Otherwise it returns one bucket for every content type, in the order
    of the content types: the entries of that type, in the order of the
    sync.  When no two content types share an id, the buckets hold,
    between them, every entry of one of the content types once, and
    nothing else. *)
Theorem buildEntryList_buckets contentTypeItems entries :
  match buildEntryList contentTypeItems entries with
  | Ok entryList =>
    Forall (λ entry, is_Some (sys_contentType (sys entry))) entries
    ∧ entryList
      = (λ contentType,
           filter (λ entry, sys_contentType (sys entry)
                            = Some (contentType_id contentType)) entries)
        <$> contentTypeItems
    ∧ (NoDup (contentType_id <$> contentTypeItems) →
       concat entryList
       ≡ₚ filter (λ entry, sys_contentType (sys entry)
                           ∈ (Some ∘ contentType_id) <$> contentTypeItems)
            entries)
  | Throw _ =>
    ∃ entry, entry ∈ entries ∧ sys_contentType (sys entry) = None
  end.
Proof.
  unfold buildEntryList.
  match goal with
  | |- context [mapE ?f entries] =>
    destruct (mapE f entries) as [tagged|e] eqn:Htagged
  end; simpl.
  - apply mapE_Ok in Htagged.
    assert (Hbucket : ∀ id,
      (filter (λ ce, ce.1 = id) tagged).*2
      = filter (λ entry, sys_contentType (sys entry) = Some id) entries).
    { intros id. induction Htagged as [|entry [ct e'] entries tagged Htag _ IH];
        [done|].
      destruct (sys_contentType (sys entry)) as [ct'|] eqn:Hct; [|done].
      injection Htag as -> ->. rewrite !filter_cons. simpl. rewrite Hct.
      destruct (decide (ct = id)) as [->|Hne].
      - rewrite decide_True by done. rewrite fmap_cons. by rewrite IH.
      - rewrite decide_False by congruence. done. }
    assert (Hlist :
      ((λ contentType,
          (filter (λ ce, ce.1 = contentType_id contentType) tagged).*2)
       <$> contentTypeItems)
      = (λ contentType,
           filter (λ entry, sys_contentType (sys entry)
                            = Some (contentType_id contentType)) entries)
        <$> contentTypeItems).
    { apply list_fmap_ext. intros _ contentType _. apply Hbucket. }
    split; [|split; [exact Hlist|]].
    + clear Hbucket Hlist.
      induction Htagged as [|entry y entries tagged Htag _ IH];
        constructor; [|done].
      by destruct (sys_contentType (sys entry)).
    + intros Hnodup. rewrite Hlist.
      rewrite <- (concat_buckets (λ entry, sys_contentType (sys entry)))
        by (rewrite list_fmap_compose; by apply (NoDup_fmap_2 Some)).
      by rewrite <- list_fmap_compose.
  - apply mapE_Throw in Htagged as (entry & Hin & Hentry).
    exists entry. split; [done|].
    by destruct (sys_contentType (sys entry)).
Qed.

End EntryListFacts.

(** ** The foreign-reference map *)

Module ReferenceMapFacts.
Import Js Normalize NormalizeSpec ResultFacts.
Local Open Scope js_scope.

Section Map.

Variable resolvable : gset string.
Variable defaultLocale : string.
Variable spaceId : string.
Variable useNameForId : bool.







End Map.



End ReferenceMapFacts.

(** ** Rich text *)

Module RichTextFacts.
Import Js Normalize NormalizeSpec ResultFacts ObjFacts.
Local Open Scope js_scope.

Lemma uniq_spec seen l :
  NoDup (uniq seen l)
  ∧ ∀ x, x ∈ uniq seen l ↔ x ∈ l ∧ x ∉ seen.
Proof.
  revert seen. induction l as [|y l IH]; intros seen; simpl.
  - split; [constructor|]. intros x. rewrite elem_of_nil. tauto.
  - case_bool_decide as Hy.
    + destruct (IH seen) as [Hnodup Hin]. split; [done|].
      intros x. rewrite Hin, elem_of_cons. split; [tauto|].
      intros [[->|Hx] Hseen]; [done|tauto].
    + destruct (IH (y :: seen)) as [Hnodup Hin]. split.
      * constructor; [|done]. rewrite Hin, elem_of_cons. tauto.
      * intros x. rewrite !elem_of_cons, Hin, elem_of_cons.
        destruct (decide (x = y)) as [->|Hne]; [tauto|]. tauto.
Qed.

Lemma filterE_Ok_elem {A} (p : A → result bool) l l' x :
  filterE p l = Ok l' → x ∈ l → p x = Ok true → x ∈ l'.
Proof.
  revert l'. induction l as [|y l IH]; intros l'; simpl.
  - intros _ Hx. by apply elem_of_nil in Hx.
  - intros H Hx Hp. apply bind_Ok in H as (b & Hb & H).
    apply bind_Ok in H as (ys & Hys & [= <-]).
    apply elem_of_cons in Hx as [->|Hx].
    + rewrite Hp in Hb. injection Hb as <-. apply list_elem_of_here.
    + specialize (IH _ Hys Hx Hp).
      destruct b; [by apply list_elem_of_further|done].
Qed.

Lemma Forall2_elem_l {A B} (R : A → B → Prop) l l' x :
  Forall2 R l l' → x ∈ l → ∃ y, y ∈ l' ∧ R x y.
Proof.
  induction 1 as [|x' y' l l' Hxy _ IH]; [by intros ?%elem_of_nil|].
  intros [->|Hx]%elem_of_cons.
  - exists y'. split; [apply list_elem_of_here|done].
  - destruct (IH Hx) as (y & Hy & HR).
    exists y. split; [by apply list_elem_of_further|done].
Qed.

Lemma Forall2_elem_r {A B} (R : A → B → Prop) l l' y :
  Forall2 R l l' → y ∈ l' → ∃ x, x ∈ l ∧ R x y.
Proof.
  induction 1 as [|x' y' l l' Hxy _ IH]; [by intros ?%elem_of_nil|].
  intros [->|Hy]%elem_of_cons.
  - exists x'. split; [apply list_elem_of_here|done].
  - destruct (IH Hy) as (x & Hx & HR).
    exists x. split; [by apply list_elem_of_further|done].
Qed.

(** The scan collects link markers only. *)
Lemma traverse_markers : ∀ o link, link ∈ traverse o → isLinkMarker link = true.
Proof.
  fix IH 1. intros [| | | | |elements|properties] link; simpl;
    try (by intros ?%elem_of_nil).
  - induction elements as [|v elements IHelements];
      [by intros ?%elem_of_nil|].
    intros [Hv|Hrest]%elem_of_app; [|by apply IHelements].
    destruct (isLinkMarker v) eqn:Hmarker.
    + by apply list_elem_of_singleton in Hv as ->.
    + destruct (truthy v && (isPlainObject v || isArray v));
        [by apply (IH v)|by apply elem_of_nil in Hv].
  - induction properties as [|[k v] properties IHproperties];
      [by intros ?%elem_of_nil|].
    intros [Hv|Hrest]%elem_of_app; [|by apply IHproperties].
    destruct (isLinkMarker v) eqn:Hmarker.
    + by apply list_elem_of_singleton in Hv as ->.
    + destruct (truthy v && (isPlainObject v || isArray v));
        [by apply (IH v)|by apply elem_of_nil in Hv].
Qed.

Section RichText.

Context `{Collaborators}.
Variable args : Args.

(** X16. The callback of the type-directed pass on a [RichText] field
    that holds an object: the field gives way to [<field>___NODE] with the
    id of a rich text node, which is pushed as a child.  The
    [references___NODE] of that node are, each once, the node ids of the
    links of the document whose target is resolvable; the links of the
    document are the objects whose [sys.type] is [Link]. *)
Theorem rich_text_references_are_resolvable contentTypeItem mId entryItem
    entryNodeId entryItemFields entryNode childrenNodes key properties st' :
  includes "___" key = false →
  fieldTypeOf args contentTypeItem key = Ok "RichText"%string →
  getV key entryItemFields = VObj properties →
  materializeField args contentTypeItem mId entryItem entryNodeId
    (entryItemFields, entryNode, childrenNodes) key = Ok st' →
  let richTextNodeId :=
    createNodeId (entryNodeId +:+ "." +:+ key +:+ ".richText") in
  ∃ ids richTextNode,
    st' = (set (key +:+ "___NODE") (VStr richTextNodeId)
             (delete key entryItemFields),
           entryNode, childrenNodes ++ [richTextNode])
    ∧ get "id" richTextNode = Some (VStr richTextNodeId)
    ∧ get "references___NODE" richTextNode = Some (VArr (VStr <$> ids))
    ∧ NoDup ids
    ∧ (∀ id, id ∈ ids ↔
         ∃ link, link ∈ traverse (VObj properties)
                 ∧ isResolvable args link = Ok true
                 ∧ linkNodeId args mId link = Ok id)
    ∧ (∀ link, link ∈ traverse (VObj properties) →
         isLinkMarker link = true).
Proof.
  intros Hplain Hfield Hvalue. unfold materializeField.
  rewrite Hplain, Hfield, Hvalue. cbn [bind].
  change (String.eqb "RichText" "Text") with false.
  change (String.eqb "RichText" "RichText" && isPlainObject (VObj properties))
    with true.
  cbv iota. intros Hst.
  apply bind_Ok in Hst as (resolvableReferences & Hfilter & Hst).
  apply bind_Ok in Hst as (nodeIds & Hids & [= <-]).
  destruct (uniq_spec [] nodeIds) as [Hnodup Huniq].
  apply mapE_Ok in Hids.
  eexists (uniq [] nodeIds), _. split; [reflexivity|].
  split; [done|]. split; [done|]. split; [done|]. split.
  - intros id. rewrite Huniq. split.
    + intros [Hid _].
      destruct (Forall2_elem_r _ _ _ _ Hids Hid) as (link & Hlink & Hnode).
      destruct (filterE_Ok _ _ _ Hfilter link Hlink) as [Hin Hres].
      by exists link.
    + intros (link & Hin & Hres & Hnode). split; [|apply not_elem_of_nil].
      pose proof (filterE_Ok_elem _ _ _ _ Hfilter Hin Hres) as Hlink.
      destruct (Forall2_elem_l _ _ _ _ Hids Hlink) as (id' & Hid' & Hnode').
      rewrite Hnode in Hnode'. by injection Hnode' as <-.
  - apply traverse_markers.
Qed.

End RichText.

Lemma rich_text_references_are_resolvable_witness :
  ∃ st',
    @materializeField sampleCollaborators sampleArgs articleType sampleMId
      article1 "space___article1___Entry"
      ([("body", VObj sampleDocument)], [], []) "body" = Ok st'
    ∧ ∃ ids richTextNode,
        st' = ([("body___NODE",
                 VStr "space___article1___Entry.body.richText")],
               [], [richTextNode])
        ∧ get "id" richTextNode
          = Some (VStr "space___article1___Entry.body.richText")
        ∧ get "references___NODE" richTextNode = Some (VArr (VStr <$> ids))
        ∧ NoDup ids
        ∧ (∀ id, id ∈ ids ↔
             ∃ link, link ∈ traverse (VObj sampleDocument)
                     ∧ @isResolvable sampleArgs link = Ok true
                     ∧ @linkNodeId sampleArgs sampleMId link = Ok id)
        ∧ (∀ link, link ∈ traverse (VObj sampleDocument) →
             isLinkMarker link = true).
Proof.
  eexists. split; [reflexivity|].
  exact (@rich_text_references_are_resolvable sampleCollaborators
           sampleArgs articleType sampleMId article1
           "space___article1___Entry" [("body", VObj sampleDocument)]
           [] [] "body" sampleDocument _ eq_refl eq_refl eq_refl eq_refl).
Defined.

End RichTextFacts.

(** ** Restricted field names *)

Module ConflictFacts.
Import Js Normalize NormalizeSpec ObjFacts.

Section Conflicts.

Context `{Collaborators}.
Variable args : Args.

Lemma prefixConflictFields_cons conflictField conflictFields entryItemFields :
  prefixConflictFields args (conflictField :: conflictFields) entryItemFields
  = prefixConflictFields args conflictFields
      (delete conflictField
         (set (conflictFieldPrefix args +:+ conflictField)
            (getV conflictField entryItemFields) entryItemFields)).
Proof. done. Qed.

Lemma prefixConflictFields_other conflictFields entryItemFields k :
  k ∉ conflictFields →
  k ∉ String.append (conflictFieldPrefix args) <$> conflictFields →
  get k (prefixConflictFields args conflictFields entryItemFields)
  = get k entryItemFields.
Proof.
  revert entryItemFields.
  induction conflictFields as [|c conflictFields IH];
    intros entryItemFields Hk Hprefixed; [done|].
  rewrite prefixConflictFields_cons, IH.
  - rewrite get_delete_ne by (intros ->; apply Hk, list_elem_of_here).
    apply get_set_ne. intros Heq. apply Hprefixed. rewrite fmap_cons, Heq.
    apply list_elem_of_here.
  - intros Hin. by apply Hk, list_elem_of_further.
  - intros Hin. apply Hprefixed. rewrite fmap_cons.
    by apply list_elem_of_further.
Qed.

(** X17. Prefixing the conflicting fields, when no conflicting name is
    another one with the prefix before it: a conflicting name is no field
    any more, its value is the field of the prefixed name ([undefined]
    when the entry had no such field), and every other field is as it
    was. *)
Theorem conflict_fields_are_prefixed conflictFields entryItemFields :
  NoDup conflictFields →
  (∀ a b, a ∈ conflictFields → b ∈ conflictFields →
          conflictFieldPrefix args +:+ a ≠ b) →
  (∀ c, c ∈ conflictFields →
     get c (prefixConflictFields args conflictFields entryItemFields) = None
     ∧ get (conflictFieldPrefix args +:+ c)
         (prefixConflictFields args conflictFields entryItemFields)
       = Some (getV c entryItemFields))
  ∧ (∀ k, k ∉ conflictFields →
       k ∉ String.append (conflictFieldPrefix args) <$> conflictFields →
       get k (prefixConflictFields args conflictFields entryItemFields)
       = get k entryItemFields).
Proof.
  intros Hnodup Hprefix. split; [|apply prefixConflictFields_other].
  revert entryItemFields.
  induction conflictFields as [|c conflictFields IH]; intros entryItemFields;
    [by intros c ?%elem_of_nil|].
  apply NoDup_cons in Hnodup as [Hc Hnodup].
  assert (Hrest : ∀ a b, a ∈ conflictFields → b ∈ conflictFields →
                         conflictFieldPrefix args +:+ a ≠ b)
    by (intros a b Ha Hb; by apply Hprefix; apply list_elem_of_further).
  assert (Hplain : ∀ c', c' ∈ conflictFields →
    c' ≠ c ∧ c' ≠ conflictFieldPrefix args +:+ c).
  { intros c' Hc'. split; [by intros ->|]. intros ->.
    eapply Hprefix; [apply list_elem_of_here|by apply list_elem_of_further|].
    done. }
  intros c' Hin. rewrite prefixConflictFields_cons.
  apply elem_of_cons in Hin as [->|Hin].
  - rewrite !prefixConflictFields_other.
    + split; [apply get_delete_eq|].
      rewrite get_delete_ne, get_set_eq; [done|].
      intros Heq. eapply Hprefix; [apply list_elem_of_here..|].
      by rewrite <- Heq.
    + intros Hin. eapply Hprefix;
        [apply list_elem_of_here|by apply list_elem_of_further|done].
    + intros (c' & Heq & Hc')%list_elem_of_fmap.
      apply (inj (String.append _)) in Heq. by subst c'.
    + done.
    + intros (c' & Heq & Hc')%list_elem_of_fmap.
      eapply Hprefix;
        [by apply list_elem_of_further|apply list_elem_of_here|done].
  - destruct (IH Hnodup Hrest
                (delete c
                   (set (conflictFieldPrefix args +:+ c)
                      (getV c entryItemFields) entryItemFields)) c' Hin)
      as [Hgone Hmoved].
    split; [done|]. rewrite Hmoved. f_equal. unfold getV.
    destruct (Hplain c' Hin) as [Hne1 Hne2].
    rewrite get_delete_ne by done. by rewrite get_set_ne.
Qed.

End Conflicts.

Lemma conflict_fields_are_prefixed_witness :
  let entryItemFields :=
    [("id", VStr "mine"); ("title", VStr "Hello")] in
  let prefixed :=
    @prefixConflictFields sampleArgs ["id"; "parent"] entryItemFields in
  (∀ c, c ∈ ["id"; "parent"] →
     get c prefixed = None
     ∧ get ("contentful" +:+ c) prefixed = Some (getV c entryItemFields))
  ∧ (∀ k, k ∉ ["id"; "parent"] →
       k ∉ String.append "contentful" <$> ["id"; "parent"] →
       get k prefixed = get k entryItemFields).
Proof.
  apply (conflict_fields_are_prefixed sampleArgs).
  - by apply (bool_decide_unpack _).
  - intros a b Ha Hb.
    repeat (apply elem_of_cons in Ha as [->|Ha];
            [repeat (apply elem_of_cons in Hb as [->|Hb]; [done|]);
             by apply elem_of_nil in Hb|]).
    by apply elem_of_nil in Ha.
Defined.

End ConflictFacts.

(** ** Node creation, locale by locale *)

Module LocaleLoopFacts.
Import Js Normalize NormalizeSpec ResultFacts.
Local Open Scope js_scope.

(** A [forEach] over the locales creates the nodes of the locales before
    the first one whose body throws, and stops there. *)
Lemma forEachLocale_outcome (body : Locale → result (list obj)) ls created0 :
  ∃ passed rest nodes,
    ls = passed ++ rest
    ∧ Forall2 (λ locale ns, body locale = Ok ns) passed nodes
    ∧ created (forEachLocale body ls created0) = created0 ++ concat nodes
    ∧ match thrown (forEachLocale body ls created0) with
      | None => rest = []
      | Some e =>
        ∃ locale rest', rest = locale :: rest' ∧ body locale = Throw e
      end.
Proof.
  revert created0. induction ls as [|locale ls IH]; intros created0; simpl.
  - exists [], [], []. split; [done|]. split; [constructor|].
    split; [by rewrite app_nil_r|done].
  - destruct (body locale) as [ns|e] eqn:Hbody.
    + destruct (IH (created0 ++ ns))
        as (passed & rest & nodes & -> & Hall & Hcreated & Hthrown).
      exists (locale :: passed), rest, (ns :: nodes).
      split; [done|]. split; [by constructor|].
      split; [by rewrite Hcreated, <- app_assoc|done].
    + exists [], (locale :: ls), []. simpl.
      split; [done|]. split; [constructor|].
      split; [by rewrite app_nil_r|by exists locale, ls].
Qed.

Lemma mapE_Throw_elem {A B} (f : A → result B) l x e :
  x ∈ l → f x = Throw e → ∃ e', mapE f l = Throw e'.
Proof.
  intros Hx Hfx. induction l as [|y l IH]; [by apply elem_of_nil in Hx|].
  simpl. destruct (f y) as [z|e'] eqn:Hy; simpl; [|by eexists].
  apply elem_of_cons in Hx as [->|Hx]; [congruence|].
  destruct (IH Hx) as [e' ->]. simpl. by eexists.
Qed.

Section Loop.

Context `{Collaborators}.
Variable args : Args.

(** X18. [createNodesForContentType] creates its nodes locale by locale,
    and those of a locale only when the whole locale went through: first
    the content type node, then the entry nodes in the order of the
    entries, then the child nodes.  When a locale throws, the nodes of the
    locales before it are created, and none of that locale or of those
    after it. *)
Theorem nodes_are_created_locale_by_locale contentTypeItem entries :
  ∃ passed rest nodes,
    locales args = passed ++ rest
    ∧ Forall2 (λ locale ns,
        ∃ results,
          mapE (entryNodeOf args contentTypeItem locale
                  (buildFallbackChain (locales args))
                  (conflictFieldsOf args contentTypeItem)) entries
          = Ok results
          ∧ ns = contentTypeNodeOf args contentTypeItem
                 :: omap fst results ++ concat (snd <$> results))
        passed nodes
    ∧ created (createNodesForContentType args contentTypeItem entries)
      = concat nodes
    ∧ match thrown (createNodesForContentType args contentTypeItem entries)
      with
      | None => rest = []
      | Some e =>
        ∃ locale rest',
          rest = locale :: rest'
          ∧ nodesForLocale args contentTypeItem entries locale = Throw e
      end.
Proof.
  unfold createNodesForContentType.
  destruct (forEachLocale_outcome
              (nodesForLocale args contentTypeItem entries) (locales args) [])
    as (passed & rest & nodes & Hlocales & Hall & Hcreated & Hthrown).
  exists passed, rest, nodes. split; [done|]. split; [|done].
  eapply Forall2_impl; [exact Hall|].
  intros locale ns Hns. unfold nodesForLocale in Hns.
  apply bind_Ok in Hns as (results & Hresults & [= <-]). by exists results.
Qed.

(** X19. An entry that holds a field its content type does not declare,
    and whose node is not in the store with the digest of the entry, makes
    the first locale throw: [createNodesForContentType] ends in an
    exception and has created no node. *)
Theorem undeclared_field_stops_creation contentTypeItem entries entryItem
    field locale rest :
  locales args = locale :: rest →
  entryItem ∈ entries →
  field ∈ fields entryItem →
  (∀ declared, declared ∈ contentType_fields contentTypeItem →
               field_id declared ≠ field.1) →
  (∀ entryNodeId,
     makeMakeId args (code locale) (space_id args)
       (VStr (sys_id (sys entryItem))) (VStr (sys_type (sys entryItem)))
     = Ok entryNodeId →
     strictEqStr (contentDigestOf (getNode entryNodeId))
       (sys_updatedAt (sys entryItem)) = false) →
  created (createNodesForContentType args contentTypeItem entries) = []
  ∧ is_Some (thrown (createNodesForContentType args contentTypeItem entries)).
Proof.
  intros Hlocales Hentry Hfield Hundeclared Hchanged.
  assert (Hlocalize : ∃ e,
    localizeFields args contentTypeItem locale
      (buildFallbackChain (locales args)) entryItem = Throw e).
  { unfold localizeFields. eapply mapE_Throw_elem; [exact Hfield|].
    destruct field as [k bag]. simpl in Hundeclared.
    destruct (List.find _ _) as [declared|] eqn:Hfind; [|done].
    apply find_some in Hfind as [Hin Heq].
    apply String.eqb_eq in Heq.
    by destruct (Hundeclared declared (proj2 (list_elem_of_In _ _) Hin)). }
  assert (Hnode : ∃ e,
    entryNodeOf args contentTypeItem locale
      (buildFallbackChain (locales args))
      (conflictFieldsOf args contentTypeItem) entryItem = Throw e).
  { unfold entryNodeOf.
    destruct (NodeFacts.makeMakeId_Ok args (code locale) (space_id args)
                (sys_id (sys entryItem)) (sys_type (sys entryItem)))
      as [entryNodeId Hid].
    rewrite Hid. cbn [bind]. rewrite (Hchanged _ Hid).
    destruct Hlocalize as [e ->]. by exists e. }
  assert (Hbody : ∃ e,
    nodesForLocale args contentTypeItem entries locale = Throw e).
  { destruct Hnode as [e Hnode]. unfold nodesForLocale.
    destruct (mapE_Throw_elem _ _ _ _ Hentry Hnode) as [e' ->].
    by exists e'. }
  unfold createNodesForContentType. rewrite Hlocales. simpl.
  destruct Hbody as [e ->]. simpl. split; [done|by eexists].
Qed.

End Loop.

Lemma undeclared_field_stops_creation_witness :
  created (@createNodesForContentType sampleCollaborators sampleArgs
             authorType [author1; post1]) = []
  ∧ is_Some (thrown (@createNodesForContentType sampleCollaborators
                       sampleArgs authorType [author1; post1])).
Proof.
  apply (@undeclared_field_stops_creation sampleCollaborators sampleArgs
           authorType [author1; post1] post1
           ("title", [("en", VStr "Hello")]) english
           [{| code := "de"; fallbackCode := VStr "en"; isDefault := false |}]).
  - reflexivity.
  - apply list_elem_of_further, list_elem_of_here.
  - apply list_elem_of_here.
  - intros declared Hin.
    apply list_elem_of_singleton in Hin as ->. done.
  - intros entryNodeId _. reflexivity.
Defined.

End LocaleLoopFacts.

(** ** Child nodes *)

Module ChildFacts.
Import Js Normalize NormalizeSpec ResultFacts ObjFacts.
Local Open Scope js_scope.

Section Children.

Context `{Collaborators}.
Variable args : Args.

Lemma prepareJSONNode_digest id node key content :
  contentDigestOf (VObj (prepareJSONNode id node key content).1)
  = getV "updatedAt" node.
Proof.
  unfold prepareJSONNode, contentDigestOf. cbn [fst propOr].
  by rewrite getV_set_eq.
Qed.

(** X20. The JSON node of an object: [id], [parent], [children] and
    [internal] are those of the node, whatever the object holds under
    these names, the digest is the [updatedAt] of the parent, and every
    other property of the object is a field of the node.  A value that is
    no object is the field [content].  The parent gets the id of the node
    as its last child. *)
Theorem json_node_keeps_content id node key content ids :
  get "children" node = Some (VArr ids) →
  let jsonNode := (prepareJSONNode id node key content).1 in
  let parent := (prepareJSONNode id node key content).2 in
  get "id" jsonNode = Some (VStr id)
  ∧ get "parent" jsonNode = Some (getV "id" node)
  ∧ get "children" jsonNode = Some (VArr [])
  ∧ contentDigestOf (VObj jsonNode) = getV "updatedAt" node
  ∧ match content with
    | VObj properties =>
      NoDup (keys properties) →
      ∀ k, k ∉ ["id"; "parent"; "children"; "internal"]%string →
           get k jsonNode = get k properties
    | _ => get "content" jsonNode = Some content
    end
  ∧ get "children" parent = Some (VArr (ids ++ [VStr id]))
  ∧ ∀ k, k ≠ "children"%string → get k parent = get k node.
Proof.
  intros Hchildren jsonNode parent.
  split; [|split; [|split; [|split; [|split; [|split]]]]].
  - unfold jsonNode, prepareJSONNode. cbn [fst].
    rewrite !get_set_ne by done. apply get_set_eq.
  - unfold jsonNode, prepareJSONNode. cbn [fst].
    rewrite !get_set_ne by done. apply get_set_eq.
  - unfold jsonNode, prepareJSONNode. cbn [fst].
    rewrite !get_set_ne by done. apply get_set_eq.
  - apply prepareJSONNode_digest.
  - unfold jsonNode, prepareJSONNode. cbn [fst].
    destruct content as [| |b|n|s|elements|properties];
      try (by rewrite !get_set_ne by done).
    intros Hnodup k Hk.
    rewrite !get_set_ne
      by (intros <-; apply Hk;
          repeat first [apply list_elem_of_here|apply list_elem_of_further]).
    rewrite get_spread by done. case_bool_decide as Hin; [done|].
    symmetry. by apply get_None_keys.
  - unfold parent, prepareJSONNode. cbn [snd].
    rewrite (getV_Some _ _ _ Hchildren). apply get_set_eq.
  - intros k Hk. unfold parent, prepareJSONNode. cbn [snd].
    apply get_set_ne. by intros <-.
Qed.

(** *** The digests of the child nodes *)

Variable updatedAt : string.

Lemma childDigest_json core entryNode childrenNodes id key content :
  keepsCore core entryNode childrenNodes →
  get "updatedAt" core = Some (VStr updatedAt) →
  childDigest updatedAt (prepareJSONNode id entryNode key content).1.
Proof.
  intros (_ & Hsame & _) Hcore. left. rewrite prepareJSONNode_digest.
  unfold getV. by rewrite Hsame, Hcore.
Qed.

Lemma materializeElement_digests core entryItem entryNodeId key st indexed :
  get "updatedAt" core = Some (VStr updatedAt) →
  keepsCore core st.1.2 st.2 →
  Forall (childDigest updatedAt) st.2 →
  Forall (childDigest updatedAt)
    (materializeElement entryItem entryNodeId key st indexed).2.
Proof.
  destruct st as [[entryItemFields entryNode] childrenNodes].
  destruct indexed as [i o]. cbn [fst snd]. intros Hcore Hkeeps Hall.
  unfold materializeElement.
  destruct (negb _); [|done].
  pose proof (childDigest_json core entryNode childrenNodes
                (createNodeId (entryNodeId +:+ key +:+ pretty i
                               +:+ "JSONNode")) key o Hkeeps Hcore) as Hjson.
  destruct (prepareJSONNode _ entryNode key o). cbn [fst snd] in *.
  apply Forall_app. split; [done|]. by constructor.
Qed.

Lemma materializeElements_digests core entryItem entryNodeId key l st :
  get "updatedAt" core = Some (VStr updatedAt) →
  keepsCore core st.1.2 st.2 →
  Forall (childDigest updatedAt) st.2 →
  Forall (childDigest updatedAt)
    (foldl (materializeElement entryItem entryNodeId key) st l).2.
Proof.
  intros Hcore. revert st. induction l as [|x l IH]; intros st Hkeeps Hall;
    [done|].
  simpl. apply IH.
  - by apply NodeFacts.materializeElement_keepsCore.
  - by apply (materializeElement_digests core).
Qed.

Lemma materializeField_digests core contentTypeItem mId entryItem
    entryNodeId st key st' :
  get "updatedAt" core = Some (VStr updatedAt) →
  keepsCore core st.1.2 st.2 →
  Forall (childDigest updatedAt) st.2 →
  materializeField args contentTypeItem mId entryItem entryNodeId st key
  = Ok st' →
  Forall (childDigest updatedAt) st'.2.
Proof.
  destruct st as [[entryItemFields entryNode] childrenNodes].
  cbn [fst snd]. intros Hcore Hkeeps Hall. unfold materializeField.
  assert (Hnode : getV "updatedAt" entryNode = VStr updatedAt).
  { destruct Hkeeps as (_ & Hsame & _). unfold getV.
    by rewrite Hsame, Hcore. }
  destruct (includes "___" key); [by intros [= <-]|].
  intros Hst. apply bind_Ok in Hst as (fieldType & _ & Hst).
  destruct (String.eqb fieldType "Text").
  { injection Hst as <-. cbn [fst snd].
    destruct (negb _); [|done].
    apply Forall_app. split; [done|]. constructor; [|done].
    left. unfold prepareTextNode, contentDigestOf. cbn. exact Hnode. }
  destruct (String.eqb fieldType "RichText" && _).
  { bind_inv Hst. injection Hst as <-. cbn [fst snd].
    apply Forall_app. split; [done|]. constructor; [|done].
    right. eexists. split; [reflexivity|]. by split. }
  destruct (String.eqb fieldType "Object" && isPlainObject _).
  { destruct (negb _).
    - pose proof (childDigest_json core entryNode childrenNodes
                    (createNodeId (entryNodeId +:+ key +:+ "JSONNode")) key
                    (getV key entryItemFields) Hkeeps Hcore) as Hjson.
      destruct (prepareJSONNode _ entryNode key _).
      injection Hst as <-. cbn [fst snd] in *.
      apply Forall_app. split; [done|]. by constructor.
    - by injection Hst as <-. }
  destruct (String.eqb fieldType "Object" && isArray _).
  { match type of Hst with
    | context [foldl ?f ?st0 ?l] =>
      pose proof (materializeElements_digests core entryItem entryNodeId
                    key l st0 Hcore Hkeeps Hall) as Helements;
      destruct (foldl f st0 l) as [[fields' node'] children']
    end.
    by injection Hst as <-. }
  destruct (String.eqb fieldType "Location").
  { apply bind_Ok in Hst as (children' & Hchildren & Hst).
    injection Hst as <-. cbn [fst snd].
    destruct (negb _).
    - apply bind_Ok in Hchildren as (locationNode & Hlocation & [= <-]).
      apply Forall_app. split; [done|]. constructor; [|done].
      unfold prepareLocationNode in Hlocation.
      bind_inv Hlocation. injection Hlocation as <-.
      left. unfold contentDigestOf. cbn. exact Hnode.
    - by injection Hchildren as <-. }
  by injection Hst as <-.
Qed.

(** X26. A [Location] field without a value is not guarded: when its
    location node is not in the store with the digest of the entry, the
    callback of the type-directed pass throws a TypeError on reading
    [lat], where a [Text], [RichText] or [Object] field without a value
    goes through. *)
Theorem location_without_value_throws contentTypeItem mId entryItem
    entryNodeId st key :
  includes "___" key = false →
  fieldTypeOf args contentTypeItem key = Ok "Location"%string →
  getV key st.1.1 = VNull ∨ getV key st.1.1 = VUndefined →
  strictEqStr
    (contentDigestOf
       (getNode (createNodeId (entryNodeId +:+ key +:+ "Location"))))
    (sys_updatedAt (sys entryItem)) = false →
  (∃ message,
     materializeField args contentTypeItem mId entryItem entryNodeId st key
     = Throw (TypeError message))
  ∧ ∀ fieldType,
      fieldType ∈ ["Text"; "RichText"; "Object"]%string →
      ∀ contentTypeItem',
        fieldTypeOf args contentTypeItem' key = Ok fieldType →
        ∃ st', materializeField args contentTypeItem' mId entryItem
                 entryNodeId st key = Ok st'.
Proof.
  destruct st as [[entryItemFields entryNode] childrenNodes].
  cbn [fst snd]. intros Hplain Hfield Hvalue Hchanged.
  unfold materializeField. rewrite Hplain. split.
  - rewrite Hfield. cbn [bind].
    change (String.eqb "Location" "Text") with false.
    change (String.eqb "Location" "RichText") with false.
    change (String.eqb "Location" "Object") with false.
    change (String.eqb "Location" "Location") with true.
    cbn [andb]. cbv iota. rewrite Hchanged. cbn [negb].
    unfold prepareLocationNode.
    destruct Hvalue as [-> | ->]; cbn; by eexists.
  - intros fieldType Hin contentTypeItem' ->. cbn [bind].
    assert (Hno : isPlainObject (getV key entryItemFields) = false
                  ∧ isArray (getV key entryItemFields) = false)
      by (by destruct Hvalue as [-> | ->]).
    destruct Hno as [Hobject Harray]. rewrite Hobject, Harray.
    repeat (apply elem_of_cons in Hin as [->|Hin]; [by eexists|]).
    by apply elem_of_nil in Hin.
Qed.

End Children.

Section Digests.

Context `{Collaborators}.
Variable args : Args.

(** X21. The child nodes of an entry node carry the [updatedAt] of the
    entry as their content digest, the companion [sys] node, the text,
    JSON and location nodes alike; a rich text node carries the digest of
    its raw text. *)
Theorem child_nodes_carry_entry_digest contentTypeItem locale localesFallback
    conflictFields entryItem node childrenNodes :
  entryNodeOf args contentTypeItem locale localesFallback conflictFields
    entryItem = Ok (Some node, childrenNodes) →
  Forall (childDigest (sys_updatedAt (sys entryItem))) childrenNodes.
Proof.
  unfold entryNodeOf. intros Hnode.
  apply bind_Ok in Hnode as (entryNodeId & Hid & Hnode).
  destruct (strictEqStr _ _); [done|].
  apply bind_Ok in Hnode as (localized & Hlocalized & Hnode).
  apply bind_Ok in Hnode as (linked & Hlinked & Hnode).
  apply bind_Ok in Hnode as (merged & Hmerged & Hnode).
  apply bind_Ok in Hnode as ([[fields4 entryNode] children4] & Hbuilt & Hnode).
  apply bind_Ok in Hnode as (tagged & Htags & [= _ <-]).
  match type of Hbuilt with
  | foldlM ?f (?fields0, ?core, ?start) ?l = _ =>
    apply (foldlM_invariant
             (λ st, keepsCore core st.1.2 st.2
                    ∧ Forall (childDigest (sys_updatedAt (sys entryItem)))
                        st.2) f l
             (λ a x a' Ha Hstep,
                conj (NodeFacts.materializeField_keepsCore args core _ _ _
                        _ a x a' (proj1 Ha) Hstep)
                     (materializeField_digests args _ core _ _ _ _ a x a'
                        eq_refl (proj1 Ha) (proj2 Ha) Hstep))
             (fields0, core, start) (fields4, entryNode, children4));
      [|exact Hbuilt]
  end.
  split.
  - split; [done|]. split; [done|]. exists []. split; [done|].
    split; [done|]. intros child Hchild. by apply elem_of_nil in Hchild.
  - constructor; [|constructor]. left.
    unfold withRevisionAndContentType, contentDigestOf.
    destruct (sys_revision (sys entryItem)) as [revision|];
      [destruct (negb (revision =? 0)%Z)|];
      by destruct (sys_contentType (sys entryItem)).
Qed.

End Digests.

Lemma json_node_keeps_content_witness :
  let content := VObj [("id", VStr "mine"); ("pages", VNum 3)] in
  let node := [("id", VStr "entry"); ("children", VArr []);
               ("updatedAt", VStr "2021-03-01")] in
  let jsonNode :=
    (@prepareJSONNode sampleCollaborators "json" node "meta" content).1 in
  let parent :=
    (@prepareJSONNode sampleCollaborators "json" node "meta" content).2 in
  get "id" jsonNode = Some (VStr "json")
  ∧ get "parent" jsonNode = Some (VStr "entry")
  ∧ get "children" jsonNode = Some (VArr [])
  ∧ contentDigestOf (VObj jsonNode) = VStr "2021-03-01"
  ∧ (NoDup ["id"; "pages"]%string →
     ∀ k, k ∉ ["id"; "parent"; "children"; "internal"]%string →
          get k jsonNode = get k [("id", VStr "mine"); ("pages", VNum 3)])
  ∧ get "children" parent = Some (VArr [VStr "json"])
  ∧ ∀ k, k ≠ "children"%string → get k parent = get k node.
Proof.
  exact (@json_node_keeps_content sampleCollaborators "json"
           [("id", VStr "entry"); ("children", VArr []);
            ("updatedAt", VStr "2021-03-01")] "meta"
           (VObj [("id", VStr "mine"); ("pages", VNum 3)]) [] eq_refl).
Defined.

Lemma location_without_value_throws_witness :
  (∃ message,
     @materializeField sampleCollaborators sampleArgs articleType sampleMId
       article1 "space___article1___Entry" ([("place", VNull)], [], [])
       "place"
     = Throw (TypeError message))
  ∧ ∀ fieldType,
      fieldType ∈ ["Text"; "RichText"; "Object"]%string →
      ∀ contentTypeItem',
        @fieldTypeOf sampleArgs contentTypeItem' "place" = Ok fieldType →
        ∃ st', @materializeField sampleCollaborators sampleArgs
                 contentTypeItem' sampleMId article1
                 "space___article1___Entry" ([("place", VNull)], [], [])
                 "place" = Ok st'.
Proof.
  apply (@location_without_value_throws sampleCollaborators sampleArgs
           articleType sampleMId article1 "space___article1___Entry"
           ([("place", VNull)], [], []) "place");
    [reflexivity|reflexivity|by left|reflexivity].
Defined.

Lemma child_nodes_carry_entry_digest_witness :
  ∃ node childrenNodes,
    @entryNodeOf sampleCollaborators sampleArgs articleType english
      (buildFallbackChain sampleLocales) [] article1
    = Ok (Some node, childrenNodes)
    ∧ length childrenNodes = 5%nat
    ∧ Forall (@childDigest sampleCollaborators "2021-03-01") childrenNodes.
Proof.
  eexists _, _. split; [reflexivity|]. split; [reflexivity|].
  exact (@child_nodes_carry_entry_digest sampleCollaborators sampleArgs
           articleType english (buildFallbackChain sampleLocales) []
           article1 _ _ eq_refl).
Defined.

End ChildFacts.

(** ** Asset nodes of the first revision *)

Module AssetFacts.
Import Js Normalize NormalizeSpec ResultFacts.
Local Open Scope js_scope.

Section Assets.

Context `{Collaborators}.
Variable args : Args.

Hypothesis Hacyclic : acyclic (buildFallbackChain (locales args)).
Hypothesis Hstack :
  (length (buildFallbackChain (locales args)) < callStackSize)%nat.

Lemma makeGetLocalizedField_returns locale field :
  ∃ v, makeGetLocalizedField locale (buildFallbackChain (locales args)) field
       = Ok v.
Proof.
  unfold makeGetLocalizedField.
  destruct (LocaleFacts.getLocalizedField_acyclic_aux field _ Hacyclic
              (length (buildFallbackChain (locales args))) []
              (VStr (code locale)) callStackSize) as [v ->].
  - constructor.
  - intros k Hk. by apply elem_of_nil in Hk.
  - intros k Hk. by apply elem_of_nil in Hk.
  - simpl. lia.
  - exact Hstack.
  - by exists v.
Qed.

Lemma assetNodeOf_returns assetItem locale :
  ∃ node, assetNodeOf args assetItem locale = Ok node
          ∧ assetNodeFor args assetItem locale node.
Proof.
  unfold assetNodeOf.
  destruct (NodeFacts.makeMakeId_Ok args (code locale) (space_id args)
              (sys_id (sys assetItem)) (sys_type (sys assetItem)))
    as [id Hid].
  rewrite Hid. cbn [bind].
  assert (Hfield : ∀ name fallback, ∃ v,
    match lookupField name (fields assetItem) with
    | Some bag =>
      makeGetLocalizedField locale (buildFallbackChain (locales args)) bag
    | None => Ok fallback
    end = Ok v
    ∧ (lookupField name (fields assetItem) = None → v = fallback)).
  { intros name fallback.
    destruct (lookupField name (fields assetItem)) as [bag|].
    - destruct (makeGetLocalizedField_returns locale bag) as [v ->].
      by exists v.
    - by exists fallback. }
  destruct (Hfield "file"%string VNull) as (file & -> & Hfile).
  destruct (Hfield "title"%string (VStr "")) as (title & -> & Htitle).
  destruct (Hfield "description"%string (VStr ""))
    as (description & -> & Hdescription).
  cbn [bind]. eexists. split; [reflexivity|].
  split; [done|]. split; [done|]. split; [by exists id|]. split; [done|].
  split; [|split].
  - intros Hnone. cbn. by rewrite Hfile.
  - intros Hnone. cbn. by rewrite Htitle.
  - intros Hnone. cbn. by rewrite Hdescription.
Qed.

Lemma forEachLocale_all (body : Locale → result (list obj))
    (P : Locale → obj → Prop) ls created0 :
  (∀ locale, ∃ node, body locale = Ok [node] ∧ P locale node) →
  ∃ nodes,
    forEachLocale body ls created0
    = {| created := created0 ++ nodes; thrown := None |}
    ∧ Forall2 P ls nodes.
Proof.
  intros Hbody. revert created0.
  induction ls as [|locale ls IH]; intros created0; simpl.
  - exists []. by rewrite app_nil_r.
  - destruct (Hbody locale) as (node & -> & Hnode).
    destruct (IH (created0 ++ [node])) as (nodes & -> & Hall).
    exists (node :: nodes). split; [by rewrite <- app_assoc|].
    by constructor.
Qed.

End Assets.

(** X22. The first revision of [createAssetNodes], with a fallback table
    without a cycle and a call stack deeper than the table is long: it
    throws nothing and creates one node for every locale, in the order of
    the locales.  The node of a locale has the locale's code, the id of
    the asset for that locale, the [updatedAt] of the asset as its digest,
    and [null], the empty string and the empty string for a [file],
    [title] and [description] the asset does not have. *)
Theorem asset_nodes_one_per_locale `{Collaborators} (args : Args) assetItem :
  acyclic (buildFallbackChain (locales args)) →
  (length (buildFallbackChain (locales args)) < callStackSize)%nat →
  thrown (createAssetNodes args assetItem) = None
  ∧ Forall2 (assetNodeFor args assetItem) (locales args)
      (created (createAssetNodes args assetItem)).
Proof.
  intros Hacyclic Hstack. unfold createAssetNodes.
  destruct (forEachLocale_all
              (λ locale, let* assetNode :=
                           assetNodeOf args assetItem locale in
                         Ok [assetNode])
              (assetNodeFor args assetItem) (locales args) [])
    as (nodes & -> & Hall); [|done].
  intros locale.
  destruct (assetNodeOf_returns args Hacyclic Hstack assetItem locale)
    as (node & -> & Hnode).
  by exists node.
Qed.

Lemma asset_nodes_one_per_locale_witness :
  thrown (@createAssetNodes sampleCollaborators sampleArgs photo) = None
  ∧ Forall2 (@assetNodeFor sampleCollaborators sampleArgs photo)
      sampleLocales
      (created (@createAssetNodes sampleCollaborators sampleArgs photo)).
Proof.
  apply (@asset_nodes_one_per_locale sampleCollaborators sampleArgs photo).
  - exact LocaleFacts.sampleLocales_acyclic.
  - vm_compute. lia.
Defined.

End AssetFacts.

(** ** Text nodes of the second revision *)

Module TextNodeFacts.
Import Js Normalize NormalizeSpec ResultFacts ObjFacts.
Local Open Scope js_scope.

Section TextNodes.

Context `{Collaborators}.
Variable args : Args.

Lemma materializeTextField_children contentTypeItem entryItem entryNodeId
    st key st' :
  get "id" st.1.2 = Some (VStr entryNodeId) →
  get "updatedAt" st.1.2 = Some (VStr (sys_updatedAt (sys entryItem))) →
  Forall (textNodeOf args contentTypeItem entryNodeId
            (sys_updatedAt (sys entryItem))) st.2 →
  materializeTextField args contentTypeItem entryItem entryNodeId st key
  = Ok st' →
  Forall (textNodeOf args contentTypeItem entryNodeId
            (sys_updatedAt (sys entryItem))) st'.2.
Proof.
  destruct st as [[entryItemFields entryNode] childrenNodes].
  cbn [fst snd]. intros Hid Hupdated Hall. unfold materializeTextField.
  destruct (includes "___" key); [by intros [= <-]|].
  intros Hst. apply bind_Ok in Hst as (fieldType & Hfield & Hst).
  destruct (String.eqb_spec fieldType "Text") as [->|_];
    [|by injection Hst as <-].
  injection Hst as <-. cbn [fst snd].
  destruct (negb _); [|done].
  apply Forall_app. split; [done|]. constructor; [|done].
  unfold textNodeOf, prepareTextNode, contentDigestOf. cbn.
  rewrite (getV_Some _ _ _ Hid), (getV_Some _ _ _ Hupdated).
  split; [done|]. split; [done|]. split; [done|]. by exists key.
Qed.

(** X23. In the second revision the child nodes of an entry node are the
    text nodes of its [Text] fields and nothing else: each has the entry
    node as its parent, the node type of a text node, the [updatedAt] of
    the entry as its digest and the id made of the entry node's id, the
    field name and [TextNode]. *)
Theorem second_revision_children_are_text_nodes contentTypeItem locale
    localesFallback conflictFields entryItem node childrenNodes :
  entryNodeOf2 args contentTypeItem locale localesFallback conflictFields
    entryItem = Ok (Some node, childrenNodes) →
  ∃ entryNodeId,
    makeMakeId args (code locale) (space_id args)
      (VStr (sys_id (sys entryItem))) (VStr (sys_type (sys entryItem)))
    = Ok entryNodeId
    ∧ Forall (textNodeOf args contentTypeItem entryNodeId
                (sys_updatedAt (sys entryItem))) childrenNodes.
Proof.
  unfold entryNodeOf2. intros Hnode.
  apply bind_Ok in Hnode as (entryNodeId & Hid & Hnode).
  exists entryNodeId. split; [done|].
  destruct (strictEqStr _ _); [done|].
  apply bind_Ok in Hnode as (fields1 & _ & Hnode).
  apply bind_Ok in Hnode as (fields2 & _ & Hnode).
  apply bind_Ok in Hnode as (fields3 & _ & Hnode).
  apply bind_Ok in Hnode as ([[fields4 entryNode] children4] & Hbuilt & Hnode).
  apply bind_Ok in Hnode as (tagged & Htags & [= _ <-]).
  match type of Hbuilt with
  | foldlM ?f (?fields0, ?core, ?start) ?l = _ =>
    assert (Hstep : ∀ a x a',
      a.1.2 = core
      ∧ Forall (textNodeOf args contentTypeItem entryNodeId
                  (sys_updatedAt (sys entryItem))) a.2 →
      f a x = Ok a' →
      a'.1.2 = core
      ∧ Forall (textNodeOf args contentTypeItem entryNodeId
                  (sys_updatedAt (sys entryItem))) a'.2);
      [|apply (foldlM_invariant _ f l Hstep
                 (fields0, core, start) (fields4, entryNode, children4));
        [|exact Hbuilt]]
  end.
  - intros a x a' [Hcore Hall] Hstep. split.
    + by rewrite (NodeFacts.materializeTextField_node args _ _ _ a x a' Hstep).
    + eapply materializeTextField_children; [| |exact Hall|exact Hstep];
        by rewrite Hcore.
  - split; [done|constructor].
Qed.

End TextNodes.

Lemma second_revision_children_are_text_nodes_witness :
  ∃ node childrenNodes,
    @entryNodeOf2 sampleCollaborators sampleArgs articleType english
      (buildFallbackChain sampleLocales) [] article1
    = Ok (Some node, childrenNodes)
    ∧ length childrenNodes = 1%nat
    ∧ Forall (@textNodeOf sampleCollaborators sampleArgs articleType
                "space___article1___Entry" "2021-03-01") childrenNodes.
Proof.
  eexists _, _. split; [reflexivity|]. split; [reflexivity|].
  destruct (@second_revision_children_are_text_nodes sampleCollaborators
              sampleArgs articleType english
              (buildFallbackChain sampleLocales) [] article1 _ _ eq_refl)
    as (entryNodeId & Hid & Hall).
  by injection Hid as <-.
Defined.

End TextNodeFacts.

(** ** What the resolvers do to the caller's options, and to other assets *)

Module ResolverFacts.
Import JsNum ExtendNodeType ImageSpec.

(** X24. [resolveResize] on a raster asset leaves the caller's options as
    they were, but for two: the width becomes 400 when neither width nor
    height was given, and the resizing behaviour becomes [fill] when both
    were given and no behaviour was.  The URL of the result is made of
    the options as they are left, so a dimension the caller did not give
    is computed for the reported size only and is not requested. *)
Theorem resolveResize_options image options :
  isImage image = true →
  ∃ fl_ resize,
    file image = Some fl_
    ∧ (resolveResize image options).1 = Some resize
    ∧ (resolveResize image options).2
      = set_resizingBehavior
          (match width options, height options with
           | Some _, Some _ =>
             if truthyStr (resizingBehavior options)
             then resizingBehavior options else Some "fill"%string
           | _, _ => resizingBehavior options
           end)
          (set_width
             (match width options, height options with
              | None, None => Some (ofZ 400)
              | _, _ => width options
              end) options)
    ∧ resize_src resize = createUrl (url fl_) (resolveResize image options).2.
Proof.
  intros Himage. unfold resolveResize.
  destruct (file image) as [fl_|] eqn:Hfile;
    [|unfold isImage in Himage; by rewrite Hfile in Himage].
  rewrite Himage. exists fl_.
  destruct options as [ww hh mw mh qq tf jp rb cf bgd sz].
  destruct ww as [ww|], hh as [hh|]; cbn;
    try destruct (truthyStr rb); cbn; by eexists.
Qed.

Lemma resolveResize_options_witness :
  ∃ fl_ resize,
    file sampleImage = Some fl_
    ∧ (resolveResize sampleImage noOptions).1 = Some resize
    ∧ (resolveResize sampleImage noOptions).2
      = set_width (Some (ofZ 400)) noOptions
    ∧ resize_src resize
      = createUrl (url fl_) (set_width (Some (ofZ 400)) noOptions).
Proof.
  exact (resolveResize_options sampleImage noOptions eq_refl).
Defined.

(** X25. The three resolvers return [null] exactly for an asset that has
    no file or whose content type is none of the five image types, and
    then they leave the caller's options untouched. *)
Theorem resolvers_return_null_for_other_assets showNum image options :
  ((resolveFixed image options).1 = None ↔ isImage image = false)
  ∧ ((resolveFluid showNum image options).1 = None ↔ isImage image = false)
  ∧ ((resolveResize image options).1 = None ↔ isImage image = false)
  ∧ (isImage image = false →
     (resolveFixed image options).2 = options
     ∧ (resolveFluid showNum image options).2 = options
     ∧ (resolveResize image options).2 = options).
Proof.
  unfold resolveFixed, resolveFluid, resolveResize, isImage.
  destruct (file image) as [fl_|]; [|done].
  destruct (bool_decide (contentType fl_ ∈ mimeTypeExtensions.*1));
    cbn [negb]; [|done].
  cbv zeta.
  match goal with
  | |- context [if truthyNum ?x then _ else _] => destruct (truthyNum x)
  end; cbn [fst]; by repeat split.
Qed.

End ResolverFacts.
